(** * redis-cli-standalone: the RESP reply decoder, the printer and the session

    A shallow embedding of [protocal.go], [connector.go] and, of [main.go],
    the command runners, the executor of the interactive mode, the reading
    of the command line and [main].

    Conventions of the model.
    - A Go [string] or [[]byte] is a [list byte].
    - A Go [int] is a [Z] in the 64-bit signed range; the places where the
      library clamps or wraps are written out.
    - A [*bufio.Reader] over the connection is the list of the bytes that the
      peer delivers before the stream ends; reading past the end is [io.EOF].
    - A run-time panic is the outcome [Panic]; a returned Go [error] is a
      value of type [error].
    - [make] follows the runtime: a length that is negative, or whose size
      is above the ceiling of the runtime, is a panic; a size within the
      ceiling is granted or not by the allocator of the machine, and when it
      is not the process ends.  What the allocator grants is a parameter,
      [Runtime], of everything from [ReadValue] on; it depends on the size
      alone.  The allocator is asked at [make]: the other allocations of the
      code (a value, a line, the string copied from a buffer that [make] was
      granted) are taken to be granted.
    - The end of the process in [os.Exit] is the value [Exited] with the
      status.
    - The allocator, the dial, the TLS configuration, the terminal, the
      environment, the prompt of the interactive mode and the text of the
      usage are the surroundings: they are parameters, and every statement
      holds for all of their values.  The examples at the end of the file
      run on the machine [roomy]. *)

From Stdlib Require Import ZArith List Lia Bool.
From Stdlib Require Import Strings.Byte.
From Stdlib Require Strings.String.
Import ListNotations.
Import String.StringSyntax.
Delimit Scope string_scope with string.
Local Open Scope Z_scope.

(** ** Bytes and literals *)

Definition bytes := list byte.

(** A Go string literal; Rocq strings have no escapes, so control bytes are
    appended by name. *)
Definition lit (s : String.string) : bytes := String.list_byte_of_string s.
Arguments lit s%_string.

Definition CR : byte := x0d.
Definition LF : byte := x0a.
Definition CRLF : bytes := [CR; LF].
Definition DQUOTE : byte := x22.

Definition code (b : byte) : Z := Z.of_N (Byte.to_N b).

Fixpoint bytes_eqb (a b : bytes) : bool :=
  match a, b with
  | [], [] => true
  | x :: a', y :: b' => Byte.eqb x y && bytes_eqb a' b'
  | _, _ => false
  end.

(** ** Outcomes of a call *)

Inductive panic : Type :=
| PanicMakeSlice      (* makeslice: len out of range *)
| PanicTypeAssertion  (* interface conversion *)
| PanicIndex          (* index out of range *)
| PanicNilPointer     (* nil pointer dereference *)
| PanicExplicit       (* panic(err) *)
| PanicFatal.         (* log.Fatalf, or a fatal error of the runtime: the process exits *)

Inductive outcome (A : Type) : Type :=
| Ret (a : A)
| Panic (p : panic)
| NoFuel.
Arguments Ret {A} a.
Arguments Panic {A} p.
Arguments NoFuel {A}.

Definition bind {A B} (m : outcome A) (k : A -> outcome B) : outcome B :=
  match m with
  | Ret a => k a
  | Panic p => Panic p
  | NoFuel => NoFuel
  end.

Notation "x <- m ;; k" := (bind m (fun x => k))
  (at level 61, m at next level, right associativity).
Notation "' p <- m ;; k" := (bind m (fun x => let p := x in k))
  (at level 61, p pattern, m at next level, right associativity).

(** ** Errors *)

Inductive error : Type :=
| EOF                          (* io.EOF *)
| ErrUnexpectedEOF             (* io.ErrUnexpectedEOF *)
| ErrUnknownType (t : byte)    (* fmt.Errorf("unknown response type: %c", t) *)
| ErrNet (msg : bytes).        (* an error of the socket, with its text *)

(** [%c] of a byte value: the rune of that code point, in UTF-8. *)
Definition fmt_c (t : byte) : bytes :=
  if code t <? 128 then [t]
  else
    match Byte.of_N (Z.to_N (192 + code t / 64)),
          Byte.of_N (Z.to_N (128 + code t mod 64)) with
    | Some hi, Some lo => [hi; lo]
    | _, _ => [t]
    end.

Definition Error_ (e : error) : bytes :=
  match e with
  | EOF => lit "EOF"
  | ErrUnexpectedEOF => lit "unexpected EOF"
  | ErrUnknownType t => lit "unknown response type: " ++ fmt_c t
  | ErrNet msg => msg
  end.

(** ** strconv: decimal integers

    [int] is 64 bits wide. *)

Definition maxUint64 : Z := 18446744073709551615.
Definition maxInt : Z := 9223372036854775807.
Definition minInt : Z := -9223372036854775808.

(** The conversion [int64(u)] of an unsigned value, and negation in [int64]. *)
Definition wrap64 (z : Z) : Z := (z + 9223372036854775808) mod 18446744073709551616 - 9223372036854775808.

Inductive numError : Type := ErrSyntax | ErrRange.

Definition is_digit (c : byte) : bool := (48 <=? code c) && (code c <=? 57).
Definition digit_val (c : byte) : Z := code c - 48.

(** The loop of [strconv.ParseUint(s, 10, 64)]: the digit test comes first,
    then the two overflow tests, and an overflow returns at once. *)
Fixpoint ParseUint_loop (s : bytes) (n : Z) : Z * option numError :=
  match s with
  | [] => (n, None)
  | c :: s' =>
      if negb (is_digit c) then (0, Some ErrSyntax)
      else if maxUint64 / 10 + 1 <=? n then (maxUint64, Some ErrRange)
      else
        let n1 := n * 10 + digit_val c in
        if maxUint64 <? n1 then (maxUint64, Some ErrRange)
        else ParseUint_loop s' n1
  end.

Definition ParseUint (s : bytes) : Z * option numError :=
  match s with
  | [] => (0, Some ErrSyntax)
  | _ => ParseUint_loop s 0
  end.

(** [strconv.ParseInt(s, 10, 0)]. *)
Definition ParseInt (s : bytes) : Z * option numError :=
  match s with
  | [] => (0, Some ErrSyntax)
  | c :: s' =>
      let neg := Byte.eqb c "-"%byte in
      let body := if Byte.eqb c "+"%byte || neg then s' else s in
      match ParseUint body with
      | (_, Some ErrSyntax) => (0, Some ErrSyntax)
      | (un, _) =>
          let cutoff := 9223372036854775808 in
          if negb neg && (cutoff <=? un) then (cutoff - 1, Some ErrRange)
          else if neg && (cutoff <? un) then (- cutoff, Some ErrRange)
          else
            let n := wrap64 un in
            (if neg then wrap64 (- n) else n, None)
      end
  end.

(** [strconv.Atoi]: its fast path for short inputs computes what [ParseInt]
    computes on them, so one definition serves. *)
Definition Atoi (s : bytes) : Z * option numError := ParseInt s.

(** [strconv.Itoa] and the verb [%d] on an [int]. *)
Definition digit_byte (d : Z) : byte :=
  match Byte.of_N (Z.to_N (48 + d)) with
  | Some b => b
  | None => "0"%byte
  end.

Fixpoint utoa_fuel (fuel : nat) (n : Z) (acc : bytes) : bytes :=
  match fuel with
  | O => acc
  | S f =>
      let acc' := digit_byte (n mod 10) :: acc in
      if n <? 10 then acc' else utoa_fuel f (n / 10) acc'
  end.

Definition utoa (n : Z) : bytes := utoa_fuel (S (Z.to_nat (Z.log2 n))) n [].

Definition Itoa (n : Z) : bytes :=
  if n <? 0 then "-"%byte :: utoa (- n) else utoa n.

(** ** bufio.Reader *)

Definition stream := bytes.

Definition defaultBufSize : nat := 4096.

Inductive sliceError : Type := SliceEOF | SliceBufferFull.

(** [ReadSlice('\n')]: the bytes up to and including the first newline, when
    it lies within one buffer; a full buffer without a newline is handed out
    with [ErrBufferFull]; at the end of the stream what is left comes with
    [io.EOF]. *)
Fixpoint ReadSlice_room (room : nat) (s : stream) : bytes * option sliceError * stream :=
  match room with
  | O => ([], Some SliceBufferFull, s)
  | S room' =>
      match s with
      | [] => ([], Some SliceEOF, [])
      | c :: s' =>
          if Byte.eqb c LF then ([c], None, s')
          else
            let '(line, err, rest) := ReadSlice_room room' s' in
            (c :: line, err, rest)
      end
  end.

Definition ReadSlice (s : stream) : bytes * option sliceError * stream :=
  ReadSlice_room defaultBufSize s.

(** The line without its last [n] bytes. *)
Definition drop_last (n : nat) (l : bytes) : bytes := firstn (length l - n)%nat l.

Definition ends_with (b : byte) (l : bytes) : bool :=
  match rev l with
  | c :: _ => Byte.eqb c b
  | [] => false
  end.

(** [ReadLine]: line, isPrefix, err, and the reader afterwards. *)
Definition ReadLine (s : stream) : bytes * bool * option error * stream :=
  let '(line, err, rest) := ReadSlice s in
  match err with
  | Some SliceBufferFull =>
      if ends_with CR line
      then (drop_last 1 line, true, None, CR :: rest)
      else (line, true, None, rest)
  | _ =>
      match line with
      | [] => ([], false, match err with Some _ => Some EOF | None => None end, rest)
      | _ =>
          if ends_with LF line then
            if ends_with CR (drop_last 1 line)
            then (drop_last 2 line, false, None, rest)
            else (drop_last 1 line, false, None, rest)
          else (line, false, None, rest)
      end
  end.

Definition ReadByte (s : stream) : byte * option error * stream :=
  match s with
  | [] => (x00, Some EOF, [])
  | c :: s' => (c, None, s')
  end.

(** [io.ReadAtLeast(r, buf, min)] with [len(buf) = min = n], [0 < n]: the
    bytes read, the error, the reader afterwards. *)
Definition ReadAtLeast (s : stream) (n : Z) : bytes * option error * stream :=
  if n <=? Z.of_nat (length s) then
    (firstn (Z.to_nat n) s, None, skipn (Z.to_nat n) s)
  else
    match s with
    | [] => ([], Some EOF, [])
    | _ => (s, Some ErrUnexpectedEOF, [])
    end.

(** ** protocal.go: the value model *)

Definition RType := byte.

Definition TypeSimpleString : RType := "+"%byte.
Definition TypeError : RType := "-"%byte.
Definition TypeInt : RType := ":"%byte.
Definition TypeBulkString : RType := "$"%byte.
Definition TypeArray : RType := "*"%byte.

(** [Val any]: string, int, [[]*TypedVal] or nil.  A slot of the slice holds
    a value, not a possibly nil pointer: [ReadValue] stores in a slot only
    what came back with a nil error, and that pointer is never nil. *)
Inductive any : Type :=
| VNil
| VString (s : bytes)
| VInt (n : Z)
| VSlice (l : list TypedVal)
with TypedVal : Type :=
| mkTypedVal (Type_ : RType) (Val : any).

Definition Type_ (v : TypedVal) : RType := match v with mkTypedVal t _ => t end.
Definition Val (v : TypedVal) : any := match v with mkTypedVal _ a => a end.

(** The zero value [&TypedVal{}]. *)
Definition zeroTypedVal : TypedVal := mkTypedVal x00 VNil.

(** What [ReadValue] returns: [res], [err], and the reader afterwards. *)
Definition readResult : Type := option TypedVal * option error * stream.

(** ** The runtime: making a slice

    [make] of a slice goes through [makeslice] of the runtime.  A length
    that is negative, or whose size in bytes (the length times the size of
    an element) is above [maxAlloc], is refused with the panic [len out of
    range].  A size of 0 takes no memory.  Any other size is asked of the
    allocator, which hands out the memory or ends the process with the fatal
    error [out of memory]; which sizes it hands out depends on the machine
    and is the field of [Runtime]. *)

Class Runtime : Type := mkRuntime {
  grants : Z -> bool
}.

(** [maxAlloc] of the runtime where addresses of the heap have 48 bits, as
    they have on the platforms with a 64-bit [int]: [1 << 48]. *)
Definition maxAlloc : Z := 281474976710656.

(** The machine of the examples: its allocator hands out up to a gibibyte
    at a time. *)
Definition roomy : Runtime := mkRuntime (fun size => size <=? 1073741824).

Section Machine.

Context {R : Runtime}.

Definition make (elemsize len : Z) : outcome unit :=
  if (len <? 0) || (maxAlloc <? elemsize * len) then Panic PanicMakeSlice
  else if (elemsize * len =? 0) || grants (elemsize * len) then Ret tt
  else Panic PanicFatal.

(** The loop [for i := 0; i < count; i++] of the array case, over the reader
    [rd] of one element; [acc] holds the slots filled so far, last first.
    [inl]: every slot filled; [inr]: the [return nil, err] of the loop.  The
    branch for a nil element with a nil error is never taken
    ([ReadValue_res_or_err]). *)
Fixpoint read_elems (rd : stream -> outcome readResult) (n : nat)
    (acc : list TypedVal) (s : stream)
  : outcome ((list TypedVal + error) * stream) :=
  match n with
  | O => Ret (inl (rev acc), s)
  | S n' =>
      '(v, err, s') <- rd s ;;
      match err, v with
      | Some e, _ => Ret (inr e, s')
      | None, Some v => read_elems rd n' (v :: acc) s'
      | None, None => Panic PanicNilPointer
      end
  end.

(** The body of [ReadValue]; the recursive call of the array case goes
    through the parameter [ReadValue].  The cases of the simple string and
    of the error have the same body and share a branch.  An element of
    [[]byte] takes one byte, an element of [[]*TypedVal] the eight bytes of
    a pointer. *)
Definition ReadValue_body (ReadValue : stream -> outcome readResult)
    (bufReader : stream) : outcome readResult :=
  let '(typ, err, s1) := ReadByte bufReader in
  match err with
  | Some _ => Ret (Some zeroTypedVal, err, s1)
  | None =>
      if Byte.eqb typ TypeSimpleString || Byte.eqb typ TypeError then
        let '(result, _, err, s2) := ReadLine s1 in
        Ret (Some (mkTypedVal typ (VString result)), err, s2)
      else if Byte.eqb typ TypeInt then
        let '(result, _, err, s2) := ReadLine s1 in
        Ret (Some (mkTypedVal typ (VInt (fst (Atoi result)))), err, s2)
      else if Byte.eqb typ TypeBulkString then
        let '(result, _, err, s2) := ReadLine s1 in
        let length := fst (Atoi result) in
        if length =? -1 then
          Ret (Some (mkTypedVal typ VNil), err, s2)
        else if length =? 0 then
          let '(_, _, err, s3) := ReadLine s2 in
          Ret (Some (mkTypedVal typ (VString [])), err, s3)
        else
          _ <- make 1 length ;;
          let '(result, err, s3) := ReadAtLeast s2 length in
          match err with
          | Some _ => Ret (Some (mkTypedVal typ VNil), err, s3)
          | None =>
              let '(_, _, err, s4) := ReadLine s3 in
              Ret (Some (mkTypedVal typ (VString result)), err, s4)
          end
      else if Byte.eqb typ TypeArray then
        let '(result, _, err, s2) := ReadLine s1 in
        let count := fst (Atoi result) in
        _ <- make 8 count ;;
        '(r, s3) <- read_elems ReadValue (Z.to_nat count) [] s2 ;;
        match r with
        | inr e => Ret (None, Some e, s3)
        | inl res0 => Ret (Some (mkTypedVal typ (VSlice res0)), err, s3)
        end
      else
        Ret (Some (mkTypedVal typ VNil), Some (ErrUnknownType typ), s1)
  end.

(** [ReadValue], with [fuel] bounding the nesting depth of the recursion. *)
Fixpoint ReadValue_fuel (fuel : nat) (bufReader : stream) : outcome readResult :=
  match fuel with
  | O => NoFuel
  | S fuel' => ReadValue_body (ReadValue_fuel fuel') bufReader
  end.

(** Every level of nesting reads its type byte first, so the length of the
    stream bounds the depth: [ReadValue_unfold], [ReadValue_total]. *)
Definition ReadValue (bufReader : stream) : outcome readResult :=
  ReadValue_fuel (S (length bufReader)) bufReader.

(** The type bytes that [ReadValue] has a case for. *)
Definition known_type (t : RType) : bool :=
  Byte.eqb t TypeSimpleString || Byte.eqb t TypeError || Byte.eqb t TypeInt ||
  Byte.eqb t TypeBulkString || Byte.eqb t TypeArray.

(** [decodes k s l s']: [k] calls of [ReadValue] in a row, from [s], return
    the values [l] with nil errors and leave the reader at [s']. *)
Inductive decodes : nat -> stream -> list TypedVal -> stream -> Prop :=
| decodes_nil (s : stream) : decodes 0 s [] s
| decodes_cons (k : nat) (s s1 s2 : stream) (v : TypedVal) (l : list TypedVal) :
    ReadValue s = Ret (Some v, None, s1) ->
    decodes k s1 l s2 ->
    decodes (S k) s (v :: l) s2.

(** [unknown_at s t s']: reading a value from [s] meets the byte [t], which
    has no case, where a value is to begin: at [s] itself, or, when [s]
    begins an array whose slice is made, where the next element is to begin
    after the elements before it have decoded, or in the same way inside
    that element.  [s'] is the stream behind [t]. *)
Inductive unknown_at : stream -> RType -> stream -> Prop :=
| unknown_here (t : RType) (rest : stream) :
    known_type t = false ->
    unknown_at (t :: rest) t rest
| unknown_nested (s1 s2 s3 s' : stream) (line : bytes) (pre : bool) (e1 : option error)
    (k : nat) (l : list TypedVal) (t : RType) :
    ReadLine s1 = (line, pre, e1, s2) ->
    make 8 (fst (Atoi line)) = Ret tt ->
    decodes k s2 l s3 ->
    Z.of_nat k < fst (Atoi line) ->
    unknown_at s3 t s' ->
    unknown_at (TypeArray :: s1) t s'.

(** ** The wire grammar, from the side of the peer

    The encoding of a value tree as the specification gives it: a type byte,
    a line, and for bulk strings and arrays the length in decimal, with -1
    for the null marker. *)
Fixpoint encode (v : TypedVal) : bytes :=
  match v with
  | mkTypedVal typ val =>
      typ ::
      match val with
      | VNil => lit "-1" ++ CRLF
      | VString s =>
          if Byte.eqb typ TypeBulkString
          then Itoa (Z.of_nat (length s)) ++ CRLF ++ s ++ CRLF
          else s ++ CRLF
      | VInt n => Itoa n ++ CRLF
      | VSlice l =>
          Itoa (Z.of_nat (length l)) ++ CRLF ++
          (fix each (l : list TypedVal) : bytes :=
             match l with
             | [] => []
             | v :: l' => encode v ++ each l'
             end) l
      end
  end.

(** The trees of the data model other than the null array: each kind with
    a payload of its shape, lines without a newline that fit the buffer of
    the reader with their terminator, and lengths for which the runtime
    makes the slice: the size is within the ceiling and the allocator grants
    it. *)
Inductive well_shaped : TypedVal -> Prop :=
| shaped_simple (s : bytes) :
    ~ In LF s -> (length s + 2 <= defaultBufSize)%nat ->
    well_shaped (mkTypedVal TypeSimpleString (VString s))
| shaped_error (s : bytes) :
    ~ In LF s -> (length s + 2 <= defaultBufSize)%nat ->
    well_shaped (mkTypedVal TypeError (VString s))
| shaped_int (n : Z) :
    minInt <= n <= maxInt ->
    well_shaped (mkTypedVal TypeInt (VInt n))
| shaped_null_bulk :
    well_shaped (mkTypedVal TypeBulkString VNil)
| shaped_bulk (s : bytes) :
    make 1 (Z.of_nat (length s)) = Ret tt ->
    well_shaped (mkTypedVal TypeBulkString (VString s))
| shaped_array (l : list TypedVal) :
    make 8 (Z.of_nat (length l)) = Ret tt ->
    (forall v, In v l -> well_shaped v) ->
    well_shaped (mkTypedVal TypeArray (VSlice l)).

(** ** fmt, strconv and strings: what the printer and the session call

    The library treats the bytes below 0x80 by fixed rules, which are written
    out here.  Where it decodes UTF-8 and consults the Unicode tables, and
    where [fmt] renders an operand whose dynamic type is not the one the verb
    expects, the result is a field of [GoText]: every statement holds for all
    values of these fields. *)

Record GoText : Type := mkGoText {
  (** [strconv.Quote] at a byte [>= 0x80]: the text for the rune that starts
      there, and the width of that rune *)
  quoteRune : bytes -> bytes * nat;
  (** [fmt] under the verb, for an operand of another dynamic type than the
      one that the verb expects *)
  fmtOther : byte -> any -> bytes;
  (** [strings.Fields] on an input that holds a byte [>= 0x80] *)
  fieldsUnicode : bytes -> list bytes;
  (** [strings.EqualFold] from the first position where a side holds a byte
      [>= 0x80] *)
  equalFoldUnicode : bytes -> bytes -> bool
}.

(** An instance for the examples.  The examples are ASCII text with
    payloads of the expected types, on which no field is consulted. *)
Definition asciiText : GoText :=
  mkGoText (fun _ => (lit "?", 1%nat)) (fun _ _ => lit "%!") (fun s => [s])
           (fun a b => bytes_eqb a b).

Definition lowerhex (n : Z) : byte := nth (Z.to_nat n) (lit "0123456789abcdef") "0"%byte.

(** [appendEscapedRune] for a rune below 0x80, quoting with the double quote. *)
Definition quoteASCII (c : byte) : bytes :=
  if Byte.eqb c DQUOTE || Byte.eqb c "\"%byte then ["\"%byte; c]
  else if (32 <=? code c) && (code c <? 127) then [c]
  else if code c =? 7 then lit "\a"
  else if code c =? 8 then lit "\b"
  else if code c =? 12 then lit "\f"
  else if code c =? 10 then lit "\n"
  else if code c =? 13 then lit "\r"
  else if code c =? 9 then lit "\t"
  else if code c =? 11 then lit "\v"
  else lit "\x" ++ [lowerhex (code c / 16); lowerhex (code c mod 16)].

(** The loop of [strconv.Quote]; [skip] counts the bytes of a rune that are
    still to be stepped over. *)
Fixpoint Quote_loop (T : GoText) (skip : nat) (s : bytes) : bytes :=
  match s with
  | [] => []
  | c :: s' =>
      match skip with
      | S k => Quote_loop T k s'
      | O =>
          if code c <? 128 then quoteASCII c ++ Quote_loop T 0 s'
          else let '(out, width) := quoteRune T s in out ++ Quote_loop T (width - 1) s'
      end
  end.

Definition Quote (T : GoText) (s : bytes) : bytes :=
  DQUOTE :: Quote_loop T 0 s ++ [DQUOTE].

(** The verbs [%s], [%q] and [%d] on a value of type [any]. *)
Definition fmt_s (T : GoText) (v : any) : bytes :=
  match v with VString s => s | _ => fmtOther T "s"%byte v end.

Definition fmt_q (T : GoText) (v : any) : bytes :=
  match v with VString s => Quote T s | _ => fmtOther T "q"%byte v end.

Definition fmt_d (T : GoText) (v : any) : bytes :=
  match v with VInt n => Itoa n | _ => fmtOther T "d"%byte v end.

(** [unicode.IsSpace] below 0x80 *)
Definition asciiSpace (c : byte) : bool :=
  (code c =? 9) || (code c =? 10) || (code c =? 11) || (code c =? 12) ||
  (code c =? 13) || (code c =? 32).

(** The fields of an all-ASCII input; [cur] is the field being read, last
    byte first. *)
Fixpoint fieldsASCII (cur : bytes) (s : bytes) : list bytes :=
  match s with
  | [] => match cur with [] => [] | _ => [rev cur] end
  | c :: s' =>
      if asciiSpace c
      then match cur with [] => fieldsASCII [] s' | _ => rev cur :: fieldsASCII [] s' end
      else fieldsASCII (c :: cur) s'
  end.

Definition isASCII (s : bytes) : bool := forallb (fun c => code c <? 128) s.

Definition Fields (T : GoText) (s : bytes) : list bytes :=
  if isASCII s then fieldsASCII [] s else fieldsUnicode T s.

Definition lower (c : byte) : Z :=
  if (65 <=? code c) && (code c <=? 90) then code c + 32 else code c.

Fixpoint EqualFold (T : GoText) (s t : bytes) : bool :=
  match s, t with
  | [], [] => true
  | a :: s', b :: t' =>
      if (128 <=? code a) || (128 <=? code b) then equalFoldUnicode T s t
      else if lower a =? lower b then EqualFold T s' t'
      else false
  | _, _ => false
  end.

(** ** protocal.go: PrintVal

    The bytes written to [writer], in order; the results of the writes are
    dropped, as in the source.  A panic ends the process: what had been
    written before it is not kept. *)

Fixpoint PrintVal (T : GoText) (res : TypedVal) (raw : bool) : outcome bytes :=
  match res with
  | mkTypedVal typ val =>
      match val with
      | VNil => Ret (if raw then [LF] else lit "(nil)" ++ [LF])
      | _ =>
          if Byte.eqb typ TypeSimpleString then
            Ret (fmt_s T val ++ [LF])
          else if Byte.eqb typ TypeBulkString then
            Ret (if raw then fmt_s T val ++ [LF] else fmt_q T val ++ [LF])
          else if Byte.eqb typ TypeError then
            Ret (if raw then fmt_s T val ++ [LF] else lit "(error) " ++ fmt_s T val ++ [LF])
          else if Byte.eqb typ TypeInt then
            Ret (if raw then fmt_d T val ++ [LF] else lit "(integer) " ++ fmt_d T val ++ [LF])
          else if Byte.eqb typ TypeArray then
            match val with
            | VSlice l =>
                (fix range (l : list TypedVal) (i : Z) : outcome bytes :=
                   match l with
                   | [] => Ret []
                   | v :: l' =>
                       out <- PrintVal T v raw ;;
                       outs <- range l' (i + 1) ;;
                       Ret ((if raw then [] else Itoa (i + 1) ++ lit ") ") ++ out ++ outs)
                   end) l 0
            | _ => Panic PanicTypeAssertion
            end
          else Ret []
      end
  end.

(** The rendering of an array in the words of the specification: the
    renderings [outs] of the elements, one after the other, each behind its
    ordinal number (counted from [i + 1]) and [") "] unless the mode is raw. *)
Fixpoint numbered (raw : bool) (i : Z) (outs : list bytes) : bytes :=
  match outs with
  | [] => []
  | out :: rest =>
      (if raw then [] else Itoa (i + 1) ++ lit ") ") ++ out ++ numbered raw (i + 1) rest
  end.

(** ** main.go: the arguments

    Only the fields that the session and the runners read.  [IntervalNs]
    stands for [time.Duration(args.Interval*float64(time.Second))], the value
    that [singleCmd] computes from the floating-point field. *)

Record Args : Type := mkArgs {
  Hostname : bytes;
  Port : Z;
  Password : bytes;
  User : bytes;
  Pass : bytes;
  Askpass : bool;
  Repeat : Z;
  IntervalNs : Z;
  Db : Z;
  Tls : bool;
  Raw : bool;
  NoRaw : bool;
  Pattern : bytes;
  Count : Z
}.

Definition set_Db (a : Args) (db : Z) : Args :=
  mkArgs (Hostname a) (Port a) (Password a) (User a) (Pass a) (Askpass a)
         (Repeat a) (IntervalNs a) db (Tls a) (Raw a) (NoRaw a) (Pattern a) (Count a).

(** ** connector.go: the connection and its surroundings *)

(** What the process does to the outside, in order. *)
Inductive event : Type :=
| EvWrite (data : bytes)   (* conn.Write(data) *)
| EvOut (text : bytes)     (* a write to os.Stdout, to which [writer] points *)
| EvSleep (d : Z)          (* time.Sleep(d) *)
| EvClose.                 (* conn.Close() *)

(** A socket: the bytes that the peer delivers, and the results of the
    successive calls of [Write] (a nil error once the list is used up). *)
Record Conn : Type := mkConn {
  incoming : stream;
  writeResults : list (option error)
}.

(** What the surroundings answer. *)
Record Env : Type := mkEnv {
  dial : error + Conn;               (* net.Dial or tls.Dial *)
  tlsConfig : option panic;          (* parseTlsConfig: how it stops the process, if it does *)
  REDISCLI_AUTH : bytes;             (* os.Getenv("REDISCLI_AUTH") *)
  readPassword : error + bytes;      (* term.ReadPassword *)
  stdoutIsTerminal : bool            (* term.IsTerminal(os.Stdout) *)
}.

(** [Connection], with [args] the one [Args] value that the pointer shares
    with the runners, and with the trace of the events so far (latest
    first). *)
Record Connection : Type := mkConnection {
  args : Args;
  conn : option Conn;
  bufReader : option stream;
  connected : bool;
  istty : bool;
  trace : list event
}.

Definition emit (ev : event) (c : Connection) : Connection :=
  mkConnection (args c) (conn c) (bufReader c) (connected c) (istty c) (ev :: trace c).

Definition set_args (a : Args) (c : Connection) : Connection :=
  mkConnection a (conn c) (bufReader c) (connected c) (istty c) (trace c).

Definition set_bufReader (r : option stream) (c : Connection) : Connection :=
  mkConnection (args c) (conn c) r (connected c) (istty c) (trace c).

Definition set_conn (k : option Conn) (c : Connection) : Connection :=
  mkConnection (args c) k (bufReader c) (connected c) (istty c) (trace c).

Definition set_connected (b : bool) (c : Connection) : Connection :=
  mkConnection (args c) (conn c) (bufReader c) b (istty c) (trace c).

(** The events in the order in which they happened. *)
Definition history (c : Connection) : list event := rev (trace c).

(** The text on os.Stdout. *)
Definition stdout (c : Connection) : bytes :=
  flat_map (fun ev => match ev with EvOut t => t | _ => [] end) (history c).

(** The data handed to the socket, call by call. *)
Definition writes (c : Connection) : list bytes :=
  flat_map (fun ev => match ev with EvWrite d => [d] | _ => [] end) (history c).

Definition NewConnection (E : Env) (a : Args) (tr : list event) : Connection :=
  mkConnection a None None false (stdoutIsTerminal E) tr.

Definition Close (c : Connection) : Connection :=
  let c1 := match conn c with Some _ => emit EvClose c | None => c end in
  set_connected false (set_bufReader None c1).

(** [c.conn.Write([]byte(input + "\r\n"))] *)
Definition Send (input : bytes) (c : Connection) : outcome (Connection * option error) :=
  match conn c with
  | None => Panic PanicNilPointer
  | Some k =>
      let c1 := emit (EvWrite (input ++ CRLF)) c in
      match writeResults k with
      | [] => Ret (c1, None)
      | r :: rs => Ret (set_conn (Some (mkConn (incoming k) rs)) c1, r)
      end
  end.

Definition ReceiveValue (c : Connection)
  : outcome (Connection * option TypedVal * option error) :=
  match bufReader c with
  | None => Panic PanicNilPointer
  | Some s =>
      '(tv, err, s') <- ReadValue s ;;
      Ret (set_bufReader (Some s') c, tv, err)
  end.

Definition PrintRawString (str : bytes) (c : Connection) : Connection :=
  emit (EvOut str) c.

Definition Exec (input : bytes) (c : Connection)
  : outcome (Connection * option TypedVal * option error) :=
  '(c1, err) <- Send input c ;;
  match err with
  | Some e => Ret (PrintRawString (Error_ e) c1, None, Some e)
  | None =>
      '(c2, tv, err) <- ReceiveValue c1 ;;
      match err with
      | Some e => Ret (PrintRawString (Error_ e) c2, None, Some e)
      | None =>
          match tv with
          | None => Panic PanicNilPointer
          | Some v =>
              if Byte.eqb (Type_ v) TypeError then
                match Val v with
                | VString _ => Ret (c2, Some v, None)
                | _ => Panic PanicTypeAssertion
                end
              else Ret (c2, Some v, None)
          end
      end
  end.

Fixpoint defaults (str : list bytes) : bytes :=
  match str with
  | [] => []
  | s :: rest => match s with [] => defaults rest | _ => s end
  end.

Definition auth (T : GoText) (E : Env) (c : Connection) : outcome (Connection * option error) :=
  '(c1, pass) <-
    (if Askpass (args c) then
       let c1 := emit (EvOut (lit "Please input password: ")) c in
       match readPassword E with
       | inl _ => Panic PanicExplicit
       | inr passBytes => Ret (emit (EvOut [LF]) c1, passBytes)
       end
     else Ret (c, defaults [Pass (args c); Password (args c); REDISCLI_AUTH E])) ;;
  match pass with
  | [] => Ret (c1, None)
  | _ =>
      '(c2, tv, err) <- Exec (lit "AUTH " ++ User (args c1) ++ lit " " ++ pass) c1 ;;
      match err, tv with
      | Some e, _ => Ret (PrintRawString (Error_ e) c2, Some e)
      | None, None => Panic PanicNilPointer
      | None, Some v =>
          if Byte.eqb (Type_ v) TypeError
          then Ret (emit (EvOut (lit "AUTH failed: " ++ fmt_s T (Val v) ++ [LF])) c2, None)
          else Ret (c2, None)
      end
  end.

Definition selectDb (T : GoText) (c : Connection) : outcome (Connection * option error) :=
  if Db (args c) =? 0 then Ret (c, None)
  else
    '(c1, tv, err) <- Exec (lit "SELECT " ++ Itoa (Db (args c))) c ;;
    match err, tv with
    | Some e, _ => Ret (PrintRawString (Error_ e) c1, Some e)
    | None, None => Panic PanicNilPointer
    | None, Some v =>
        if Byte.eqb (Type_ v) TypeError
        then
          let c2 := emit (EvOut (lit "SELECT " ++ Itoa (Db (args c1)) ++ lit " failed: "
                                 ++ fmt_s T (Val v) ++ [LF])) c1 in
          Ret (set_args (set_Db (args c2) 0) c2, None)
        else Ret (c1, None)
    end.

Definition addr (c : Connection) : bytes :=
  Hostname (args c) ++ lit ":" ++ Itoa (Port (args c)).

Definition Connect (T : GoText) (E : Env) (c : Connection)
  : outcome (Connection * option error) :=
  let c0 := Close c in
  _ <- (if Tls (args c0)
        then match tlsConfig E with Some p => Panic p | None => Ret tt end
        else Ret tt) ;;
  match dial E with
  | inl e =>
      Ret (emit (EvOut (lit "Could not connect to Redis at " ++ addr c0 ++ lit ": "
                        ++ Error_ e ++ [LF])) c0, Some e)
  | inr k =>
      let c1 := set_bufReader (Some (incoming k)) (set_conn (Some k) (set_connected true c0)) in
      '(c2, err) <- auth T E c1 ;;
      match err with
      | None => '(c3, _) <- selectDb T c2 ;; Ret (c3, None)
      | Some _ => Ret (c2, None)
      end
  end.

(** The method [PrintVal]: the mode comes from the flags and from the
    terminal test. *)
Definition Connection_PrintVal (T : GoText) (tv : TypedVal) (c : Connection)
  : outcome Connection :=
  out <- PrintVal T tv (if NoRaw (args c) then false else Raw (args c) || negb (istty c)) ;;
  Ret (emit (EvOut out) c).

Definition CliPrefix (c : Connection) : bytes :=
  if negb (connected c) then lit "not connected"
  else if negb (Db (args c) =? 0)
       then addr c ++ lit "[" ++ Itoa (Db (args c)) ++ lit "]"
       else addr c.

(** [isCmd] of main.go *)
Definition isCmd (T : GoText) (input cmd : bytes) : outcome bool :=
  match Fields T input with
  | [] => Panic PanicIndex
  | f :: _ => Ret (EqualFold T f cmd)
  end.

(** The type assertion [v.(string)] *)
Definition assert_string (v : any) : outcome bytes :=
  match v with VString s => Ret s | _ => Panic PanicTypeAssertion end.

Definition ExecPrint (T : GoText) (input : bytes) (c : Connection)
  : outcome (Connection * option error) :=
  '(c1, tv, err) <- Exec input c ;;
  match err, tv with
  | Some e, _ => Ret (c1, Some e)
  | None, None => Panic PanicNilPointer
  | None, Some tv =>
      info <- isCmd T input (lit "info") ;;
      c2 <- (if (info : bool)
             then str <- assert_string (Val tv) ;; Ret (PrintRawString str c1)
             else Connection_PrintVal T tv c1) ;;
      sel <- isCmd T input (lit "select") ;;
      if (sel : bool) then
        str <- assert_string (Val tv) ;;
        if bytes_eqb str (lit "OK") then
          match Fields T input with
          | _ :: arg :: _ => Ret (set_args (set_Db (args c2) (fst (Atoi arg))) c2, None)
          | _ => Panic PanicIndex
          end
        else Ret (c2, None)
      else Ret (c2, None)
  end.

(** ** main.go: the runners *)

Definition exeFunc : Type := Connection -> outcome (Connection * option error).

(** The loop [for i := 0; i < args.Repeat; i++] of [singleCmd]; [fuel]
    bounds the number of rounds. *)
Fixpoint repeat_loop (exe : exeFunc) (fuel : nat) (i dua : Z) (c : Connection)
  : outcome (Connection * option error) :=
  match fuel with
  | O => if i <? Repeat (args c) then NoFuel else Ret (c, None)
  | S fuel' =>
      if i <? Repeat (args c) then
        '(c1, err) <- exe c ;;
        match err with
        | Some e => Ret (c1, Some e)
        | None =>
            let c2 := if (i <? Repeat (args c1) - 1) && (0 <? dua)
                      then emit (EvSleep dua) c1 else c1 in
            repeat_loop exe fuel' (i + 1) dua c2
        end
      else Ret (c, None)
  end.

(** [singleCmd]; [tr] is the trace before the call.  The deferred [Close]
    runs on every return. *)
Definition singleCmd (T : GoText) (E : Env) (a : Args) (tr : list event) (exe : exeFunc)
  : outcome (Connection * option error) :=
  let connection := NewConnection E a tr in
  '(c1, err) <- Connect T E connection ;;
  '(c2, r) <-
    match err with
    | Some e => Ret (c1, Some e)
    | None =>
        if Repeat (args c1) =? 0 then exe c1
        else repeat_loop exe (Z.to_nat (Repeat (args c1))) 0 (IntervalNs (args c1)) c1
    end ;;
  Ret (Close c2, r).

(** The type assertion [v.([]*TypedVal)] and the index expression *)
Definition assert_slice (v : any) : outcome (list TypedVal) :=
  match v with VSlice l => Ret l | _ => Panic PanicTypeAssertion end.

Definition index (l : list TypedVal) (i : nat) : outcome TypedVal :=
  match nth_error l i with Some v => Ret v | None => Panic PanicIndex end.

Fixpoint print_each (T : GoText) (items : list TypedVal) (c : Connection) : outcome Connection :=
  match items with
  | [] => Ret c
  | item :: rest => c1 <- Connection_PrintVal T item c ;; print_each T rest c1
  end.

Definition scan_command (cursor : bytes) (a : Args) : bytes :=
  lit "SCAN " ++ cursor ++ lit " MATCH " ++ Pattern a ++ lit " COUNT " ++ Itoa (Count a).

(** The loop [for { ... }] of [scan]; [fuel] bounds the number of pages. *)
Fixpoint scan_loop (T : GoText) (fuel : nat) (cursor : bytes) (c : Connection)
  : outcome (Connection * option error) :=
  match fuel with
  | O => NoFuel
  | S fuel' =>
      '(c1, tv, err) <- Exec (scan_command cursor (args c)) c ;;
      match err, tv with
      | Some e, _ => Ret (c1, Some e)
      | None, None => Panic PanicNilPointer
      | None, Some tv =>
          top <- assert_slice (Val tv) ;;
          second <- index top 1 ;;
          keys <- assert_slice (Val second) ;;
          c2 <- print_each T keys c1 ;;
          first <- index top 0 ;;
          cursor' <- assert_string (Val first) ;;
          if bytes_eqb cursor' (lit "0") then Ret (c2, None)
          else scan_loop T fuel' cursor' c2
      end
  end.

(** The closure that [scan] hands to [singleCmd].  A page that decodes
    without error takes at least one byte off the stream, so its length
    bounds the number of pages. *)
Definition scan_pages (T : GoText) : exeFunc :=
  fun c => scan_loop T (S (length (match bufReader c with Some s => s | None => [] end)))
                     (lit "0") c.

Definition scan (T : GoText) (E : Env) (a : Args) (tr : list event)
  : outcome (Connection * option error) :=
  singleCmd T E a tr (scan_pages T).

(** ** main.go: the executor of the interactive mode

    [strings.TrimSpace] cuts the blanks below 0x80 off both ends by a fixed
    rule; at the first byte [>= 0x80] that it meets, from the front or from
    the back, it hands over to the trimming that consults the Unicode
    tables, which is a field of [GoTrim]. *)

Record GoTrim : Type := mkGoTrim {
  (** [strings.TrimFunc(s, unicode.IsSpace)] *)
  trimFunc : bytes -> bytes;
  (** [strings.TrimRightFunc(s, unicode.IsSpace)] *)
  trimRightFunc : bytes -> bytes
}.

(** The loop from the back; [r] is [s[start:stop]], last byte first. *)
Fixpoint trim_stop (X : GoTrim) (r : bytes) : bytes :=
  match r with
  | [] => []
  | c :: r' =>
      if 128 <=? code c then trimRightFunc X (rev r)
      else if asciiSpace c then trim_stop X r'
      else rev r
  end.

(** The loop from the front, then the loop from the back. *)
Fixpoint TrimSpace (X : GoTrim) (s : bytes) : bytes :=
  match s with
  | [] => []
  | c :: s' =>
      if 128 <=? code c then trimFunc X s
      else if asciiSpace c then TrimSpace X s'
      else trim_stop X (rev s)
  end.

(** How a call ends: it returns, or the process ends in [os.Exit]. *)
Inductive finish : Type := Returned | Exited (status : Z).

(** [executor], on the connection that the variable [connection] holds. *)
Definition executor (T : GoText) (X : GoTrim) (E : Env) (input : bytes) (c : Connection)
  : outcome (Connection * finish) :=
  '(c1, err) <- (if negb (connected c) then Connect T E c else Ret (c, None)) ;;
  match err with
  | Some _ => Ret (c1, Returned)
  | None =>
      let input := TrimSpace X input in
      match input with
      | [] => Ret (c1, Returned)
      | _ =>
          ex <- isCmd T input (lit "exit") ;;
          leave <- (if (ex : bool) then Ret true else isCmd T input (lit "quit")) ;;
          if (leave : bool) then Ret (c1, Exited 0)
          else
            '(c2, err) <- ExecPrint T input c1 ;;
            match err with
            | Some e => Ret (emit (EvOut (Error_ e ++ [LF])) c2, Returned)
            | None => Ret (c2, Returned)
            end
      end
  end.

(** ** main.go: the command line

    The command line is read by reflection over the struct [Args].  Of each
    field the model keeps what [parseArgs] and [SetValue] consult: the name,
    the kind of its type, and the tags [flag] and [default] (a missing tag
    reads as the empty string, as [Tag.Get] gives it; in the tag the
    default of [-d] and [-D] is written with the escape for the newline). *)

Inductive Kind : Type := KString | KInt | KFloat64 | KBool.

Record StructField : Type := mkStructField {
  Name : bytes;
  FKind : Kind;
  flagTag : bytes;
  defaultTag : bytes
}.

Definition Args_fields : list StructField := [
  mkStructField (lit "Hostname") KString (lit "h") (lit "127.0.0.1");
  mkStructField (lit "Port") KInt (lit "p") (lit "6379");
  mkStructField (lit "Socket") KString (lit "s") [];
  mkStructField (lit "Password") KString (lit "a") [];
  mkStructField (lit "User") KString (lit "user") [];
  mkStructField (lit "Pass") KString (lit "pass") [];
  mkStructField (lit "Askpass") KBool (lit "askpass") [];
  mkStructField (lit "Uri") KString (lit "u") [];
  mkStructField (lit "Repeat") KInt (lit "r") (lit "1");
  mkStructField (lit "Interval") KFloat64 (lit "i") (lit "0");
  mkStructField (lit "Db") KInt (lit "n") (lit "0");
  mkStructField (lit "Resp2") KBool (lit "2") [];
  mkStructField (lit "Resp3") KBool (lit "3") [];
  mkStructField (lit "ReadLastArg") KBool (lit "x") [];
  mkStructField (lit "ReadTagArg") KString (lit "X") [];
  mkStructField (lit "DelimiterBulk") KString (lit "d") [LF];
  mkStructField (lit "DelimiterResponses") KString (lit "D") [LF];
  mkStructField (lit "ClusterMode") KBool (lit "c") [];
  mkStructField (lit "ExitError") KBool (lit "e") [];
  mkStructField (lit "Tls") KBool (lit "tls") [];
  mkStructField (lit "Sni") KString (lit "sni") [];
  mkStructField (lit "Cacert") KString (lit "cacert") [];
  mkStructField (lit "Cacertdir") KString (lit "cacertdir") [];
  mkStructField (lit "Insecure") KBool (lit "insecure") [];
  mkStructField (lit "Cert") KString (lit "cert") [];
  mkStructField (lit "Key") KString (lit "key") [];
  mkStructField (lit "TlsCiphers") KString (lit "tls-ciphers") [];
  mkStructField (lit "TlsCiphersuites") KString (lit "tls-ciphersuites") [];
  mkStructField (lit "Raw") KBool (lit "raw") [];
  mkStructField (lit "NoRaw") KBool (lit "no-raw") [];
  mkStructField (lit "QuotedInput") KBool (lit "quoted-input") [];
  mkStructField (lit "Csv") KBool (lit "csv") [];
  mkStructField (lit "Json") KBool (lit "json") [];
  mkStructField (lit "QuotedJson") KBool (lit "quoted-json") [];
  mkStructField (lit "ShowPushes") KString (lit "show-pushes") (lit "yes");
  mkStructField (lit "Stat") KBool (lit "stat") [];
  mkStructField (lit "Latency") KBool (lit "latency") [];
  mkStructField (lit "LatencyHistory") KBool (lit "latency-history") [];
  mkStructField (lit "LatencyDist") KBool (lit "latency-dist") [];
  mkStructField (lit "LruTest") KInt (lit "lru-test") (lit "0");
  mkStructField (lit "Replica") KBool (lit "replica") [];
  mkStructField (lit "Rdb") KString (lit "rdb") [];
  mkStructField (lit "FunctionsRdb") KString (lit "functions-rdb") [];
  mkStructField (lit "Pipe") KBool (lit "pipe") [];
  mkStructField (lit "PipeTimeout") KInt (lit "pipe-timeout") (lit "30");
  mkStructField (lit "Bigkeys") KBool (lit "bigkeys") [];
  mkStructField (lit "Memkeys") KBool (lit "memkeys") [];
  mkStructField (lit "MemkeysSamples") KInt (lit "memkeys-samples") (lit "0");
  mkStructField (lit "Hotkeys") KBool (lit "hotkeys") [];
  mkStructField (lit "Scan") KBool (lit "scan") [];
  mkStructField (lit "Pattern") KString (lit "pattern") (lit "*");
  mkStructField (lit "Count") KInt (lit "count") (lit "10");
  mkStructField (lit "QuotedPattern") KString (lit "quoted-pattern") [];
  mkStructField (lit "IntrinsicLatency") KInt (lit "intrinsic-latency") (lit "0");
  mkStructField (lit "Eval") KString (lit "eval") [];
  mkStructField (lit "Ldb") KBool (lit "ldb") [];
  mkStructField (lit "LdbSyncMode") KBool (lit "ldb-sync-mode") [];
  mkStructField (lit "Cluster") KString (lit "cluster") [];
  mkStructField (lit "Verbose") KBool (lit "verbose") [];
  mkStructField (lit "NoAuthWarning") KBool (lit "no-auth-warning") [];
  mkStructField (lit "Help") KBool (lit "help") [];
  mkStructField (lit "Version") KBool (lit "version") []
].

(** A [float64]: the zero value, or what [strconv.ParseFloat(text, 64)]
    returns as its first result. *)
Inductive float64 : Type := FZero | ParseFloat (text : bytes).

(** What a field holds. *)
Inductive Value : Type :=
| StringOf (s : bytes)
| IntOf (n : Z)
| FloatOf (x : float64)
| BoolOf (b : bool).

Definition zeroValue (k : Kind) : Value :=
  match k with
  | KString => StringOf []
  | KInt => IntOf 0
  | KFloat64 => FloatOf FZero
  | KBool => BoolOf false
  end.

(** The struct [fv]: a field, the value that the field of [args] holds, and
    whether it has been set. *)
Record fv : Type := mkFv {
  fv_f : StructField;
  fv_v : Value;
  fv_set : bool
}.

Definition SetValue (fv0 : fv) (str : bytes) : fv :=
  mkFv (fv_f fv0)
       (match FKind (fv_f fv0) with
        | KString => StringOf str
        | KInt => IntOf (fst (Atoi str))
        | KFloat64 => FloatOf (ParseFloat str)
        | KBool => BoolOf true
        end)
       true.

(** The map [fieldsMap], from the flag to the [fv]. *)
Definition FieldsMap : Type := list (bytes * fv).

Fixpoint lookup (key : bytes) (m : FieldsMap) : option fv :=
  match m with
  | [] => None
  | (k, x) :: m' => if bytes_eqb k key then Some x else lookup key m'
  end.

(** [m[key] = x] *)
Fixpoint store (key : bytes) (x : fv) (m : FieldsMap) : FieldsMap :=
  match m with
  | [] => [(key, x)]
  | (k, y) :: m' => if bytes_eqb k key then (k, x) :: m' else (k, y) :: store key x m'
  end.

(** The map that [forEachExportedField] fills, over a fresh [Args]. *)
Definition fieldsMap : FieldsMap :=
  fold_left (fun m fld => store (flagTag fld) (mkFv fld (zeroValue (FKind fld)) false) m)
            Args_fields [].

Definition HasPrefix (s prefix : bytes) : bool :=
  bytes_eqb (firstn (length prefix) s) prefix.

(** [strings.TrimLeft(s, cutset)] for a cutset of the one byte [c]. *)
Fixpoint TrimLeft (s : bytes) (c : byte) : bytes :=
  match s with
  | [] => []
  | b :: s' => if Byte.eqb b c then TrimLeft s' c else s
  end.

(** How [parseArgs] ends: it returns the rest of the arguments, the fields
    set, or the process ends in [os.Exit] after some text on the output. *)
Inductive parsed : Type :=
| Parsed (m : FieldsMap) (rest : list bytes)
| Stopped (out : bytes) (status : Z).

Definition unrecognized (a : bytes) : bytes :=
  lit "Unrecognized option or bad number of args for: '" ++ a ++ lit "'" ++ [LF].

(** The loop over [os.Args\[i\]]; [usage] is the text that [printHelp]
    prints. *)
Fixpoint parse_options (usage : bytes) (m : FieldsMap) (argv : list bytes) : parsed :=
  match argv with
  | [] => Parsed m []
  | a :: more =>
      if HasPrefix a (lit "-") then
        let key := TrimLeft a "-"%byte in
        match lookup key m with
        | Some x =>
            match FKind (fv_f x) with
            | KBool => parse_options usage (store key (SetValue x []) m) more
            | _ =>
                match more with
                | value :: more' => parse_options usage (store key (SetValue x value) m) more'
                | [] => Stopped (usage ++ [LF]) 0
                end
            end
        | None => Stopped (unrecognized a) 0
        end
      else Parsed m (a :: more)
  end.

(** The loop that gives the fields not set their defaults. *)
Definition set_defaults (m : FieldsMap) : FieldsMap :=
  map (fun '(k, x) =>
         (k, if fv_set x then x
             else match defaultTag (fv_f x) with
                  | [] => x
                  | defVal => SetValue x defVal
                  end)) m.

Definition parseArgs (usage : bytes) (osArgs : list bytes) : parsed :=
  match parse_options usage fieldsMap (tl osArgs) with
  | Parsed m rest => Parsed (set_defaults m) rest
  | Stopped out status => Stopped out status
  end.

(** The fields of [args], read by name. *)
Fixpoint field (name : bytes) (m : FieldsMap) : option Value :=
  match m with
  | [] => None
  | (_, x) :: m' => if bytes_eqb (Name (fv_f x)) name then Some (fv_v x) else field name m'
  end.

Definition string_field (name : bytes) (m : FieldsMap) : bytes :=
  match field name m with Some (StringOf s) => s | _ => [] end.

Definition int_field (name : bytes) (m : FieldsMap) : Z :=
  match field name m with Some (IntOf n) => n | _ => 0 end.

Definition bool_field (name : bytes) (m : FieldsMap) : bool :=
  match field name m with Some (BoolOf b) => b | _ => false end.

Definition float_field (name : bytes) (m : FieldsMap) : float64 :=
  match field name m with Some (FloatOf x) => x | _ => FZero end.

(** The record [Args] of the session; [duration] stands for
    [time.Duration(x*float64(time.Second))]. *)
Definition Args_of (duration : float64 -> Z) (m : FieldsMap) : Args :=
  mkArgs (string_field (lit "Hostname") m) (int_field (lit "Port") m) (string_field (lit "Password") m)
         (string_field (lit "User") m) (string_field (lit "Pass") m) (bool_field (lit "Askpass") m)
         (int_field (lit "Repeat") m) (duration (float_field (lit "Interval") m)) (int_field (lit "Db") m)
         (bool_field (lit "Tls") m) (bool_field (lit "Raw") m) (bool_field (lit "NoRaw") m)
         (string_field (lit "Pattern") m) (int_field (lit "Count") m).

(** [strings.Join] *)
Fixpoint Join (elems : list bytes) (sep : bytes) : bytes :=
  match elems with
  | [] => []
  | a :: rest => match rest with [] => a | _ => a ++ sep ++ Join rest sep end
  end.

(** [main].  [interactive] stands for the prompt of the interactive mode,
    which is not part of the model: it gets the arguments and the trace, and
    ends as the session ends. *)
Definition main (T : GoText) (E : Env) (duration : float64 -> Z) (usage : bytes)
    (interactive : Args -> list event -> outcome (list event * finish))
    (osArgs : list bytes) (tr : list event) : outcome (list event * finish) :=
  match parseArgs usage osArgs with
  | Stopped out status => Ret (EvOut out :: tr, Exited status)
  | Parsed m restArgs =>
      let a := Args_of duration m in
      if bool_field (lit "Help") m then Ret (EvOut (usage ++ [LF]) :: tr, Returned)
      else if bool_field (lit "Scan") m then
        '(c, err) <- scan T E a tr ;;
        Ret (trace c, match err with
                      | Some _ => if bool_field (lit "ExitError") m then Exited 1 else Returned
                      | None => Returned
                      end)
      else if (0 <? length restArgs)%nat then
        '(c, err) <- singleCmd T E a tr (fun connection =>
                       ExecPrint T (Join restArgs (lit " ")) connection) ;;
        Ret (trace c, match err with
                      | Some _ => if bool_field (lit "ExitError") m then Exited 1 else Returned
                      | None => Returned
                      end)
      else interactive a tr
  end.

(** ** Repeat-with-interval in the words of the specification

    [n] executions, with a pause between two consecutive ones and none after
    the last; the first failure ends the sequence with its error. *)

Inductive step : Type := Run | Pause.

Definition step_eq_dec (a b : step) : {a = b} + {a <> b}.
Proof. decide equality. Defined.

Fixpoint schedule (n : nat) (pause : bool) : list step :=
  match n with
  | O => []
  | S n' =>
      match n' with
      | O => [Run]
      | S _ => Run :: (if pause then [Pause] else []) ++ schedule n' pause
      end
  end.

Fixpoint follow (exe : exeFunc) (dua : Z) (steps : list step) (c : Connection)
  : outcome (Connection * option error) :=
  match steps with
  | [] => Ret (c, None)
  | Run :: rest =>
      '(c1, err) <- exe c ;;
      match err with
      | Some e => Ret (c1, Some e)
      | None => follow exe dua rest c1
      end
  | Pause :: rest => follow exe dua rest (emit (EvSleep dua) c)
  end.

(** No closure that main.go hands to [singleCmd] assigns [args.Repeat]. *)
Definition keeps_Repeat (exe : exeFunc) : Prop :=
  forall c c' err, exe c = Ret (c', err) -> Repeat (args c') = Repeat (args c).

(** ** SCAN pagination in the words of the specification *)

(** The mode in which the method [PrintVal] renders. *)
Definition print_mode (c : Connection) : bool :=
  if NoRaw (args c) then false else Raw (args c) || negb (istty c).


(** What the loop is to do, page by page: request the page with the cursor
    of the page before (["0"] at first), then print its keys. *)
Fixpoint scan_events (a : Args) (cursor : bytes) (pages : list (bytes * list bytes))
  : list event :=
  match pages with
  | [] => []
  | (next, outs) :: more =>
      EvWrite (scan_command cursor a ++ CRLF) :: map EvOut outs ++ scan_events a next more
  end.

Definition emit_all (outs : list bytes) (c : Connection) : Connection :=
  fold_left (fun c out => emit (EvOut out) c) outs c.

(** ** Connections to state the properties on *)

(** The connection right after [Send input] has made its call of [Write]. *)
Definition written (input : bytes) (c : Connection) : Connection :=
  let c1 := emit (EvWrite (input ++ CRLF)) c in
  match conn c with
  | Some k =>
      match writeResults k with
      | [] => c1
      | _ :: rs => set_conn (Some (mkConn (incoming k) rs)) c1
      end
  | None => c1
  end.

(** The result of the next call of [Write] on the socket. *)
Definition next_write (c : Connection) : option error :=
  match conn c with
  | Some k => hd None (writeResults k)
  | None => None
  end.

Definition example_args (db : Z) : Args :=
  mkArgs (lit "127.0.0.1") 6379 [] [] [] false 1 0 db false false false (lit "*") 10.

(** A connected session on database [db] whose peer will deliver
    [replies]; the output is a terminal. *)
Definition example_connection (db : Z) (replies : stream) : Connection :=
  mkConnection (example_args db) (Some (mkConn replies [])) (Some replies) true true [].

(** Surroundings in which the dial gives a socket whose peer delivers
    [replies] and whose writes succeed. *)
Definition example_env (replies : stream) : Env :=
  mkEnv (inr (mkConn replies [])) None [] (inr []) true.

(** Surroundings in which the dial gives a socket whose first write fails
    with the text [msg]. *)
Definition example_env_broken (msg : bytes) : Env :=
  mkEnv (inr (mkConn [] [Some (ErrNet msg)])) None [] (inr []) true.

(** The arguments of [example_args] with the password [pw], the repeat
    count [r] and the interval [ns]. *)
Definition example_args_with (pw : bytes) (r ns : Z) : Args :=
  mkArgs (lit "127.0.0.1") 6379 pw [] [] false r ns 0 false false false (lit "*") 10.


(** ** Notions that the properties are stated with *)

(** The value of a string of digits, from the accumulator [a]. *)
Definition digits_val (ds : bytes) (a : Z) : Z :=
  fold_left (fun a c => a * 10 + digit_val c) ds a.

Definition all_digits (ds : bytes) : Prop := Forall (fun c => is_digit c = true) ds.

(** A reader never hands back more than it was given, and a byte less when
    there was one. *)
Definition shrinks (rd : stream -> outcome readResult) : Prop :=
  forall s v err s', rd s = Ret (v, err, s') -> (length s' <= pred (length s))%nat.

(** A reader reports the unknown-type error only for a byte without a
    case. *)
Definition reports_unknown (rd : stream -> outcome readResult) : Prop :=
  forall s v t s', rd s = Ret (v, Some (ErrUnknownType t), s') -> known_type t = false.

(** A value that [PrintVal] renders without a panic, whatever the library
    does on non-ASCII text. *)
Definition prints (v : TypedVal) : Prop :=
  forall T raw, exists out, PrintVal T v raw = Ret out.

(** The shape of what [ReadValue] returns with a nil error: a slice is the
    payload of an array and of nothing else, and its elements have that
    shape in turn. *)
Inductive decoded : TypedVal -> Prop :=
| decoded_scalar (t : RType) (a : any) :
    Byte.eqb t TypeArray = false -> (forall l, a <> VSlice l) ->
    decoded (mkTypedVal t a)
| decoded_array (l : list TypedVal) :
    (forall v, In v l -> decoded v) ->
    decoded (mkTypedVal TypeArray (VSlice l)).

(** The values of the data model, by kind. *)
Definition SimpleString (s : bytes) : TypedVal := mkTypedVal TypeSimpleString (VString s).
Definition BulkString (s : bytes) : TypedVal := mkTypedVal TypeBulkString (VString s).
Definition Integer (n : Z) : TypedVal := mkTypedVal TypeInt (VInt n).
Definition Array (l : list TypedVal) : TypedVal := mkTypedVal TypeArray (VSlice l).

(** The connection that [Connect] hands to the handshake once the dial has
    given the socket [k]. *)
Definition dialed (k : Conn) (c : Connection) : Connection :=
  set_bufReader (Some (incoming k)) (set_conn (Some k) (set_connected true (Close c))).

(** ** Further notions, for the properties of the rest of the code *)

(** A reader hands back a tail of the stream that it was given. *)
Definition leaves_tail (rd : stream -> outcome readResult) : Prop :=
  forall s v err s', rd s = Ret (v, err, s') -> exists consumed, s = consumed ++ s'.

(** The payload that each kind of reply carries. *)
Inductive kind_fits : TypedVal -> Prop :=
| fits_line (t : RType) (s : bytes) :
    t = TypeSimpleString \/ t = TypeError ->
    kind_fits (mkTypedVal t (VString s))
| fits_int (n : Z) :
    minInt <= n <= maxInt ->
    kind_fits (mkTypedVal TypeInt (VInt n))
| fits_bulk_nil :
    kind_fits (mkTypedVal TypeBulkString VNil)
| fits_bulk (s : bytes) :
    kind_fits (mkTypedVal TypeBulkString (VString s))
| fits_array (l : list TypedVal) :
    (forall v, In v l -> kind_fits v) ->
    kind_fits (mkTypedVal TypeArray (VSlice l)).

(** A printable ASCII byte other than the double quote and the backslash:
    [strconv.Quote] leaves it as it is. *)
Definition plain (c : byte) : bool :=
  (32 <=? code c) && (code c <? 127) && negb (Byte.eqb c DQUOTE) && negb (Byte.eqb c "\"%byte).

(** The password that the command line and the environment give: the first
    of [--pass], [-a] and [REDISCLI_AUTH] that is not empty. *)
Definition given_password (E : Env) (a : Args) : bytes :=
  match Pass a, Password a with
  | _ :: _, _ => Pass a
  | [], _ :: _ => Password a
  | [], [] => REDISCLI_AUTH E
  end.

(** The connection once [input] is written and a reply read, with [rest]
    left in the reader. *)
Definition answered (input : bytes) (rest : stream) (c : Connection) : Connection :=
  set_bufReader (Some rest) (written input c).

(** Whether a reply is an error reply. *)
Definition is_error (v : TypedVal) : bool := Byte.eqb (Type_ v) TypeError.

(** [paged_open T raw s pages rest]: from [s] the peer delivers the pages
    [pages], none of them with the cursor ["0"], and [rest] follows them. *)
Inductive paged_open (T : GoText) (raw : bool)
  : stream -> list (bytes * list bytes) -> stream -> Prop :=
| open_none (s : stream) : paged_open T raw s [] s
| open_next (s s1 s' : stream) (first second : TypedVal) (more keys : list TypedVal)
    (cursor : bytes) (outs : list bytes) (pages : list (bytes * list bytes)) :
    ReadValue s = Ret (Some (mkTypedVal TypeArray (VSlice (first :: second :: more))), None, s1) ->
    Val first = VString cursor ->
    cursor <> lit "0" ->
    Val second = VSlice keys ->
    Forall2 (fun v out => PrintVal T v raw = Ret out) keys outs ->
    paged_open T raw s1 pages s' ->
    paged_open T raw s ((cursor, outs) :: pages) s'.

(** The cursor that the loop holds after the pages [pages], from the cursor
    [cursor]. *)
Definition cursor_after (cursor : bytes) (pages : list (bytes * list bytes)) : bytes :=
  last (map fst pages) cursor.

(** A command of blanks only. *)
Definition blank (input : bytes) : bool := forallb asciiSpace input.

(** The keys of [fieldsMap] with the fields that they stand for. *)
Definition shape (m : FieldsMap) : list (bytes * StructField) :=
  map (fun kx => (fst kx, fv_f (snd kx))) m.

(** What the loop over the defaults makes of an entry. *)
Definition defaulted (x : fv) : fv :=
  if fv_set x then x
  else match defaultTag (fv_f x) with
       | [] => x
       | defVal => SetValue x defVal
       end.

(** The field [name] of [Args] carries the flag [key], and no other field
    has that name: a check on the table. *)
Definition linked (name key : bytes) : bool :=
  match lookup key fieldsMap with
  | Some x0 => bytes_eqb (Name (fv_f x0)) name
  | None => false
  end &&
  forallb (fun kf => implb (bytes_eqb (Name (snd kf)) name) (bytes_eqb (fst kf) key))
          (shape fieldsMap).

(** No argument is the flag [key] behind dashes. *)
Definition absent (key : bytes) (argv : list bytes) : Prop :=
  forall a, In a argv -> HasPrefix a (lit "-") = true -> TrimLeft a "-"%byte <> key.

(** What [SetValue] makes of the text [str], by the kind of the field. *)
Definition converted (k : Kind) (str : bytes) : Value :=
  match k with
  | KString => StringOf str
  | KInt => IntOf (fst (Atoi str))
  | KFloat64 => FloatOf (ParseFloat str)
  | KBool => BoolOf true
  end.

(** * Properties *)

(** ** Lists of bytes *)

Lemma byte_eqb_refl (b : byte) : Byte.eqb b b = true.
Proof. apply Byte.byte_dec_lb; reflexivity. Qed.

Lemma byte_eqb_neq (a b : byte) : a <> b -> Byte.eqb a b = false.
Proof.
  intros H. destruct (Byte.eqb a b) eqn:E; [|reflexivity].
  apply Byte.byte_dec_bl in E. contradiction.
Qed.

Lemma bytes_eqb_eq (a b : bytes) : bytes_eqb a b = true <-> a = b.
Proof.
  revert b. induction a as [|x a IH]; intros [|y b]; simpl; split; intros H;
    try reflexivity; try discriminate.
  - apply andb_true_iff in H. destruct H as [H1 H2].
    apply Byte.byte_dec_bl in H1. apply IH in H2. congruence.
  - injection H as -> ->. rewrite byte_eqb_refl. simpl. apply IH. reflexivity.
Qed.

Lemma ends_with_snoc (b c : byte) (l : bytes) :
  ends_with b (l ++ [c]) = Byte.eqb c b.
Proof. unfold ends_with. rewrite rev_app_distr. reflexivity. Qed.

Lemma drop_last_app (l t : bytes) : drop_last (length t) (l ++ t) = l.
Proof.
  unfold drop_last. rewrite length_app.
  replace (length l + length t - length t)%nat with (length l + 0)%nat by lia.
  rewrite firstn_app_2. simpl. apply app_nil_r.
Qed.

Lemma drop_last_1 (l : bytes) (c : byte) : drop_last 1 (l ++ [c]) = l.
Proof. exact (drop_last_app l [c]). Qed.

Lemma drop_last_2 (l : bytes) (c d : byte) : drop_last 2 (l ++ [c; d]) = l.
Proof. exact (drop_last_app l [c; d]). Qed.

(** ** Reading a line *)

Lemma ReadSlice_room_line (room : nat) (l rest : bytes) :
  ~ In LF l -> (length l < room)%nat ->
  ReadSlice_room room (l ++ LF :: rest) = (l ++ [LF], None, rest).
Proof.
  revert l. induction room as [|room IH]; intros l Hl Hlen; [lia|].
  destruct l as [|c l]; simpl.
  - reflexivity.
  - rewrite byte_eqb_neq by (intros ->; apply Hl; left; reflexivity).
    rewrite IH; [reflexivity| |simpl in Hlen; lia].
    intros Hin. apply Hl. right. exact Hin.
Qed.

(** A line that ends in CR LF and fits the buffer is returned without its
    terminator, and the reader stands right after it. *)
Lemma ReadLine_crlf (l rest : bytes) :
  ~ In LF l -> (length l + 2 <= defaultBufSize)%nat ->
  ReadLine (l ++ CRLF ++ rest) = (l, false, None, rest).
Proof.
  intros Hl Hlen. unfold ReadLine, ReadSlice, CRLF.
  change (l ++ [CR; LF] ++ rest) with (l ++ [CR] ++ LF :: rest).
  rewrite app_assoc.
  rewrite ReadSlice_room_line.
  - destruct ((l ++ [CR]) ++ [LF]) eqn:E.
    + destruct l; discriminate E.
    + rewrite <- E. rewrite ends_with_snoc, byte_eqb_refl.
      rewrite drop_last_1, ends_with_snoc, byte_eqb_refl.
      rewrite <- app_assoc. simpl app. rewrite drop_last_2. reflexivity.
  - intros Hin. apply in_app_or in Hin. destruct Hin as [Hin|[Hin|[]]].
    + exact (Hl Hin).
    + discriminate Hin.
  - rewrite length_app. simpl. lia.
Qed.

(** ** Decimal integers *)

Lemma digit_cases (d : Z) :
  0 <= d <= 9 ->
  d = 0 \/ d = 1 \/ d = 2 \/ d = 3 \/ d = 4 \/ d = 5 \/ d = 6 \/ d = 7 \/ d = 8 \/ d = 9.
Proof. lia. Qed.

Ltac each_digit d H :=
  let C := fresh "C" in
  pose proof (digit_cases d H) as C;
  repeat (destruct C as [C|C]; [subst d|]); try subst d.

Lemma is_digit_digit_byte (d : Z) : 0 <= d <= 9 -> is_digit (digit_byte d) = true.
Proof. intros H. each_digit d H; reflexivity. Qed.

Lemma digit_val_digit_byte (d : Z) : 0 <= d <= 9 -> digit_val (digit_byte d) = d.
Proof. intros H. each_digit d H; reflexivity. Qed.

Lemma is_digit_range (c : byte) : is_digit c = true -> 0 <= digit_val c <= 9.
Proof.
  unfold is_digit, digit_val. intros H. apply andb_true_iff in H.
  destruct H as [H1 H2]. apply Z.leb_le in H1, H2. lia.
Qed.

Lemma is_digit_not (c b : byte) : is_digit c = true -> is_digit b = false -> c <> b.
Proof. intros H1 H2 ->. congruence. Qed.

Lemma digits_val_snoc (ds : bytes) (c : byte) (a : Z) :
  digits_val (ds ++ [c]) a = digits_val ds a * 10 + digit_val c.
Proof. unfold digits_val. rewrite fold_left_app. reflexivity. Qed.

Lemma digits_val_ge (ds : bytes) : all_digits ds -> forall a, 0 <= a -> a <= digits_val ds a.
Proof.
  induction 1 as [|c ds Hc _ IH]; intros a Ha; simpl; [lia|].
  apply is_digit_range in Hc.
  specialize (IH (a * 10 + digit_val c)). lia.
Qed.

Lemma utoa_fuel_digits (f : nat) : forall n acc,
  0 <= n < 10 ^ Z.of_nat (S f) ->
  exists ds, utoa_fuel (S f) n acc = ds ++ acc /\ ds <> [] /\ all_digits ds /\
             digits_val ds 0 = n.
Proof.
  induction f as [|f IH]; intros n acc Hn.
  - change (10 ^ Z.of_nat 1) with 10 in Hn.
    exists [digit_byte (n mod 10)]. simpl.
    destruct (Z.ltb_spec n 10); [|lia].
    rewrite Z.mod_small by lia.
    repeat split; try discriminate.
    + constructor; [apply is_digit_digit_byte; lia|constructor].
    + apply digit_val_digit_byte. lia.
  - cbn [utoa_fuel]. destruct (Z.ltb_spec n 10) as [Hlt|Hge].
    + exists [digit_byte (n mod 10)]. rewrite Z.mod_small by lia.
      repeat split; try discriminate.
      * constructor; [apply is_digit_digit_byte; lia|constructor].
      * apply digit_val_digit_byte. lia.
    + destruct (IH (n / 10) (digit_byte (n mod 10) :: acc)) as (ds & E & Hne & Hd & Hv).
      { split; [apply Z.div_pos; lia|].
        apply Z.div_lt_upper_bound; [lia|].
        rewrite Nat2Z.inj_succ, Z.pow_succ_r in Hn by lia. lia. }
      exists (ds ++ [digit_byte (n mod 10)]).
      pose proof (Z.mod_pos_bound n 10 ltac:(lia)) as Hm.
      repeat split.
      * rewrite <- app_assoc. exact E.
      * destruct ds; discriminate.
      * apply Forall_app. split; [exact Hd|].
        constructor; [apply is_digit_digit_byte; lia|constructor].
      * rewrite digits_val_snoc, Hv, digit_val_digit_byte by lia.
        pose proof (Z.div_mod n 10 ltac:(lia)). lia.
Qed.

Lemma utoa_digits (n : Z) :
  0 <= n ->
  utoa n <> [] /\ all_digits (utoa n) /\ digits_val (utoa n) 0 = n.
Proof.
  intros Hn. unfold utoa.
  destruct (utoa_fuel_digits (Z.to_nat (Z.log2 n)) n []) as (ds & E & Hne & Hd & Hv).
  - split; [exact Hn|].
    rewrite Nat2Z.inj_succ, Z2Nat.id by apply Z.log2_nonneg.
    destruct (Z.eq_dec n 0) as [->|Hnz]; [reflexivity|].
    pose proof (Z.log2_spec n ltac:(lia)) as [_ Hlt].
    eapply Z.lt_le_trans; [exact Hlt|].
    apply Z.pow_le_mono_l. lia.
  - rewrite E, app_nil_r. auto.
Qed.

Lemma ParseUint_loop_digits (ds : bytes) :
  all_digits ds -> forall a, 0 <= a -> digits_val ds a <= maxUint64 ->
  ParseUint_loop ds a = (digits_val ds a, None).
Proof.
  induction 1 as [|c ds Hc Hds IH]; intros a Ha Hv; [reflexivity|].
  cbn [ParseUint_loop]. rewrite Hc. cbn [negb].
  pose proof (is_digit_range c Hc) as Hr.
  change (digits_val (c :: ds) a) with (digits_val ds (a * 10 + digit_val c)) in *.
  pose proof (digits_val_ge ds Hds (a * 10 + digit_val c) ltac:(lia)) as Hge.
  change (maxUint64 / 10 + 1) with 1844674407370955162.
  unfold maxUint64 in *.
  destruct (Z.leb_spec 1844674407370955162 a); [lia|].
  destruct (Z.ltb_spec 18446744073709551615 (a * 10 + digit_val c)); [lia|].
  apply IH; [lia|exact Hv].
Qed.

Lemma ParseUint_utoa (n : Z) : 0 <= n <= maxUint64 -> ParseUint (utoa n) = (n, None).
Proof.
  intros Hn. destruct (utoa_digits n ltac:(lia)) as (Hne & Hd & Hv).
  unfold ParseUint. destruct (utoa n) eqn:E; [contradiction|].
  rewrite <- E in *. rewrite ParseUint_loop_digits; rewrite ?Hv; auto; lia.
Qed.

Lemma utoa_head (n : Z) : 0 <= n -> exists c ds, utoa n = c :: ds /\ is_digit c = true.
Proof.
  intros Hn. destruct (utoa_digits n Hn) as (Hne & Hd & _).
  destruct (utoa n) as [|c ds]; [contradiction|].
  exists c, ds. split; [reflexivity|]. inversion Hd; assumption.
Qed.

(** Parsing the decimal text of an [int] gives it back, with a nil error. *)
Lemma Atoi_Itoa (n : Z) : minInt <= n <= maxInt -> Atoi (Itoa n) = (n, None).
Proof.
  unfold minInt, maxInt, Atoi, Itoa, ParseInt. intros Hn.
  destruct (Z.ltb_spec n 0) as [Hneg|Hpos].
  - rewrite byte_eqb_refl.
    replace (Byte.eqb "-" "+" || true) with true by reflexivity.
    rewrite ParseUint_utoa by (unfold maxUint64; lia).
    cbv zeta. simpl negb. simpl andb.
    destruct (Z.ltb_spec 9223372036854775808 (- n)); [lia|].
    f_equal. unfold wrap64.
    destruct (Z.eq_dec n (-9223372036854775808)) as [->|Hne]; [reflexivity|].
    rewrite (Z.mod_small (- n + _)) by lia.
    replace (- n + 9223372036854775808 - 9223372036854775808) with (- n) by lia.
    rewrite Z.opp_involutive. rewrite Z.mod_small by lia. lia.
  - destruct (utoa_head n Hpos) as (c & ds & E & Hc).
    rewrite E.
    rewrite (byte_eqb_neq c "+") by (apply is_digit_not; [exact Hc|reflexivity]).
    rewrite (byte_eqb_neq c "-") by (apply is_digit_not; [exact Hc|reflexivity]).
    simpl orb. cbv iota. rewrite <- E.
    rewrite ParseUint_utoa by (unfold maxUint64; lia).
    cbv zeta. simpl negb. simpl andb.
    destruct (Z.leb_spec 9223372036854775808 n); [lia|].
    f_equal. unfold wrap64. rewrite Z.mod_small by lia. lia.
Qed.

Lemma all_digits_no_LF (ds : bytes) : all_digits ds -> ~ In LF ds.
Proof.
  intros H Hin. unfold all_digits in H. rewrite Forall_forall in H.
  apply H in Hin. discriminate Hin.
Qed.

Lemma utoa_fuel_length (f : nat) : forall n acc,
  (length (utoa_fuel f n acc) <= f + length acc)%nat.
Proof.
  induction f as [|f IH]; intros n acc; simpl; [lia|].
  destruct (n <? 10); simpl; [lia|].
  specialize (IH (n / 10) (digit_byte (n mod 10) :: acc)). simpl in IH. lia.
Qed.

(** The decimal text of an [int] is a line of the protocol: no newline in
    it, and far shorter than the buffer. *)
Lemma Itoa_line (n : Z) :
  minInt <= n <= maxInt ->
  ~ In LF (Itoa n) /\ (length (Itoa n) + 2 <= defaultBufSize)%nat.
Proof.
  unfold minInt, maxInt. intros Hn.
  assert (Hlen : forall m, 0 <= m <= 9223372036854775808 -> (length (utoa m) <= 64)%nat).
  { intros m Hm. unfold utoa.
    pose proof (utoa_fuel_length (S (Z.to_nat (Z.log2 m))) m []) as H.
    change (length (@nil byte)) with 0%nat in H.
    destruct (Z.eq_dec m 0) as [->|Hz]; [simpl in *; lia|].
    assert (Z.log2 m < 64)
      by (apply (Z.log2_lt_pow2 m 64); [lia|change (2 ^ 64) with 18446744073709551616; lia]).
    pose proof (Z.log2_nonneg m). lia. }
  unfold Itoa, defaultBufSize. destruct (Z.ltb_spec n 0).
  - destruct (utoa_digits (- n) ltac:(lia)) as (_ & Hd & _).
    split.
    + intros [Hin|Hin]; [discriminate Hin|]. exact (all_digits_no_LF _ Hd Hin).
    + specialize (Hlen (- n) ltac:(lia)). simpl. lia.
  - destruct (utoa_digits n ltac:(lia)) as (_ & Hd & _).
    split; [exact (all_digits_no_LF _ Hd)|].
    specialize (Hlen n ltac:(lia)). lia.
Qed.

Lemma ReadLine_Itoa (n : Z) (rest : bytes) :
  minInt <= n <= maxInt ->
  ReadLine (Itoa n ++ CRLF ++ rest) = (Itoa n, false, None, rest).
Proof. intros Hn. destruct (Itoa_line n Hn). apply ReadLine_crlf; assumption. Qed.

(** ** The reader only moves forward *)

Lemma ReadSlice_room_split (room : nat) : forall s line err rest,
  ReadSlice_room room s = (line, err, rest) -> s = line ++ rest.
Proof.
  induction room as [|room IH]; intros s line err rest H; simpl in H.
  - injection H as <- _ <-. reflexivity.
  - destruct s as [|c s]; [injection H as <- _ <-; reflexivity|].
    destruct (Byte.eqb c LF).
    + injection H as <- _ <-. reflexivity.
    + destruct (ReadSlice_room room s) as [[l e] r] eqn:E.
      injection H as <- _ <-. apply IH in E. subst s. reflexivity.
Qed.

Lemma ends_with_nonempty (b : byte) (l : bytes) : ends_with b l = true -> l <> [].
Proof. intros H ->. discriminate H. Qed.

Lemma ReadLine_shrinks (s : stream) line pre err rest :
  ReadLine s = (line, pre, err, rest) -> (length rest <= length s)%nat.
Proof.
  unfold ReadLine, ReadSlice. destruct (ReadSlice_room defaultBufSize s) as [[l e] r] eqn:E.
  apply ReadSlice_room_split in E. subst s. rewrite length_app.
  destruct e as [[|]|].
  - destruct l; [|repeat destruct (ends_with _ _)]; intros H; injection H as _ _ _ <-; simpl; lia.
  - destruct (ends_with CR l) eqn:Ew; intros H; injection H as _ _ _ <-; [|lia].
    apply ends_with_nonempty in Ew. destruct l; [contradiction|]. simpl. lia.
  - destruct l; [|repeat destruct (ends_with _ _)]; intros H; injection H as _ _ _ <-; simpl; lia.
Qed.

Lemma ReadAtLeast_shrinks (s : stream) (n : Z) buf err rest :
  ReadAtLeast s n = (buf, err, rest) -> (length rest <= length s)%nat.
Proof.
  unfold ReadAtLeast. destruct (n <=? Z.of_nat (length s)).
  - intros H. injection H as _ _ <-. rewrite length_skipn. lia.
  - destruct s; intros H; injection H as _ _ <-; simpl; lia.
Qed.

Lemma read_elems_shrinks (rd : stream -> outcome readResult) :
  shrinks rd -> forall n acc s r s',
  read_elems rd n acc s = Ret (r, s') -> (length s' <= length s)%nat.
Proof.
  intros Hrd. induction n as [|n IH]; intros acc s r s' H; simpl in H.
  - injection H as _ <-. lia.
  - destruct (rd s) as [[[v err] s1]| |] eqn:E; try discriminate H.
    simpl in H. apply Hrd in E.
    destruct err as [e|]; [injection H as _ <-; lia|].
    destruct v as [v|]; [|discriminate H].
    apply IH in H. lia.
Qed.

Lemma read_elems_ext (rd1 rd2 : stream -> outcome readResult) :
  shrinks rd1 -> forall n acc s,
  (forall s0, (length s0 <= length s)%nat -> rd1 s0 = rd2 s0) ->
  read_elems rd1 n acc s = read_elems rd2 n acc s.
Proof.
  intros Hrd. induction n as [|n IH]; intros acc s Hext; simpl; [reflexivity|].
  rewrite <- (Hext s) by lia.
  destruct (rd1 s) as [[[v err] s1]| |] eqn:E; try reflexivity.
  simpl. apply Hrd in E.
  destruct err; [reflexivity|]. destruct v; [|reflexivity].
  apply IH. intros s0 H0. apply Hext. lia.
Qed.

Ltac split_reads :=
  repeat match goal with
  | |- context [ReadLine ?s] =>
      let E := fresh "EL" in
      destruct (ReadLine s) as [[[? ?] ?] ?] eqn:E; apply ReadLine_shrinks in E
  | |- context [ReadAtLeast ?s ?n] =>
      let E := fresh "EA" in
      destruct (ReadAtLeast s n) as [[? ?] ?] eqn:E; apply ReadAtLeast_shrinks in E
  end.

(** [make] gives the slice or ends the process. *)
Lemma make_cases (elemsize len : Z) :
  make elemsize len = Ret tt \/ exists p, make elemsize len = Panic p.
Proof.
  unfold make.
  repeat match goal with |- context [if ?b then _ else _] => destruct b end;
    solve [left; reflexivity | right; eexists; reflexivity].
Qed.

Lemma make_negative (elemsize len : Z) : len < 0 -> make elemsize len = Panic PanicMakeSlice.
Proof. intros H. unfold make. destruct (Z.ltb_spec len 0); [reflexivity|lia]. Qed.

Lemma make_above (elemsize len : Z) :
  maxAlloc < elemsize * len -> make elemsize len = Panic PanicMakeSlice.
Proof.
  intros H. unfold make. destruct (Z.ltb_spec maxAlloc (elemsize * len)); [|lia].
  rewrite orb_true_r. reflexivity.
Qed.

Lemma make_granted (elemsize len : Z) :
  0 <= len -> elemsize * len <= maxAlloc -> grants (elemsize * len) = true ->
  make elemsize len = Ret tt.
Proof.
  intros H0 H1 Hg. unfold make.
  destruct (Z.ltb_spec len 0); [lia|]. destruct (Z.ltb_spec maxAlloc (elemsize * len)); [lia|].
  cbn [orb]. rewrite Hg, orb_true_r. reflexivity.
Qed.

Lemma make_refused (elemsize len : Z) :
  0 <= len -> 0 < elemsize * len <= maxAlloc -> grants (elemsize * len) = false ->
  make elemsize len = Panic PanicFatal.
Proof.
  intros H0 H1 Hg. unfold make.
  destruct (Z.ltb_spec len 0); [lia|]. destruct (Z.ltb_spec maxAlloc (elemsize * len)); [lia|].
  cbn [orb]. rewrite Hg. destruct (Z.eqb_spec (elemsize * len) 0); [lia|]. reflexivity.
Qed.

(** A slice that is made has a length of an [int]. *)
Lemma make_int (elemsize len : Z) :
  1 <= elemsize -> make elemsize len = Ret tt -> 0 <= len <= maxInt.
Proof.
  intros He. unfold make. destruct (Z.ltb_spec len 0); [discriminate|].
  destruct (Z.ltb_spec maxAlloc (elemsize * len)); [discriminate|].
  intros _. unfold maxAlloc, maxInt in *. nia.
Qed.

Lemma make_empty (elemsize : Z) : make elemsize 0 = Ret tt.
Proof. unfold make. rewrite Z.mul_0_r. reflexivity. Qed.

(** A slice that is made has a length that is not negative. *)
Lemma make_nonneg (elemsize len : Z) : make elemsize len = Ret tt -> 0 <= len.
Proof.
  unfold make. destruct (Z.ltb_spec len 0); [discriminate|]. intros _. assumption.
Qed.

Lemma ReadValue_body_shrinks (rd : stream -> outcome readResult) :
  shrinks rd -> shrinks (ReadValue_body rd).
Proof.
  intros Hrd s v err s'. unfold ReadValue_body.
  destruct s as [|typ s1]; simpl ReadByte; cbv iota beta.
  { intros H. injection H as _ _ <-. simpl; lia. }
  destruct (Byte.eqb typ TypeSimpleString || Byte.eqb typ TypeError).
  { split_reads. intros H. injection H as _ _ <-. simpl; lia. }
  destruct (Byte.eqb typ TypeInt).
  { split_reads. intros H. injection H as _ _ <-. simpl; lia. }
  destruct (Byte.eqb typ TypeBulkString).
  { destruct (ReadLine s1) as [[[result pre] e1] s2] eqn:EL.
    apply ReadLine_shrinks in EL. cbv zeta.
    destruct (fst (Atoi result) =? -1).
    { intros H. injection H as _ _ <-. simpl; lia. }
    destruct (fst (Atoi result) =? 0).
    { split_reads. intros H. injection H as _ _ <-. simpl; lia. }
    destruct (make 1 (fst (Atoi result))) as [[]| |]; cbn [bind]; try discriminate.
    destruct (ReadAtLeast s2 (fst (Atoi result))) as [[buf e2] s3] eqn:EA.
    apply ReadAtLeast_shrinks in EA.
    destruct e2.
    { intros H. injection H as _ _ <-. simpl; lia. }
    split_reads. intros H. injection H as _ _ <-. simpl; lia. }
  destruct (Byte.eqb typ TypeArray).
  { destruct (ReadLine s1) as [[[result pre] e1] s2] eqn:EL.
    apply ReadLine_shrinks in EL. cbv zeta.
    destruct (make 8 (fst (Atoi result))) as [[]| |]; cbn [bind]; try discriminate.
    destruct (read_elems rd (Z.to_nat (fst (Atoi result))) [] s2) as [[r s3]| |] eqn:ER;
      try discriminate.
    apply (read_elems_shrinks rd Hrd) in ER. simpl.
    destruct r; intros H; injection H as _ _ <-; simpl; lia. }
  intros H. injection H as _ _ <-. simpl; lia.
Qed.

(** The body calls its parameter only on streams shorter than its own. *)
Lemma ReadValue_body_ext (rd1 rd2 : stream -> outcome readResult) (s : stream) :
  shrinks rd1 ->
  (forall s0, (length s0 < length s)%nat -> rd1 s0 = rd2 s0) ->
  ReadValue_body rd1 s = ReadValue_body rd2 s.
Proof.
  intros Hrd Hext. unfold ReadValue_body.
  destruct s as [|typ s1]; simpl ReadByte; cbv iota beta; [reflexivity|].
  simpl length in Hext.
  destruct (Byte.eqb typ TypeSimpleString || Byte.eqb typ TypeError); [reflexivity|].
  destruct (Byte.eqb typ TypeInt); [reflexivity|].
  destruct (Byte.eqb typ TypeBulkString); [reflexivity|].
  destruct (Byte.eqb typ TypeArray); [|reflexivity].
  destruct (ReadLine s1) as [[[result pre] e1] s2] eqn:EL.
  apply ReadLine_shrinks in EL. cbv zeta.
  destruct (make 8 (fst (Atoi result))) as [[]| |]; cbn [bind]; try reflexivity.
  rewrite (read_elems_ext rd1 rd2 Hrd); [reflexivity|].
  intros s0 H0. apply Hext. lia.
Qed.

Lemma read_elems_fuel (rd : stream -> outcome readResult) :
  shrinks rd -> forall n acc s,
  (forall s0, (length s0 <= length s)%nat -> rd s0 <> NoFuel) ->
  read_elems rd n acc s <> NoFuel.
Proof.
  intros Hrd. induction n as [|n IH]; intros acc s Hs; simpl; [discriminate|].
  pose proof (Hs s ltac:(lia)) as H.
  destruct (rd s) as [[[v err] s1]| |] eqn:E; try discriminate; [|contradiction].
  simpl. apply Hrd in E.
  destruct err; [discriminate|]. destruct v; [|discriminate].
  apply IH. intros s0 H0. apply Hs. lia.
Qed.

Lemma ReadValue_body_fuel (rd : stream -> outcome readResult) (s : stream) :
  shrinks rd ->
  (forall s0, (length s0 < length s)%nat -> rd s0 <> NoFuel) ->
  ReadValue_body rd s <> NoFuel.
Proof.
  intros Hrd Hs. unfold ReadValue_body.
  destruct s as [|typ s1]; simpl ReadByte; cbv iota beta; [discriminate|].
  simpl length in Hs.
  destruct (Byte.eqb typ TypeSimpleString || Byte.eqb typ TypeError).
  { split_reads. discriminate. }
  destruct (Byte.eqb typ TypeInt).
  { split_reads. discriminate. }
  destruct (Byte.eqb typ TypeBulkString).
  { destruct (ReadLine s1) as [[[result pre] e1] s2]. cbv zeta.
    repeat match goal with |- context [if ?b then _ else _] => destruct b end;
      try discriminate.
    - split_reads. discriminate.
    - destruct (make_cases 1 (fst (Atoi result))) as [->|[p ->]]; cbn [bind];
        [|discriminate].
      destruct (ReadAtLeast s2 (fst (Atoi result))) as [[buf [e2|]] s3]; [discriminate|].
      split_reads. discriminate. }
  destruct (Byte.eqb typ TypeArray); [|discriminate].
  destruct (ReadLine s1) as [[[result pre] e1] s2] eqn:EL.
  apply ReadLine_shrinks in EL. cbv zeta.
  destruct (make_cases 8 (fst (Atoi result))) as [->|[p ->]]; cbn [bind]; [|discriminate].
  pose proof (read_elems_fuel rd Hrd (Z.to_nat (fst (Atoi result))) [] s2) as H.
  destruct (read_elems rd (Z.to_nat (fst (Atoi result))) [] s2) as [[r s3]| |].
  - simpl. destruct r; discriminate.
  - discriminate.
  - exfalso. apply H; [|reflexivity]. intros s0 H0. apply Hs. lia.
Qed.

Lemma ReadValue_fuel_shrinks (fuel : nat) : shrinks (ReadValue_fuel fuel).
Proof.
  induction fuel as [|fuel IH]; [intros s v err s' H; discriminate H|].
  exact (ReadValue_body_shrinks _ IH).
Qed.

Lemma ReadValue_fuel_agree (f1 : nat) : forall f2 s,
  (length s < f1)%nat -> (length s < f2)%nat ->
  ReadValue_fuel f1 s = ReadValue_fuel f2 s.
Proof.
  induction f1 as [|f1 IH]; intros f2 s H1 H2; [lia|].
  destruct f2 as [|f2]; [lia|]. simpl.
  apply ReadValue_body_ext; [apply ReadValue_fuel_shrinks|].
  intros s0 H0. apply IH; lia.
Qed.

Lemma ReadValue_fuel_enough (fuel : nat) (s : stream) :
  (length s < fuel)%nat -> ReadValue_fuel fuel s = ReadValue s.
Proof. intros H. apply ReadValue_fuel_agree; [exact H|lia]. Qed.

Lemma ReadValue_shrinks : shrinks ReadValue.
Proof. intros s. apply ReadValue_fuel_shrinks. Qed.

(** The recursion equation of [ReadValue]: the fuel is out of the way. *)
Lemma ReadValue_unfold (s : stream) : ReadValue s = ReadValue_body ReadValue s.
Proof.
  unfold ReadValue at 1. cbn [ReadValue_fuel].
  apply ReadValue_body_ext; [apply ReadValue_fuel_shrinks|].
  intros s0 H0. apply ReadValue_fuel_enough. exact H0.
Qed.

(** [ReadValue] returns or panics on every stream: the fuel never runs out. *)
Lemma ReadValue_total (s : stream) : ReadValue s <> NoFuel.
Proof.
  assert (H : forall fuel s, (length s < fuel)%nat -> ReadValue_fuel fuel s <> NoFuel).
  { induction fuel as [|fuel IH]; intros s0 H0; [lia|]. simpl.
    apply ReadValue_body_fuel; [apply ReadValue_fuel_shrinks|].
    intros s1 H1. apply IH. lia. }
  apply H. lia.
Qed.

(** ** The cases of [ReadValue], on a header line in decimal *)

Lemma ReadValue_array_header (n : Z) (body : bytes) :
  minInt <= n <= maxInt ->
  ReadValue (TypeArray :: Itoa n ++ CRLF ++ body) =
  (_ <- make 8 n ;;
   '(r, s3) <- read_elems ReadValue (Z.to_nat n) [] body ;;
   match r with
   | inr e => Ret (None, Some e, s3)
   | inl res0 => Ret (Some (mkTypedVal TypeArray (VSlice res0)), None, s3)
   end).
Proof.
  intros Hn. rewrite ReadValue_unfold. unfold ReadValue_body.
  cbn [ReadByte]. cbv iota beta.
  change (Byte.eqb TypeArray TypeSimpleString || Byte.eqb TypeArray TypeError) with false.
  change (Byte.eqb TypeArray TypeInt) with false.
  change (Byte.eqb TypeArray TypeBulkString) with false.
  change (Byte.eqb TypeArray TypeArray) with true. cbv iota.
  rewrite ReadLine_Itoa by exact Hn. cbv zeta.
  rewrite Atoi_Itoa by exact Hn. reflexivity.
Qed.

Lemma ReadValue_bulk_header (n : Z) (body : bytes) :
  minInt <= n <= maxInt ->
  ReadValue (TypeBulkString :: Itoa n ++ CRLF ++ body) =
  if n =? -1 then Ret (Some (mkTypedVal TypeBulkString VNil), None, body)
  else if n =? 0 then
    let '(_, _, err, s3) := ReadLine body in
    Ret (Some (mkTypedVal TypeBulkString (VString [])), err, s3)
  else
    _ <- make 1 n ;;
    let '(result, err, s3) := ReadAtLeast body n in
    match err with
    | Some _ => Ret (Some (mkTypedVal TypeBulkString VNil), err, s3)
    | None =>
        let '(_, _, err, s4) := ReadLine s3 in
        Ret (Some (mkTypedVal TypeBulkString (VString result)), err, s4)
    end.
Proof.
  intros Hn. rewrite ReadValue_unfold. unfold ReadValue_body.
  cbn [ReadByte]. cbv iota beta.
  change (Byte.eqb TypeBulkString TypeSimpleString || Byte.eqb TypeBulkString TypeError)
    with false.
  change (Byte.eqb TypeBulkString TypeInt) with false.
  change (Byte.eqb TypeBulkString TypeBulkString) with true. cbv iota.
  rewrite ReadLine_Itoa by exact Hn. cbv zeta.
  rewrite Atoi_Itoa by exact Hn. reflexivity.
Qed.

(** A negative count in the header of an array makes [make] panic: there is
    no null array. *)
Lemma ReadValue_array_negative_count (n : Z) (body : bytes) :
  minInt <= n < 0 -> ReadValue (TypeArray :: Itoa n ++ CRLF ++ body) = Panic PanicMakeSlice.
Proof.
  intros Hn. rewrite ReadValue_array_header by (unfold maxInt; lia).
  rewrite make_negative by lia. reflexivity.
Qed.

(** C1, on the code: a reply whose header declares the count -1 is not
    decoded to the null array; [make([]*TypedVal, -1)] panics, whatever
    follows the header. *)
Theorem ReadValue_null_array_panics (rest : bytes) :
  ReadValue (lit "*-1" ++ CRLF ++ rest) = Panic PanicMakeSlice.
Proof.
  apply (ReadValue_array_negative_count (-1) rest). unfold minInt. lia.
Qed.

Lemma ReadAtLeast_exact (payload rest : bytes) :
  ReadAtLeast (payload ++ rest) (Z.of_nat (length payload)) = (payload, None, rest).
Proof.
  unfold ReadAtLeast. rewrite length_app.
  destruct (Z.leb_spec (Z.of_nat (length payload)) (Z.of_nat (length payload + length rest)));
    [|lia].
  rewrite Nat2Z.id, firstn_app, skipn_app, firstn_all, skipn_all, Nat.sub_diag.
  simpl. rewrite app_nil_r. reflexivity.
Qed.

Lemma ReadAtLeast_short (avail : bytes) (n : Z) :
  Z.of_nat (length avail) < n ->
  ReadAtLeast avail n = (avail, Some (match avail with [] => EOF | _ => ErrUnexpectedEOF end), []).
Proof.
  intros H. unfold ReadAtLeast.
  destruct (Z.leb_spec n (Z.of_nat (length avail))); [lia|].
  destruct avail; reflexivity.
Qed.

(** C2: the bulk string.  Length -1 is the null payload; length 0 is the
    empty string, which is not null, and its terminator line is consumed.
    For a length [n > 0] the buffer of [n] bytes is made first.  When the
    allocator grants it, the call takes exactly [n] bytes and the terminator
    line and returns those bytes, and with fewer than [n] bytes left it
    fails with an error and no text is returned.  A length above the ceiling
    of the runtime is a panic, and a length that the allocator does not
    grant ends the process, whatever follows the header: no error is
    returned then. *)
Theorem ReadValue_bulk_string (n : Z) (payload avail rest : bytes) :
  0 < n <= maxInt ->
  Z.of_nat (length payload) = n ->
  Z.of_nat (length avail) < n ->
  ReadValue (lit "$-1" ++ CRLF ++ rest)
    = Ret (Some (mkTypedVal TypeBulkString VNil), None, rest) /\
  ReadValue (lit "$0" ++ CRLF ++ CRLF ++ rest)
    = Ret (Some (mkTypedVal TypeBulkString (VString [])), None, rest) /\
  VString [] <> VNil /\
  (n <= maxAlloc -> grants n = true ->
   ReadValue (lit "$" ++ Itoa n ++ CRLF ++ payload ++ CRLF ++ rest)
     = Ret (Some (mkTypedVal TypeBulkString (VString payload)), None, rest) /\
   exists e, ReadValue (lit "$" ++ Itoa n ++ CRLF ++ avail)
     = Ret (Some (mkTypedVal TypeBulkString VNil), Some e, []) /\
     (e = EOF \/ e = ErrUnexpectedEOF)) /\
  (maxAlloc < n ->
   forall body, ReadValue (lit "$" ++ Itoa n ++ CRLF ++ body) = Panic PanicMakeSlice) /\
  (n <= maxAlloc -> grants n = false ->
   forall body, ReadValue (lit "$" ++ Itoa n ++ CRLF ++ body) = Panic PanicFatal).
Proof.
  intros Hn Hp Ha. unfold maxInt in Hn.
  assert (Hh : forall body,
    ReadValue (lit "$" ++ Itoa n ++ CRLF ++ body) =
    (_ <- make 1 n ;;
     let '(result, err, s3) := ReadAtLeast body n in
     match err with
     | Some _ => Ret (Some (mkTypedVal TypeBulkString VNil), err, s3)
     | None =>
         let '(_, _, err, s4) := ReadLine s3 in
         Ret (Some (mkTypedVal TypeBulkString (VString result)), err, s4)
     end)).
  { intros body.
    change (lit "$" ++ Itoa n ++ CRLF ++ body) with (TypeBulkString :: Itoa n ++ CRLF ++ body).
    rewrite ReadValue_bulk_header by (unfold minInt, maxInt; lia).
    destruct (Z.eqb_spec n (-1)); [lia|]. destruct (Z.eqb_spec n 0); [lia|]. reflexivity. }
  split; [|split; [|split; [|split; [|split]]]].
  - apply (ReadValue_bulk_header (-1) rest). unfold minInt, maxInt. lia.
  - change (lit "$0" ++ CRLF ++ CRLF ++ rest)
      with (TypeBulkString :: Itoa 0 ++ CRLF ++ ([] ++ CRLF ++ rest)).
    rewrite ReadValue_bulk_header by (unfold minInt, maxInt; lia).
    cbv iota. change (0 =? -1) with false. change (0 =? 0) with true. cbv iota.
    rewrite ReadLine_crlf by (simpl; auto; unfold defaultBufSize; lia). reflexivity.
  - discriminate.
  - intros Hc Hg.
    assert (Hm : make 1 n = Ret tt) by (apply make_granted; rewrite ?Z.mul_1_l; [lia|lia|exact Hg]).
    split.
    + rewrite Hh, Hm. cbn [bind].
      rewrite <- Hp, ReadAtLeast_exact.
      change (CRLF ++ rest) with ([] ++ CRLF ++ rest).
      rewrite ReadLine_crlf by (simpl; auto; unfold defaultBufSize; lia). reflexivity.
    + exists (match avail with [] => EOF | _ => ErrUnexpectedEOF end). split.
      * rewrite Hh, Hm. cbn [bind]. rewrite ReadAtLeast_short by exact Ha. reflexivity.
      * destruct avail; auto.
  - intros Hc body. rewrite Hh, make_above by (rewrite Z.mul_1_l; exact Hc). reflexivity.
  - intros Hc Hg body.
    rewrite Hh, make_refused by (rewrite ?Z.mul_1_l; first [lia|exact Hg]). reflexivity.
Qed.

(** ** The loop of the array case *)

Lemma read_elems_decodes (k : nat) (s s1 : stream) (l : list TypedVal) :
  decodes k s l s1 -> forall m acc,
  read_elems ReadValue (k + m) acc s = read_elems ReadValue m (rev l ++ acc) s1.
Proof.
  induction 1 as [s|k s s1 s2 v l Hv _ IH]; intros m acc; [reflexivity|].
  cbn [Nat.add read_elems]. rewrite Hv. cbn [bind]. cbv beta iota zeta.
  rewrite IH. cbn [rev]. rewrite <- app_assoc. reflexivity.
Qed.

Lemma read_elems_length (rd : stream -> outcome readResult) : forall n acc s l s',
  read_elems rd n acc s = Ret (inl l, s') -> length l = (n + length acc)%nat.
Proof.
  induction n as [|n IH]; intros acc s l s' H; simpl in H.
  - injection H as <- _. apply length_rev.
  - destruct (rd s) as [[[v err] s1]| |]; try discriminate H. simpl in H.
    destruct err; [discriminate H|]. destruct v; [|discriminate H].
    apply IH in H. simpl in H. lia.
Qed.

(** C3: the count of an array.  A returned slice has as many elements as the
    header declares.  The slice of [n] slots is made before an element is
    read: when the runtime makes it (the size of [8 * n] bytes is within
    the ceiling and the allocator grants it) and all [n] elements decode,
    they are returned in order, and when only [k < n] elements decode and
    the next call fails with [e], the array fails with [e] and returns no
    slice.  A count whose size is above the ceiling is a panic, and a size
    that the allocator does not grant ends the process, whatever follows the
    header: no error is returned then. *)
Theorem ReadValue_array_count (n : Z) (body : bytes) :
  0 <= n <= maxInt ->
  (forall t l e rest,
     ReadValue (lit "*" ++ Itoa n ++ CRLF ++ body) = Ret (Some (mkTypedVal t (VSlice l)), e, rest) ->
     Z.of_nat (length l) = n) /\
  (8 * n <= maxAlloc -> grants (8 * n) = true -> make 8 n = Ret tt) /\
  (make 8 n = Ret tt ->
   (forall l rest,
      decodes (Z.to_nat n) body l rest ->
      ReadValue (lit "*" ++ Itoa n ++ CRLF ++ body)
        = Ret (Some (mkTypedVal TypeArray (VSlice l)), None, rest)) /\
   (forall k l s1 v e s2,
      decodes k body l s1 -> Z.of_nat k < n ->
      ReadValue s1 = Ret (v, Some e, s2) ->
      ReadValue (lit "*" ++ Itoa n ++ CRLF ++ body) = Ret (None, Some e, s2))) /\
  (maxAlloc < 8 * n ->
   ReadValue (lit "*" ++ Itoa n ++ CRLF ++ body) = Panic PanicMakeSlice) /\
  (0 < n -> 8 * n <= maxAlloc -> grants (8 * n) = false ->
   ReadValue (lit "*" ++ Itoa n ++ CRLF ++ body) = Panic PanicFatal).
Proof.
  intros Hn.
  change (lit "*" ++ Itoa n ++ CRLF ++ body) with (TypeArray :: Itoa n ++ CRLF ++ body).
  rewrite ReadValue_array_header by (unfold minInt, maxInt in *; lia).
  split; [|split; [|split; [|split]]].
  - intros t l e rest H0.
    destruct (make_cases 8 n) as [Hm|[p Hm]]; rewrite Hm in H0; cbn [bind] in H0;
      [|discriminate H0].
    destruct (read_elems ReadValue (Z.to_nat n) [] body) as [[[res0|e0] s3]| |] eqn:E;
      try discriminate H0.
    simpl in H0. injection H0 as _ <- _ _.
    apply read_elems_length in E. simpl in E. lia.
  - intros Hc Hg. apply make_granted; [lia|exact Hc|exact Hg].
  - intros Hm. rewrite Hm. cbn [bind]. split.
    + intros l rest Hd.
      pose proof (read_elems_decodes _ _ _ _ Hd 0%nat []) as E.
      rewrite Nat.add_0_r in E. rewrite E. cbn [read_elems bind]. cbv beta iota zeta.
      rewrite app_nil_r, rev_involutive. reflexivity.
    + intros k l s1 v e s2 Hd Hk Hv.
      replace (Z.to_nat n) with (k + S (Z.to_nat n - S k))%nat by lia.
      rewrite (read_elems_decodes _ _ _ _ Hd). cbn [read_elems]. rewrite Hv. reflexivity.
  - intros Hc. rewrite make_above by exact Hc. reflexivity.
  - intros H0 Hc Hg. rewrite make_refused by first [lia|exact Hg]. reflexivity.
Qed.

(** ** Which errors come from where *)

Lemma ReadLine_err (s : stream) line pre e rest :
  ReadLine s = (line, pre, Some e, rest) -> e = EOF.
Proof.
  unfold ReadLine. destruct (ReadSlice s) as [[l err] r].
  destruct err as [[|]|].
  - destruct l; [|repeat destruct (ends_with _ _)]; intros H; injection H as _ _ H _;
      congruence.
  - destruct (ends_with CR l); intros H; discriminate H.
  - destruct l; [|repeat destruct (ends_with _ _)]; intros H; discriminate H.
Qed.

Lemma ReadAtLeast_err (s : stream) (n : Z) buf e rest :
  ReadAtLeast s n = (buf, Some e, rest) -> e = EOF \/ e = ErrUnexpectedEOF.
Proof.
  unfold ReadAtLeast. destruct (n <=? Z.of_nat (length s)); [discriminate|].
  destruct s; intros H; injection H as _ <- _; auto.
Qed.

Lemma read_elems_unknown (rd : stream -> outcome readResult) :
  reports_unknown rd -> forall n acc s t s',
  read_elems rd n acc s = Ret (inr (ErrUnknownType t), s') -> known_type t = false.
Proof.
  intros Hrd. induction n as [|n IH]; intros acc s t s' H; simpl in H; [discriminate H|].
  destruct (rd s) as [[[v err] s1]| |] eqn:E; try discriminate H. simpl in H.
  destruct err as [e|].
  - injection H as -> <-. exact (Hrd _ _ _ _ E).
  - destruct v; [|discriminate H]. exact (IH _ _ _ _ H).
Qed.

Ltac not_unknown H :=
  match type of H with
  | Ret (_, ?e, _) = Ret (_, Some (ErrUnknownType ?t), _) =>
      let E := fresh in
      assert (E : e = Some (ErrUnknownType t)) by congruence;
      first [ discriminate E
            | match goal with
              | EL : ReadLine _ = (_, _, e, _) |- _ =>
                  rewrite E in EL; apply ReadLine_err in EL; discriminate EL
              | EA : ReadAtLeast _ _ = (_, e, _) |- _ =>
                  rewrite E in EA; apply ReadAtLeast_err in EA;
                  destruct EA as [EA|EA]; discriminate EA
              end ]
  end.

Lemma ReadValue_body_unknown (rd : stream -> outcome readResult) (c : byte) (s : stream) :
  reports_unknown rd -> forall v t s',
  ReadValue_body rd (c :: s) = Ret (v, Some (ErrUnknownType t), s') ->
  known_type t = false /\ (c = t \/ c = TypeArray).
Proof.
  intros Hrd v t s'. unfold ReadValue_body. cbn [ReadByte]. cbv iota beta.
  unfold known_type.
  destruct (Byte.eqb c TypeSimpleString || Byte.eqb c TypeError) eqn:E1.
  { destruct (ReadLine s) as [[[result pre] e1] s2] eqn:EL. intros H. not_unknown H. }
  destruct (Byte.eqb c TypeInt) eqn:E2.
  { destruct (ReadLine s) as [[[result pre] e1] s2] eqn:EL. intros H. not_unknown H. }
  destruct (Byte.eqb c TypeBulkString) eqn:E3.
  { destruct (ReadLine s) as [[[result pre] e1] s2] eqn:EL. cbv zeta.
    destruct (fst (Atoi result) =? -1); [intros H; not_unknown H|].
    destruct (fst (Atoi result) =? 0).
    { destruct (ReadLine s2) as [[[r2 p2] e2] s3] eqn:EL2. intros H. not_unknown H. }
    destruct (make 1 (fst (Atoi result))) as [[]| |]; cbn [bind]; try discriminate.
    destruct (ReadAtLeast s2 (fst (Atoi result))) as [[buf e2] s3] eqn:EA.
    destruct e2 as [e2|].
    { intros H. not_unknown H. }
    destruct (ReadLine s3) as [[[r4 p4] e4] s4] eqn:EL4. intros H. not_unknown H. }
  destruct (Byte.eqb c TypeArray) eqn:E4.
  { apply Byte.byte_dec_bl in E4. subst c.
    destruct (ReadLine s) as [[[result pre] e1] s2] eqn:EL. cbv zeta.
    destruct (make 8 (fst (Atoi result))) as [[]| |]; cbn [bind]; try discriminate.
    destruct (read_elems rd (Z.to_nat (fst (Atoi result))) [] s2) as [[[res0|e0] s3]| |] eqn:ER;
      try discriminate; cbn [bind]; cbv beta iota zeta; intros H.
    - not_unknown H.
    - injection H as _ -> _. split; [|right; reflexivity].
      exact (read_elems_unknown rd Hrd _ _ _ _ _ ER). }
  intros H. injection H as _ <- _. split; [|left; reflexivity].
  apply orb_false_iff in E1. destruct E1 as [-> ->]. rewrite E2, E3, E4. reflexivity.
Qed.

Lemma ReadValue_reports_unknown : reports_unknown ReadValue.
Proof.
  assert (H : forall fuel, reports_unknown (ReadValue_fuel fuel)).
  { induction fuel as [|fuel IH]; intros s v t s' H; [discriminate H|].
    simpl in H. destruct s as [|c s]; [discriminate H|].
    exact (proj1 (ReadValue_body_unknown _ c s IH v t s' H)). }
  intros s. apply H.
Qed.

Lemma decodes_shrinks (k : nat) (s s1 : stream) (l : list TypedVal) :
  decodes k s l s1 -> (length s1 <= length s)%nat.
Proof.
  induction 1 as [s|k s s1 s2 v l Hv _ IH]; [lia|].
  apply ReadValue_shrinks in Hv. lia.
Qed.

(** The loop of the array case fails at the first element that fails,
    after the elements before it have decoded. *)
Lemma read_elems_failure : forall n acc s e s',
  read_elems ReadValue n acc s = Ret (inr e, s') ->
  exists k l s3 v,
    decodes k s l s3 /\ (k < n)%nat /\ ReadValue s3 = Ret (v, Some e, s').
Proof.
  induction n as [|n IH]; intros acc s e s' H; cbn [read_elems] in H; [discriminate H|].
  destruct (ReadValue s) as [[[v err] s1]| |] eqn:E; cbn [bind] in H; try discriminate H.
  cbv beta iota zeta in H. destruct err as [e0|].
  - injection H as <- <-. exists 0%nat, [], s, v.
    split; [constructor|]. split; [lia|exact E].
  - destruct v as [v|]; [|discriminate H].
    destruct (IH _ _ _ _ H) as (k & l & s3 & v3 & Hd & Hk & Hv).
    exists (S k), (v :: l), s3, v3.
    split; [exact (decodes_cons k s s1 s3 v l E Hd)|]. split; [lia|exact Hv].
Qed.

(** A call that fails with the unknown-type error met the byte where a
    value was to begin. *)
Lemma ReadValue_unknown_at : forall n s v t s',
  (length s <= n)%nat ->
  ReadValue s = Ret (v, Some (ErrUnknownType t), s') -> unknown_at s t s'.
Proof.
  induction n as [|n IH]; intros s v t s' Hlen H.
  - destruct s; [|simpl in Hlen; lia]. discriminate H.
  - rewrite ReadValue_unfold in H. unfold ReadValue_body in H.
    destruct s as [|c s]; [discriminate H|]. cbn [ReadByte] in H. cbv iota beta in H.
    simpl in Hlen.
    destruct (Byte.eqb c TypeSimpleString || Byte.eqb c TypeError) eqn:E1.
    { destruct (ReadLine s) as [[[result pre] e1] s2] eqn:EL. not_unknown H. }
    destruct (Byte.eqb c TypeInt) eqn:E2.
    { destruct (ReadLine s) as [[[result pre] e1] s2] eqn:EL. not_unknown H. }
    destruct (Byte.eqb c TypeBulkString) eqn:E3.
    { destruct (ReadLine s) as [[[result pre] e1] s2] eqn:EL. cbv zeta in H.
      destruct (fst (Atoi result) =? -1); [not_unknown H|].
      destruct (fst (Atoi result) =? 0).
      { destruct (ReadLine s2) as [[[r2 p2] e2] s3] eqn:EL2. not_unknown H. }
      destruct (make 1 (fst (Atoi result))) as [[]| |]; cbn [bind] in H; try discriminate H.
      destruct (ReadAtLeast s2 (fst (Atoi result))) as [[buf e2] s3] eqn:EA.
      destruct e2 as [e2|]; [not_unknown H|].
      destruct (ReadLine s3) as [[[r4 p4] e4] s4] eqn:EL4. not_unknown H. }
    destruct (Byte.eqb c TypeArray) eqn:E4.
    { apply Byte.byte_dec_bl in E4. subst c.
      destruct (ReadLine s) as [[[result pre] e1] s2] eqn:EL. cbv zeta in H.
      destruct (make 8 (fst (Atoi result))) as [[]| |] eqn:Em; cbn [bind] in H;
        try discriminate H.
      destruct (read_elems ReadValue (Z.to_nat (fst (Atoi result))) [] s2)
        as [[[res0|e0] s3]| |] eqn:ER; try discriminate H; cbn [bind] in H;
        cbv beta iota zeta in H.
      - not_unknown H.
      - injection H as _ -> ->.
        destruct (read_elems_failure _ _ _ _ _ ER) as (k & l & s4 & v4 & Hd & Hk & Hv).
        pose proof (make_nonneg _ _ Em) as H0.
        apply (unknown_nested s s2 s4 s' result pre e1 k l t EL Em Hd); [lia|].
        apply (IH s4 v4 t s'); [|exact Hv].
        apply decodes_shrinks in Hd. apply ReadLine_shrinks in EL. lia. }
    injection H as _ <- <-. apply unknown_here. unfold known_type.
    apply orb_false_iff in E1. destruct E1 as [-> ->]. rewrite E2, E3, E4. reflexivity.
Qed.

(** Where the byte is met, the call fails with the unknown-type error for
    it. *)
Lemma unknown_at_fails (s : stream) (t : RType) (s' : stream) :
  unknown_at s t s' -> exists v, ReadValue s = Ret (v, Some (ErrUnknownType t), s').
Proof.
  induction 1 as [t rest Hk|s1 s2 s3 s' line pre e1 k l t EL Em Hd Hk _ [v IH]].
  - exists (Some (mkTypedVal t VNil)). unfold known_type in Hk.
    repeat (apply orb_false_iff in Hk; destruct Hk as [Hk ?]).
    rewrite ReadValue_unfold. unfold ReadValue_body. cbn [ReadByte]. cbv iota beta.
    repeat match goal with E : Byte.eqb t _ = false |- _ => rewrite E; clear E end.
    reflexivity.
  - exists None. rewrite ReadValue_unfold. unfold ReadValue_body. cbn [ReadByte]. cbv iota beta.
    change (Byte.eqb TypeArray TypeSimpleString || Byte.eqb TypeArray TypeError) with false.
    change (Byte.eqb TypeArray TypeInt) with false.
    change (Byte.eqb TypeArray TypeBulkString) with false.
    change (Byte.eqb TypeArray TypeArray) with true. cbv iota.
    rewrite EL. cbv zeta. rewrite Em. cbn [bind].
    replace (Z.to_nat (fst (Atoi line)))
      with (k + S (Z.to_nat (fst (Atoi line)) - S k))%nat by lia.
    rewrite (read_elems_decodes _ _ _ _ Hd). cbn [read_elems]. rewrite IH. reflexivity.
Qed.

(** The byte that is met has no case. *)
Lemma unknown_at_unknown (s : stream) (t : RType) (s' : stream) :
  unknown_at s t s' -> known_type t = false.
Proof. induction 1; assumption. Qed.

(** C6, as the code has it: a call whose type byte has no case fails with
    the unknown-type error for that byte.  A call fails with the
    unknown-type error for [t] exactly when it meets [t], a byte without a
    case, where a value is to begin: as its own type byte, or, the call
    being an array whose slice is made, as the type byte of the element that
    is next after the elements before it have decoded, or in the same way
    inside that element; the error of the element is the error of the
    array.  So the replies of the kinds [+], [-], [:] and [$] never fail
    with it.  And an integer reply decodes without error whatever its line
    holds, to the best-effort value of [Atoi], which is 0 on a syntax
    error. *)
Theorem ReadValue_unknown_type (c : byte) (s : stream) :
  (known_type c = false ->
   ReadValue (c :: s) = Ret (Some (mkTypedVal c VNil), Some (ErrUnknownType c), s)) /\
  (forall v t s',
     ReadValue (c :: s) = Ret (v, Some (ErrUnknownType t), s') ->
     known_type t = false /\ (c = t \/ c = TypeArray) /\ unknown_at (c :: s) t s') /\
  (forall t s',
     unknown_at (c :: s) t s' ->
     exists v, ReadValue (c :: s) = Ret (v, Some (ErrUnknownType t), s')) /\
  (forall line rest,
     ~ In LF line -> (length line + 2 <= defaultBufSize)%nat ->
     ReadValue (TypeInt :: line ++ CRLF ++ rest)
       = Ret (Some (mkTypedVal TypeInt (VInt (fst (Atoi line)))), None, rest)) /\
  (forall line, snd (Atoi line) = Some ErrSyntax -> fst (Atoi line) = 0).
Proof.
  split; [|split; [|split; [|split]]].
  - unfold known_type. intros H.
    repeat (apply orb_false_iff in H; destruct H as [H ?]).
    rewrite ReadValue_unfold. unfold ReadValue_body. cbn [ReadByte]. cbv iota beta.
    repeat match goal with E : Byte.eqb c _ = false |- _ => rewrite E; clear E end.
    reflexivity.
  - intros v t s' H.
    pose proof (ReadValue_unknown_at _ _ v t s' (Nat.le_refl _) H) as Hu.
    rewrite ReadValue_unfold in H.
    destruct (ReadValue_body_unknown _ c s ReadValue_reports_unknown v t s' H) as [Hk Hc].
    split; [exact Hk|]. split; [exact Hc|exact Hu].
  - intros t s' Hu. exact (unknown_at_fails _ _ _ Hu).
  - intros line rest Hl Hlen.
    rewrite ReadValue_unfold. unfold ReadValue_body. cbn [ReadByte]. cbv iota beta.
    change (Byte.eqb TypeInt TypeSimpleString || Byte.eqb TypeInt TypeError) with false.
    change (Byte.eqb TypeInt TypeInt) with true. cbv iota.
    rewrite ReadLine_crlf by assumption. reflexivity.
  - intros line. unfold Atoi, ParseInt. destruct line as [|c0 l]; [reflexivity|].
    destruct (ParseUint _) as [un [[|]|]]; cbv zeta;
      repeat match goal with |- context [if ?b then _ else _] => destruct b end;
      simpl; intros H; try discriminate H; reflexivity.
Qed.

(** ** PrintVal *)

Lemma PrintVal_Array (T : GoText) (raw : bool) (l : list TypedVal) (outs : list bytes) :
  Forall2 (fun v out => PrintVal T v raw = Ret out) l outs ->
  PrintVal T (Array l) raw = Ret (numbered raw 0 outs).
Proof.
  intros H. unfold Array. cbn [PrintVal].
  change (Byte.eqb TypeArray TypeSimpleString) with false.
  change (Byte.eqb TypeArray TypeBulkString) with false.
  change (Byte.eqb TypeArray TypeError) with false.
  change (Byte.eqb TypeArray TypeInt) with false.
  change (Byte.eqb TypeArray TypeArray) with true. cbv iota.
  generalize 0 as i.
  induction H as [|v out l outs Hv _ IH]; intros i; [reflexivity|].
  rewrite Hv. cbn [bind]. rewrite IH. reflexivity.
Qed.



(** ** The session: one command *)

Lemma Send_written (input : bytes) (c : Connection) (k : Conn) :
  conn c = Some k -> Send input c = Ret (written input c, next_write c).
Proof.
  intros H. unfold Send, written, next_write. rewrite H.
  destruct (writeResults k); reflexivity.
Qed.

Lemma args_written (input : bytes) (c : Connection) : args (written input c) = args c.
Proof. unfold written. destruct (conn c) as [k|]; [destruct (writeResults k)|]; reflexivity. Qed.

Lemma bufReader_written (input : bytes) (c : Connection) :
  bufReader (written input c) = bufReader c.
Proof. unfold written. destruct (conn c) as [k|]; [destruct (writeResults k)|]; reflexivity. Qed.

Lemma trace_written (input : bytes) (c : Connection) :
  trace (written input c) = EvWrite (input ++ CRLF) :: trace c.
Proof. unfold written. destruct (conn c) as [k|]; [destruct (writeResults k)|]; reflexivity. Qed.

(** A command whose write succeeds and whose reply decodes comes back with
    the decoded value; nothing is printed. *)
Lemma Exec_reply (input : bytes) (c : Connection) (k : Conn) (s rest : stream) (v : TypedVal) :
  conn c = Some k -> next_write c = None -> bufReader c = Some s ->
  ReadValue s = Ret (Some v, None, rest) ->
  (Type_ v = TypeError -> exists t, Val v = VString t) ->
  Exec input c = Ret (set_bufReader (Some rest) (written input c), Some v, None).
Proof.
  intros Hk Hw Hs Hv Hty. unfold Exec. rewrite (Send_written input c k Hk), Hw.
  cbn [bind]. cbv beta iota zeta. unfold ReceiveValue.
  rewrite bufReader_written, Hs, Hv. cbn [bind]. cbv beta iota zeta.
  destruct (Byte.eqb (Type_ v) TypeError) eqn:E; [|reflexivity].
  apply Byte.byte_dec_bl in E. destruct (Hty E) as [t ->]. reflexivity.
Qed.

Lemma Connection_PrintVal_string (T : GoText) (t : RType) (s : bytes) (c : Connection) :
  Byte.eqb t TypeArray = false ->
  exists out, Connection_PrintVal T (mkTypedVal t (VString s)) c = Ret (emit (EvOut out) c).
Proof.
  intros Ht. unfold Connection_PrintVal. cbn [PrintVal]. rewrite Ht.
  repeat match goal with |- context [if ?b then _ else _] => destruct b end;
    eexists; reflexivity.
Qed.

(** C7, as the code has it: after [ExecPrint] of a command whose first field
    is SELECT in any case, when the reply is the simple string OK the
    tracked index is what [Atoi] makes of the second field of the command
    text; when the reply is an error the tracked index is left as it was. *)
Theorem ExecPrint_select (T : GoText) (input cmd arg text : bytes) (more : list bytes)
    (c : Connection) (k : Conn) (s rest : stream) :
  Fields T input = cmd :: arg :: more ->
  EqualFold T cmd (lit "select") = true ->
  conn c = Some k -> next_write c = None -> bufReader c = Some s ->
  (ReadValue s = Ret (Some (mkTypedVal TypeSimpleString (VString (lit "OK"))), None, rest) ->
   exists c', ExecPrint T input c = Ret (c', None) /\ Db (args c') = fst (Atoi arg) /\
              (forall n, minInt <= n <= maxInt -> arg = Itoa n -> Db (args c') = n)) /\
  (ReadValue s = Ret (Some (mkTypedVal TypeError (VString text)), None, rest) ->
   lit "OK" <> text ->
   exists c', ExecPrint T input c = Ret (c', None) /\ Db (args c') = Db (args c)).
Proof.
  intros Hf He Hk Hw Hs. split.
  - intros Hv. unfold ExecPrint.
    rewrite (Exec_reply input c k s rest _ Hk Hw Hs Hv) by (intros H; discriminate H).
    cbn [bind]. cbv beta iota zeta. unfold isCmd. rewrite Hf, He. cbn [bind Val assert_string].
    set (c1 := set_bufReader (Some rest) (written input c)).
    assert (H2 : exists c2,
      (if EqualFold T cmd (lit "info")
       then Ret (PrintRawString (lit "OK") c1)
       else Connection_PrintVal T (mkTypedVal TypeSimpleString (VString (lit "OK"))) c1)
      = Ret c2).
    { destruct (EqualFold T cmd (lit "info")); [eexists; reflexivity|].
      destruct (Connection_PrintVal_string T TypeSimpleString (lit "OK") c1 eq_refl) as [out ->].
      eexists; reflexivity. }
    destruct H2 as [c2 ->]. cbn [bind].
    change (bytes_eqb (lit "OK") (lit "OK")) with true. cbv iota.
    eexists. split; [reflexivity|]. split; [reflexivity|].
    intros n Hn ->. cbn [args set_args Db set_Db]. rewrite Atoi_Itoa by exact Hn. reflexivity.
  - intros Hv Hne. unfold ExecPrint.
    rewrite (Exec_reply input c k s rest _ Hk Hw Hs Hv) by (intros _; eexists; reflexivity).
    cbn [bind]. cbv beta iota zeta. unfold isCmd. rewrite Hf, He. cbn [bind Val assert_string].
    set (c1 := set_bufReader (Some rest) (written input c)).
    assert (Ha : args c1 = args c) by apply args_written.
    assert (H2 : exists c2,
      (if EqualFold T cmd (lit "info")
       then Ret (PrintRawString text c1)
       else Connection_PrintVal T (mkTypedVal TypeError (VString text)) c1)
      = Ret c2 /\ args c2 = args c).
    { destruct (EqualFold T cmd (lit "info")); [eexists; split; [reflexivity|exact Ha]|].
      destruct (Connection_PrintVal_string T TypeError text c1 eq_refl) as [out ->].
      eexists; split; [reflexivity|exact Ha]. }
    destruct H2 as (c2 & -> & Ha2). cbn [bind].
    destruct (bytes_eqb text (lit "OK")) eqn:Eq.
    + apply bytes_eqb_eq in Eq. congruence.
    + exists c2. split; [reflexivity|]. rewrite Ha2. reflexivity.
Qed.

(** ** The session: the handshake *)

Lemma Exec_connected (input : bytes) (c c' : Connection) tv err :
  Exec input c = Ret (c', tv, err) -> connected c' = connected c.
Proof.
  unfold Exec, Send, ReceiveValue. intros H.
  destruct (conn c) as [k|]; [|discriminate H].
  destruct (writeResults k) as [|[e|] rs]; cbn [bind] in H; cbv beta iota zeta in H;
    cbn [bufReader set_conn emit] in H;
    try (injection H as <- _ _; reflexivity);
    (destruct (bufReader c) as [s|]; [|discriminate H]);
    (destruct (ReadValue s) as [[[v e] s']| |]; cbn [bind] in H; try discriminate H);
    cbv beta iota zeta in H;
    (destruct e; [injection H as <- _ _; reflexivity|]);
    (destruct v as [v|]; [|discriminate H]);
    (destruct (Byte.eqb (Type_ v) TypeError);
     [destruct (Val v); try discriminate H|]);
    injection H as <- _ _; reflexivity.
Qed.

(** An error that [Exec] returns has been printed by it. *)
Lemma Exec_error_printed (input : bytes) (c c' : Connection) tv e :
  Exec input c = Ret (c', tv, Some e) -> exists tr, trace c' = EvOut (Error_ e) :: tr.
Proof.
  unfold Exec, Send, ReceiveValue. intros H.
  destruct (conn c) as [k|]; [|discriminate H].
  destruct (writeResults k) as [|[e0|] rs]; cbn [bind] in H; cbv beta iota zeta in H;
    cbn [bufReader set_conn emit] in H;
    try (injection H as <- _ <-; eexists; reflexivity);
    (destruct (bufReader c) as [s|]; [|discriminate H]);
    (destruct (ReadValue s) as [[[v e1] s']| |]; cbn [bind] in H; try discriminate H);
    cbv beta iota zeta in H;
    (destruct e1; [injection H as <- _ <-; eexists; reflexivity|]);
    (destruct v as [v|]; [|discriminate H]);
    (destruct (Byte.eqb (Type_ v) TypeError);
     [destruct (Val v); try discriminate H|]);
    discriminate H.
Qed.

(** A failed write and a failed decoding both come back from [Exec] as
    the returned error, printed once; neither panics. *)
Lemma Exec_write_error (input : bytes) (c : Connection) (k : Conn) (e : error) :
  conn c = Some k -> next_write c = Some e ->
  Exec input c = Ret (PrintRawString (Error_ e) (written input c), None, Some e).
Proof.
  intros Hk Hw. unfold Exec. rewrite (Send_written input c k Hk), Hw. reflexivity.
Qed.

Lemma Exec_decode_error (input : bytes) (c : Connection) (k : Conn) (s s' : stream)
    (v : option TypedVal) (e : error) :
  conn c = Some k -> next_write c = None -> bufReader c = Some s ->
  ReadValue s = Ret (v, Some e, s') ->
  Exec input c
    = Ret (PrintRawString (Error_ e) (set_bufReader (Some s') (written input c)), None, Some e).
Proof.
  intros Hk Hw Hs Hv. unfold Exec. rewrite (Send_written input c k Hk), Hw.
  cbn [bind]. cbv beta iota zeta. unfold ReceiveValue.
  rewrite bufReader_written, Hs, Hv. reflexivity.
Qed.

(** An error that [Exec] returns is the error of the write or the error
    of the decoder. *)
Lemma Exec_error_cases (input : bytes) (c c' : Connection) tv e :
  Exec input c = Ret (c', tv, Some e) ->
  tv = None /\
  (next_write c = Some e \/
   exists s v s', bufReader c = Some s /\ ReadValue s = Ret (v, Some e, s')).
Proof.
  unfold Exec, Send, ReceiveValue, next_write. intros H.
  destruct (conn c) as [k|]; [|discriminate H].
  destruct (writeResults k) as [|[e0|] rs]; cbn [bind] in H; cbv beta iota zeta in H;
    cbn [bufReader set_conn emit] in H;
    try (injection H as _ <- <-; split; [reflexivity|left; reflexivity]);
    (destruct (bufReader c) as [s|]; [|discriminate H]);
    (destruct (ReadValue s) as [[[v e1] s']| |] eqn:ER; cbn [bind] in H; try discriminate H);
    cbv beta iota zeta in H;
    (destruct e1;
     [injection H as _ <- <-; split; [reflexivity|right; exists s, v, s'; split; [reflexivity|exact ER]]|]);
    (destruct v as [v|]; [|discriminate H]);
    (destruct (Byte.eqb (Type_ v) TypeError);
     [destruct (Val v); try discriminate H|]);
    discriminate H.
Qed.

Lemma auth_connected (T : GoText) (E : Env) (c c' : Connection) err :
  auth T E c = Ret (c', err) -> connected c' = connected c.
Proof.
  unfold auth. intros H.
  destruct (Askpass (args c)).
  - destruct (readPassword E) as [e|pw]; [discriminate H|]. cbn [bind] in H.
    cbv beta iota zeta in H.
    destruct pw as [|p pw]; [injection H as <- _; reflexivity|].
    match type of H with context [Exec ?i ?c0] =>
      destruct (Exec i c0) as [[[c2 tv] e2]| |] eqn:EX; cbn [bind] in H; try discriminate H end.
    apply Exec_connected in EX. cbv beta iota zeta in H.
    destruct e2; [injection H as <- _; exact EX|].
    destruct tv as [v|]; [|discriminate H].
    destruct (Byte.eqb (Type_ v) TypeError); injection H as <- _; exact EX.
  - cbn [bind] in H. cbv beta iota zeta in H.
    destruct (defaults _) as [|p pw]; [injection H as <- _; reflexivity|].
    match type of H with context [Exec ?i ?c0] =>
      destruct (Exec i c0) as [[[c2 tv] e2]| |] eqn:EX; cbn [bind] in H; try discriminate H end.
    apply Exec_connected in EX. cbv beta iota zeta in H.
    destruct e2; [injection H as <- _; exact EX|].
    destruct tv as [v|]; [|discriminate H].
    destruct (Byte.eqb (Type_ v) TypeError); injection H as <- _; exact EX.
Qed.

Lemma auth_error_printed (T : GoText) (E : Env) (c c' : Connection) e :
  auth T E c = Ret (c', Some e) -> exists tr, trace c' = EvOut (Error_ e) :: tr.
Proof.
  unfold auth. intros H.
  destruct (match Askpass (args c) with true => _ | false => _ end) as [[c1 pass]| |];
    cbn [bind] in H; try discriminate H. cbv beta iota zeta in H.
  destruct pass as [|p pw]; [discriminate H|].
  match type of H with context [Exec ?i ?c0] =>
    destruct (Exec i c0) as [[[c2 tv] e2]| |]; cbn [bind] in H; try discriminate H end.
  cbv beta iota zeta in H.
  destruct e2; [injection H as <- <-; eexists; reflexivity|].
  destruct tv as [v|]; [|discriminate H].
  destruct (Byte.eqb (Type_ v) TypeError); discriminate H.
Qed.

Lemma selectDb_connected (T : GoText) (c c' : Connection) err :
  selectDb T c = Ret (c', err) -> connected c' = connected c.
Proof.
  unfold selectDb. intros H.
  destruct (Db (args c) =? 0); [injection H as <- _; reflexivity|].
  match type of H with context [Exec ?i ?c0] =>
    destruct (Exec i c0) as [[[c2 tv] e2]| |] eqn:EX; cbn [bind] in H; try discriminate H end.
  apply Exec_connected in EX. cbv beta iota zeta in H.
  destruct e2; [injection H as <- _; exact EX|].
  destruct tv as [v|]; [|discriminate H].
  destruct (Byte.eqb (Type_ v) TypeError); injection H as <- _; exact EX.
Qed.

Lemma selectDb_error_printed (T : GoText) (c c' : Connection) e :
  selectDb T c = Ret (c', Some e) -> exists tr, trace c' = EvOut (Error_ e) :: tr.
Proof.
  unfold selectDb. intros H.
  destruct (Db (args c) =? 0); [discriminate H|].
  match type of H with context [Exec ?i ?c0] =>
    destruct (Exec i c0) as [[[c2 tv] e2]| |]; cbn [bind] in H; try discriminate H end.
  cbv beta iota zeta in H.
  destruct e2; [injection H as <- <-; eexists; reflexivity|].
  destruct tv as [v|]; [|discriminate H].
  destruct (Byte.eqb (Type_ v) TypeError); discriminate H.
Qed.

Lemma Connect_dialed (T : GoText) (E : Env) (c : Connection) (k : Conn) :
  dial E = inr k -> (Tls (args c) = true -> tlsConfig E = None) ->
  Connect T E c =
  '(c2, err) <- auth T E (dialed k c) ;;
  match err with
  | None => '(c3, _) <- selectDb T c2 ;; Ret (c3, None)
  | Some _ => Ret (c2, None)
  end.
Proof.
  intros Hd Htls. unfold Connect. rewrite Hd.
  assert (Ha : args (Close c) = args c)
    by (unfold Close; destruct (conn c); reflexivity).
  rewrite Ha. destruct (Tls (args c)); [rewrite Htls by reflexivity|]; reflexivity.
Qed.

(** C10: once the dial has given a socket, the error result of [Connect] is
    nil and the session is marked connected: when the AUTH step fails with
    an error, and when the SELECT step ends in whatever way, the error is on
    the output and is not returned; so every return of [Connect] after a
    successful dial carries a nil error. *)
Theorem Connect_error_is_dial_error (T : GoText) (E : Env) (c : Connection) (k : Conn) :
  dial E = inr k -> (Tls (args c) = true -> tlsConfig E = None) ->
  (forall c2 e,
     auth T E (dialed k c) = Ret (c2, Some e) ->
     Connect T E c = Ret (c2, None) /\ connected c2 = true /\
     exists tr, trace c2 = EvOut (Error_ e) :: tr) /\
  (forall c2 c3 r,
     auth T E (dialed k c) = Ret (c2, None) -> selectDb T c2 = Ret (c3, r) ->
     Connect T E c = Ret (c3, None) /\ connected c3 = true /\
     forall e, r = Some e -> exists tr, trace c3 = EvOut (Error_ e) :: tr) /\
  (forall c' err, Connect T E c = Ret (c', err) -> err = None /\ connected c' = true).
Proof.
  intros Hd Htls. rewrite (Connect_dialed T E c k Hd Htls).
  split; [|split].
  - intros c2 e Ha. rewrite Ha. cbn [bind]. cbv beta iota zeta.
    split; [reflexivity|]. split.
    + apply auth_connected in Ha. rewrite Ha. reflexivity.
    + exact (auth_error_printed T E _ _ _ Ha).
  - intros c2 c3 r Ha Hs. rewrite Ha. cbn [bind]. cbv beta iota zeta. rewrite Hs.
    cbn [bind]. cbv beta iota zeta. split; [reflexivity|]. split.
    + apply auth_connected in Ha. apply selectDb_connected in Hs.
      rewrite Hs, Ha. reflexivity.
    + intros e ->. exact (selectDb_error_printed T _ _ _ Hs).
  - intros c' err H.
    destruct (auth T E (dialed k c)) as [[c2 e2]| |] eqn:Ha; cbn [bind] in H;
      try discriminate H. cbv beta iota zeta in H.
    apply auth_connected in Ha.
    destruct e2.
    + injection H as <- <-. split; [reflexivity|]. rewrite Ha. reflexivity.
    + destruct (selectDb T c2) as [[c3 r]| |] eqn:Hs; cbn [bind] in H;
        try discriminate H. cbv beta iota zeta in H.
      apply selectDb_connected in Hs.
      injection H as <- <-. split; [reflexivity|]. rewrite Hs, Ha. reflexivity.
Qed.

(** ** The runner: repeat with interval *)

Lemma schedule_S (n : nat) (pause : bool) :
  schedule (S (S n)) pause = Run :: (if pause then [Pause] else []) ++ schedule (S n) pause.
Proof. reflexivity. Qed.

Lemma last_cons (a d : step) (l : list step) : l <> [] -> last (a :: l) d = last l d.
Proof. destruct l; [contradiction|reflexivity]. Qed.

Lemma schedule_nonempty (n : nat) (pause : bool) : schedule (S n) pause <> [].
Proof. destruct n; discriminate. Qed.

Lemma schedule_counts (n : nat) (pause : bool) :
  count_occ step_eq_dec (schedule n pause) Run = n /\
  count_occ step_eq_dec (schedule n pause) Pause = (if pause then pred n else 0%nat) /\
  (n <> 0%nat -> last (schedule n pause) Pause = Run).
Proof.
  induction n as [|n IH]; [destruct pause; repeat split; congruence|].
  destruct n as [|n]; [destruct pause; repeat split; reflexivity|].
  rewrite schedule_S. destruct IH as (IH1 & IH2 & IH3).
  destruct pause; cbn [app].
  - split; [|split].
    + rewrite count_occ_cons_eq, count_occ_cons_neq by congruence. rewrite IH1. reflexivity.
    + rewrite count_occ_cons_neq, count_occ_cons_eq by congruence. rewrite IH2. reflexivity.
    + intros _. specialize (IH3 ltac:(discriminate)).
      rewrite 2 last_cons; [exact IH3|apply schedule_nonempty|discriminate].
  - split; [|split].
    + rewrite count_occ_cons_eq by congruence. rewrite IH1. reflexivity.
    + rewrite count_occ_cons_neq by congruence. exact IH2.
    + intros _. specialize (IH3 ltac:(discriminate)).
      rewrite last_cons; [exact IH3|apply schedule_nonempty].
Qed.

Lemma repeat_loop_follow (exe : exeFunc) (dua N : Z) :
  keeps_Repeat exe -> forall fuel i c,
  Repeat (args c) = N -> fuel = Z.to_nat (N - i) ->
  repeat_loop exe fuel i dua c = follow exe dua (schedule fuel (0 <? dua)) c.
Proof.
  intros Hk. induction fuel as [|fuel IH]; intros i c HN Hf.
  - simpl. rewrite HN. destruct (Z.ltb_spec i N); [lia|reflexivity].
  - cbn [repeat_loop]. rewrite HN. destruct (Z.ltb_spec i N); [|lia].
    destruct fuel as [|fuel].
    + cbn [schedule follow].
      destruct (exe c) as [[c1 err]| |] eqn:Ex; cbn [bind]; try reflexivity.
      cbv beta iota zeta. destruct err; [reflexivity|].
      rewrite (Hk _ _ _ Ex), HN.
      destruct (Z.ltb_spec i (N - 1)); [lia|]. cbn [andb repeat_loop].
      rewrite (Hk _ _ _ Ex), HN. destruct (Z.ltb_spec (i + 1) N); [lia|reflexivity].
    + rewrite schedule_S. cbn [follow].
      destruct (exe c) as [[c1 err]| |] eqn:Ex; cbn [bind]; try reflexivity.
      cbv beta iota zeta. destruct err; [reflexivity|].
      rewrite (Hk _ _ _ Ex), HN.
      destruct (Z.ltb_spec i (N - 1)); [|lia]. cbn [andb].
      destruct (0 <? dua); cbn [app follow].
      * apply IH; [cbn [args emit]; rewrite (Hk _ _ _ Ex); exact HN|lia].
      * apply IH; [rewrite (Hk _ _ _ Ex); exact HN|lia].
Qed.

(** C8, as the code has it: with the connection made, a repeat count
    [N >= 1] runs the command along the schedule of [N] executions, pausing
    between two consecutive ones when the interval is positive, never after
    the last, and ending at the first failure with its error; the count 0
    runs the command once; a negative count runs nothing. *)
Theorem singleCmd_repeat (T : GoText) (E : Env) (a : Args) (tr : list event)
    (exe : exeFunc) (c1 : Connection) (N : Z) :
  keeps_Repeat exe ->
  Connect T E (NewConnection E a tr) = Ret (c1, None) ->
  Repeat (args c1) = N ->
  (1 <= N ->
   singleCmd T E a tr exe =
   '(c2, r) <- follow exe (IntervalNs (args c1))
                 (schedule (Z.to_nat N) (0 <? IntervalNs (args c1))) c1 ;;
   Ret (Close c2, r)) /\
  (N = 0 -> singleCmd T E a tr exe = '(c2, r) <- exe c1 ;; Ret (Close c2, r)) /\
  (N < 0 -> singleCmd T E a tr exe = Ret (Close c1, None)) /\
  (forall n pause,
     count_occ step_eq_dec (schedule n pause) Run = n /\
     count_occ step_eq_dec (schedule n pause) Pause = (if pause then pred n else 0%nat) /\
     (n <> 0%nat -> last (schedule n pause) Pause = Run)).
Proof.
  intros Hk Hc HN. unfold singleCmd. rewrite Hc. cbn [bind]. cbv beta iota zeta.
  rewrite HN. split; [|split; [|split]].
  - intros H1. destruct (Z.eqb_spec N 0); [lia|].
    rewrite (repeat_loop_follow exe (IntervalNs (args c1)) N Hk); [reflexivity|exact HN|].
    f_equal. lia.
  - intros ->. reflexivity.
  - intros H1. destruct (Z.eqb_spec N 0); [lia|].
    replace (Z.to_nat N) with 0%nat by lia. cbn [repeat_loop]. rewrite HN.
    destruct (Z.ltb_spec 0 N); [lia|]. reflexivity.
  - exact schedule_counts.
Qed.

Lemma Exec_args (input : bytes) (c c' : Connection) tv err :
  Exec input c = Ret (c', tv, err) -> args c' = args c /\ istty c' = istty c.
Proof.
  unfold Exec, Send, ReceiveValue. intros H.
  destruct (conn c) as [k|]; [|discriminate H].
  destruct (writeResults k) as [|[e|] rs]; cbn [bind] in H; cbv beta iota zeta in H;
    cbn [bufReader set_conn emit] in H;
    try (injection H as <- _ _; split; reflexivity);
    (destruct (bufReader c) as [s|]; [|discriminate H]);
    (destruct (ReadValue s) as [[[v e] s']| |]; cbn [bind] in H; try discriminate H);
    cbv beta iota zeta in H;
    (destruct e; [injection H as <- _ _; split; reflexivity|]);
    (destruct v as [v|]; [|discriminate H]);
    (destruct (Byte.eqb (Type_ v) TypeError);
     [destruct (Val v); try discriminate H|]);
    injection H as <- _ _; split; reflexivity.
Qed.

Lemma Connection_PrintVal_args (T : GoText) (tv : TypedVal) (c c' : Connection) :
  Connection_PrintVal T tv c = Ret c' ->
  args c' = args c /\ istty c' = istty c /\ conn c' = conn c /\ bufReader c' = bufReader c.
Proof.
  unfold Connection_PrintVal. intros H.
  destruct (PrintVal T tv _); cbn [bind] in H; try discriminate H.
  injection H as <-. repeat split; reflexivity.
Qed.

Lemma ExecPrint_keeps_Repeat (T : GoText) (input : bytes) : keeps_Repeat (ExecPrint T input).
Proof.
  intros c c' err H. unfold ExecPrint in H.
  destruct (Exec input c) as [[[c1 tv] e1]| |] eqn:EX; cbn [bind] in H; try discriminate H.
  apply Exec_args in EX. destruct EX as [EX _]. cbv beta iota zeta in H.
  destruct e1; [injection H as <- _; rewrite EX; reflexivity|].
  destruct tv as [tv|]; [|discriminate H].
  destruct (isCmd T input (lit "info")) as [info| |]; cbn [bind] in H; try discriminate H.
  assert (H2 : forall c2,
    (if info then str <- assert_string (Val tv) ;; Ret (PrintRawString str c1)
     else Connection_PrintVal T tv c1) = Ret c2 -> args c2 = args c).
  { intros c2 H2. destruct info.
    - destruct (assert_string (Val tv)); cbn [bind] in H2; try discriminate H2.
      injection H2 as <-. exact EX.
    - apply Connection_PrintVal_args in H2. destruct H2 as [H2 _]. congruence. }
  destruct (if info then _ else _) as [c2| |]; cbn [bind] in H; try discriminate H.
  specialize (H2 c2 eq_refl).
  destruct (isCmd T input (lit "select")) as [sel| |]; cbn [bind] in H; try discriminate H.
  destruct sel; [|injection H as <- _; rewrite H2; reflexivity].
  destruct (assert_string (Val tv)) as [str| |]; cbn [bind] in H; try discriminate H.
  destruct (bytes_eqb str (lit "OK")); [|injection H as <- _; rewrite H2; reflexivity].
  destruct (Fields T input) as [|f0 [|arg more]]; try discriminate H.
  injection H as <- _. cbn [args set_args set_Db Repeat]. rewrite H2. reflexivity.
Qed.

(** ** The runner: SCAN pagination *)

Lemma emit_all_frame (outs : list bytes) : forall c,
  args (emit_all outs c) = args c /\ conn (emit_all outs c) = conn c /\
  bufReader (emit_all outs c) = bufReader c /\ istty (emit_all outs c) = istty c /\
  trace (emit_all outs c) = rev (map EvOut outs) ++ trace c.
Proof.
  induction outs as [|out outs IH]; intros c; [repeat split; reflexivity|].
  unfold emit_all in *. cbn [fold_left map rev].
  destruct (IH (emit (EvOut out) c)) as (H1 & H2 & H3 & H4 & H5).
  rewrite H1, H2, H3, H4, H5. repeat split. rewrite <- app_assoc. reflexivity.
Qed.

Lemma print_each_outs (T : GoText) (keys : list TypedVal) (outs : list bytes) :
  forall c,
  Forall2 (fun v out => PrintVal T v (print_mode c) = Ret out) keys outs ->
  print_each T keys c = Ret (emit_all outs c).
Proof.
  revert outs. induction keys as [|v keys IH]; intros outs c H; inversion H; subst;
    [reflexivity|].
  cbn [print_each]. unfold Connection_PrintVal. fold (print_mode c).
  match goal with Hv : PrintVal _ _ _ = Ret _ |- _ => rewrite Hv end.
  cbn [bind]. rewrite IH with (outs := l'); [reflexivity|].
  assumption.
Qed.

Lemma ReadValue_consumes (s : stream) v rest :
  ReadValue s = Ret (v, None, rest) -> (length rest < length s)%nat.
Proof.
  intros H. pose proof (ReadValue_shrinks _ _ _ _ H) as Hs.
  destruct s as [|c s]; [discriminate H|]. simpl in *. lia.
Qed.

Lemma istty_written (input : bytes) (c : Connection) : istty (written input c) = istty c.
Proof. unfold written. destruct (conn c) as [k|]; [destruct (writeResults k)|]; reflexivity. Qed.

Lemma conn_written (input : bytes) (c : Connection) (k : Conn) :
  conn c = Some k -> writeResults k = [] -> conn (written input c) = Some k.
Proof. intros Hc Hw. unfold written. rewrite Hc, Hw. exact Hc. Qed.



(** ** The round trip *)

Lemma TypedVal_nested_ind (P : TypedVal -> Prop) :
  (forall t, P (mkTypedVal t VNil)) ->
  (forall t s, P (mkTypedVal t (VString s))) ->
  (forall t n, P (mkTypedVal t (VInt n))) ->
  (forall t l, Forall P l -> P (mkTypedVal t (VSlice l))) ->
  forall v, P v.
Proof.
  intros Hnil Hstr Hint Hsl.
  refine (fix F (v : TypedVal) : P v :=
            match v with
            | mkTypedVal t a =>
                match a with
                | VNil => Hnil t
                | VString s => Hstr t s
                | VInt n => Hint t n
                | VSlice l =>
                    Hsl t l ((fix G (l : list TypedVal) : Forall P l :=
                                match l with
                                | [] => Forall_nil P
                                | x :: r => Forall_cons x (F x) (G r)
                                end) l)
                end
            end).
Qed.

Lemma encode_slice (t : RType) (l : list TypedVal) :
  encode (mkTypedVal t (VSlice l)) =
  t :: Itoa (Z.of_nat (length l)) ++ CRLF ++ flat_map encode l.
Proof.
  reflexivity.
Qed.

Lemma read_elems_encoded (l : list TypedVal) :
  Forall (fun v => forall rest, ReadValue (encode v ++ rest) = Ret (Some v, None, rest)) l ->
  forall acc rest,
  read_elems ReadValue (length l) acc (flat_map encode l ++ rest)
    = Ret (inl (rev acc ++ l), rest).
Proof.
  induction 1 as [|v l Hv _ IH]; intros acc rest.
  - cbn [length read_elems flat_map app]. rewrite app_nil_r. reflexivity.
  - cbn [length read_elems flat_map]. rewrite <- app_assoc, Hv. cbn [bind].
    cbv beta iota zeta. rewrite IH. cbn [rev]. rewrite <- app_assoc. reflexivity.
Qed.

(** The round trip on the trees of the data model other than the null
    array: decoding the encoding gives the tree back, with a nil error, and
    leaves the reader right after the encoding. *)
Lemma ReadValue_encode (v : TypedVal) :
  well_shaped v -> forall rest, ReadValue (encode v ++ rest) = Ret (Some v, None, rest).
Proof.
  induction v as [t|t s|t n|t l IH] using TypedVal_nested_ind; intros Hw rest;
    inversion Hw; subst.
  - exact (ReadValue_bulk_header (-1) rest ltac:(unfold minInt, maxInt; lia)).
  - cbn [encode]. change (Byte.eqb TypeSimpleString TypeBulkString) with false. cbv iota.
    rewrite <- app_comm_cons, <- !app_assoc.
    rewrite ReadValue_unfold. unfold ReadValue_body. cbn [ReadByte]. cbv iota beta.
    change (Byte.eqb TypeSimpleString TypeSimpleString || Byte.eqb TypeSimpleString TypeError)
      with true. cbv iota.
    rewrite ReadLine_crlf by assumption. reflexivity.
  - cbn [encode]. change (Byte.eqb TypeError TypeBulkString) with false. cbv iota.
    rewrite <- app_comm_cons, <- !app_assoc.
    rewrite ReadValue_unfold. unfold ReadValue_body. cbn [ReadByte]. cbv iota beta.
    change (Byte.eqb TypeError TypeSimpleString || Byte.eqb TypeError TypeError)
      with true. cbv iota.
    rewrite ReadLine_crlf by assumption. reflexivity.
  - cbn [encode]. change (Byte.eqb TypeBulkString TypeBulkString) with true. cbv iota.
    rewrite <- app_comm_cons, <- !app_assoc.
    match goal with Hm : make 1 _ = Ret tt |- _ =>
      pose proof (make_int 1 _ ltac:(lia) Hm) as Hi; rename Hm into Hmake end.
    rewrite ReadValue_bulk_header by (unfold minInt, maxInt in *; lia).
    destruct (Z.eqb_spec (Z.of_nat (length s)) (-1)); [lia|].
    destruct s as [|b s].
    + cbn [length Z.of_nat Z.eqb app].
      change (CRLF ++ rest) with ([] ++ CRLF ++ rest).
      rewrite ReadLine_crlf by (simpl; auto; unfold defaultBufSize; lia). reflexivity.
    + destruct (Z.eqb_spec (Z.of_nat (length (b :: s))) 0); [simpl in *; lia|].
      rewrite Hmake. cbn [bind].
      rewrite ReadAtLeast_exact.
      change (CRLF ++ rest) with ([] ++ CRLF ++ rest).
      rewrite ReadLine_crlf by (simpl; auto; unfold defaultBufSize; lia). reflexivity.
  - cbn [encode]. rewrite <- app_comm_cons, <- !app_assoc.
    rewrite ReadValue_unfold. unfold ReadValue_body. cbn [ReadByte]. cbv iota beta.
    change (Byte.eqb TypeInt TypeSimpleString || Byte.eqb TypeInt TypeError) with false.
    change (Byte.eqb TypeInt TypeInt) with true. cbv iota.
    rewrite ReadLine_Itoa by assumption. rewrite Atoi_Itoa by assumption. reflexivity.
  - rewrite encode_slice, <- app_comm_cons, <- !app_assoc.
    match goal with Hm : make 8 _ = Ret tt |- _ =>
      pose proof (make_int 8 _ ltac:(lia) Hm) as Hi; rename Hm into Hmake end.
    rewrite ReadValue_array_header by (unfold minInt, maxInt in *; lia).
    rewrite Hmake. cbn [bind].
    rewrite Nat2Z.id, read_elems_encoded; [reflexivity|].
    rewrite Forall_forall in *. intros v Hin. apply IH; auto.
Qed.

(** ** What a decoded value looks like *)

(** A nil result comes with an error: the loop of the array case never
    meets a nil element with a nil error. *)
Lemma ReadValue_res_or_err (s : stream) err s' :
  ReadValue s = Ret (None, err, s') -> err <> None.
Proof.
  rewrite ReadValue_unfold. unfold ReadValue_body.
  destruct (ReadByte s) as [[typ e0] s1]. destruct e0; [discriminate|].
  repeat match goal with
         | |- context [ReadLine ?x] => destruct (ReadLine x) as [[[? ?] ?] ?]
         | |- context [ReadAtLeast ?x ?n] => destruct (ReadAtLeast x n) as [[? [?|]] ?]
         | |- context [if ?b then _ else _] => destruct b
         | |- context [make ?e ?n] => destruct (make e n) as [[]| |]; cbn [bind]
         end; cbv zeta; try discriminate.
  all: destruct (read_elems _ _ _ _) as [[[slots|failure] after]| |]; cbn [bind];
    try discriminate.
  all: intros H; injection H as <- _; discriminate.
Qed.

Lemma read_elems_all (P : TypedVal -> Prop) (rd : stream -> outcome readResult) :
  (forall s v s', rd s = Ret (Some v, None, s') -> P v) ->
  forall n acc s l s',
  Forall P acc -> read_elems rd n acc s = Ret (inl l, s') -> Forall P l.
Proof.
  intros Hrd. induction n as [|n IH]; intros acc s l s' Hacc H; simpl in H.
  - injection H as <- _. apply Forall_rev. exact Hacc.
  - destruct (rd s) as [[[v err] s1]| |] eqn:E; try discriminate H. simpl in H.
    destruct err; [discriminate H|]. destruct v as [v|]; [|discriminate H].
    apply (IH _ _ _ _ (Forall_cons v (Hrd _ _ _ E) Hacc) H).
Qed.

Lemma PrintVal_outs (T : GoText) (raw : bool) (l : list TypedVal) :
  Forall (fun v => exists out, PrintVal T v raw = Ret out) l ->
  exists outs, Forall2 (fun v out => PrintVal T v raw = Ret out) l outs.
Proof.
  induction 1 as [|v l [out Hv] _ [outs IH]]; [exists []; constructor|].
  exists (out :: outs). constructor; assumption.
Qed.

Lemma ReadValue_body_decoded (rd : stream -> outcome readResult) (s : stream) v s' :
  (forall s v s', rd s = Ret (Some v, None, s') -> decoded v) ->
  ReadValue_body rd s = Ret (Some v, None, s') -> decoded v.
Proof.
  intros Hrd. unfold ReadValue_body.
  destruct (ReadByte s) as [[typ e0] s1]. destruct e0; [discriminate|].
  destruct (Byte.eqb typ TypeSimpleString || Byte.eqb typ TypeError) eqn:E1.
  { destruct (ReadLine s1) as [[[result pre] e1] s2]. intros H. injection H as <- _ _.
    apply orb_true_iff in E1.
    destruct E1 as [E|E]; apply Byte.byte_dec_bl in E; subst typ;
      (apply decoded_scalar; [reflexivity|discriminate]). }
  destruct (Byte.eqb typ TypeInt) eqn:E2.
  { destruct (ReadLine s1) as [[[result pre] e1] s2]. intros H. injection H as <- _ _.
    apply Byte.byte_dec_bl in E2; subst typ.
    apply decoded_scalar; [reflexivity|discriminate]. }
  destruct (Byte.eqb typ TypeBulkString) eqn:E3.
  { apply Byte.byte_dec_bl in E3; subst typ.
    destruct (ReadLine s1) as [[[result pre] e1] s2]. cbv zeta.
    repeat match goal with
           | |- context [ReadLine ?x] => destruct (ReadLine x) as [[[? ?] ?] ?]
           | |- context [ReadAtLeast ?x ?n] => destruct (ReadAtLeast x n) as [[? [?|]] ?]
           | |- context [if ?b then _ else _] => destruct b
           | |- context [make ?e ?n] => destruct (make e n) as [[]| |]; cbn [bind]
           end; try discriminate;
      intros H; injection H as <- _ _; (apply decoded_scalar; [reflexivity|discriminate]). }
  destruct (Byte.eqb typ TypeArray) eqn:E4; [|discriminate].
  apply Byte.byte_dec_bl in E4; subst typ.
  destruct (ReadLine s1) as [[[result pre] e1] s2]. cbv zeta.
  destruct (make _ (fst (Atoi result))) as [[]| |]; cbn [bind]; try discriminate.
  destruct (read_elems rd _ [] s2) as [[[res0|e] s3]| |] eqn:ER; cbn [bind];
    try discriminate.
  intros H. injection H as <- _ _.
  pose proof (read_elems_all decoded rd Hrd _ _ _ _ _ (Forall_nil _) ER) as Hall.
  apply decoded_array. rewrite Forall_forall in Hall. exact Hall.
Qed.

(** Whatever [ReadValue] returns with a nil error has the decoded shape. *)
Lemma ReadValue_decoded (s : stream) v s' :
  ReadValue s = Ret (Some v, None, s') -> decoded v.
Proof.
  assert (H : forall fuel s v s', ReadValue_fuel fuel s = Ret (Some v, None, s') -> decoded v).
  { induction fuel as [|fuel IH]; intros s0 v0 s0' H; [discriminate H|].
    exact (ReadValue_body_decoded _ _ _ _ IH H). }
  apply H.
Qed.

(** A value of the decoded shape is rendered without a panic, in either
    mode. *)
Lemma decoded_prints (v : TypedVal) : decoded v -> prints v.
Proof.
  induction v as [t|t s|t n|t l IH] using TypedVal_nested_ind; intros Hd T raw;
    inversion Hd; subst;
    try (cbn [PrintVal];
         repeat match goal with
                | H : Byte.eqb _ TypeArray = false |- _ => rewrite H; clear H
                | |- context [if ?b then _ else _] => destruct b
                end; eexists; reflexivity).
  destruct (PrintVal_outs T raw l) as [outs Houts].
  - rewrite Forall_forall in *. intros x Hx. apply IH; auto.
  - eexists. exact (PrintVal_Array T raw l outs Houts).
Qed.

Lemma ReadValue_prints (s : stream) v s' :
  ReadValue s = Ret (Some v, None, s') -> prints v.
Proof. intros H. exact (decoded_prints v (ReadValue_decoded s v s' H)). Qed.

(** The keys of a page that came off the wire have renderings: the
    premise of [paged] on the keys is met by every decoded reply. *)
Lemma decoded_keys_print (T : GoText) (raw : bool) (s s' : stream)
    (first second : TypedVal) (more keys : list TypedVal) :
  ReadValue s = Ret (Some (mkTypedVal TypeArray (VSlice (first :: second :: more))), None, s') ->
  Val second = VSlice keys ->
  exists outs, Forall2 (fun v out => PrintVal T v raw = Ret out) keys outs.
Proof.
  intros Hv Hk. apply ReadValue_decoded in Hv.
  inversion Hv as [t a Ht Ha|l Hl]; subst; [discriminate Ht|].
  specialize (Hl second ltac:(right; left; reflexivity)).
  destruct second as [t2 a2]. cbn [Val] in Hk. subst a2.
  inversion Hl as [t a Ht Ha|l Hkeys]; subst; [exfalso; exact (Ha keys eq_refl)|].
  apply PrintVal_outs. rewrite Forall_forall. intros x Hx.
  exact (decoded_prints x (Hkeys x Hx) T raw).
Qed.

(** ** The closures of main.go keep the repeat count; the fuel of the
    pagination loop is enough *)

Lemma Exec_reply_inv (input : bytes) (c c1 : Connection) (v : TypedVal) :
  Exec input c = Ret (c1, Some v, None) ->
  exists s s', bufReader c = Some s /\ bufReader c1 = Some s' /\
               ReadValue s = Ret (Some v, None, s') /\ conn c1 <> None.
Proof.
  unfold Exec, Send, ReceiveValue. intros H.
  destruct (conn c) as [k|] eqn:Hc; [|discriminate H].
  destruct (writeResults k) as [|[e|] rs]; cbn [bind] in H; cbv beta iota zeta in H;
    cbn [bufReader set_conn emit] in H; try discriminate H;
    (destruct (bufReader c) as [s|]; [|discriminate H]);
    (destruct (ReadValue s) as [[[v0 e] s']| |] eqn:ER; cbn [bind] in H; try discriminate H);
    cbv beta iota zeta in H;
    (destruct e; [discriminate H|]);
    (destruct v0 as [v0|]; [|discriminate H]);
    (destruct (Byte.eqb (Type_ v0) TypeError);
     [destruct (Val v0); try discriminate H|]);
    injection H as <- <-; exists s, s';
    (split; [reflexivity|split; [reflexivity|split; [exact ER|cbn; try rewrite Hc; discriminate]]]).
Qed.

Lemma Exec_total (input : bytes) (c : Connection) : Exec input c <> NoFuel.
Proof.
  unfold Exec, Send, ReceiveValue.
  destruct (conn c) as [k|]; [|discriminate].
  destruct (writeResults k) as [|[e|] rs]; cbn [bind]; cbv beta iota zeta;
    cbn [bufReader set_conn emit]; try discriminate;
    (destruct (bufReader c) as [s|]; [|discriminate]);
    pose proof (ReadValue_total s) as Ht;
    (destruct (ReadValue s) as [[[v0 e] s']| |]; cbn [bind]; try discriminate;
     try contradiction);
    cbv beta iota zeta;
    (destruct e; [discriminate|]);
    (destruct v0 as [v0|]; [|discriminate]);
    (destruct (Byte.eqb (Type_ v0) TypeError);
     [destruct (Val v0); discriminate|discriminate]).
Qed.

Lemma print_each_frame (T : GoText) (items : list TypedVal) : forall c c',
  print_each T items c = Ret c' ->
  args c' = args c /\ bufReader c' = bufReader c.
Proof.
  induction items as [|v items IH]; intros c c' H; cbn [print_each] in H.
  - injection H as <-. split; reflexivity.
  - destruct (Connection_PrintVal T v c) as [c1| |] eqn:E; cbn [bind] in H;
      try discriminate H.
    apply Connection_PrintVal_args in E. destruct E as (E1 & _ & _ & E4).
    apply IH in H. destruct H as [H1 H2]. split; congruence.
Qed.

Lemma print_each_total (T : GoText) (items : list TypedVal) : forall c,
  Forall prints items -> exists c', print_each T items c = Ret c'.
Proof.
  intros c H. revert c.
  induction H as [|v items Hv _ IH]; intros c; [eexists; reflexivity|].
  cbn [print_each]. unfold Connection_PrintVal.
  destruct (Hv T (if NoRaw (args c) then false else Raw (args c) || negb (istty c)))
    as [out ->].
  cbn [bind]. apply IH.
Qed.

Lemma scan_loop_args (T : GoText) (fuel : nat) : forall cursor c c' err,
  scan_loop T fuel cursor c = Ret (c', err) -> args c' = args c.
Proof.
  induction fuel as [|fuel IH]; intros cursor c c' err H; [discriminate H|].
  cbn [scan_loop] in H.
  destruct (Exec _ c) as [[[c1 tv] e1]| |] eqn:EX; cbn [bind] in H; try discriminate H.
  apply Exec_args in EX. destruct EX as [EX _]. cbv beta iota zeta in H.
  destruct e1; [injection H as <- _; exact EX|].
  destruct tv as [tv|]; [|discriminate H].
  destruct (assert_slice (Val tv)) as [top| |]; cbn [bind] in H; try discriminate H.
  destruct (index top 1) as [second| |]; cbn [bind] in H; try discriminate H.
  destruct (assert_slice (Val second)) as [keys| |]; cbn [bind] in H; try discriminate H.
  destruct (print_each T keys c1) as [c2| |] eqn:EP; cbn [bind] in H; try discriminate H.
  apply print_each_frame in EP. destruct EP as [EP _].
  destruct (index top 0) as [first| |]; cbn [bind] in H; try discriminate H.
  destruct (assert_string (Val first)) as [cursor'| |]; cbn [bind] in H; try discriminate H.
  destruct (bytes_eqb cursor' (lit "0")).
  - injection H as <- _. congruence.
  - apply IH in H. congruence.
Qed.

Lemma scan_pages_keeps_Repeat (T : GoText) : keeps_Repeat (scan_pages T).
Proof.
  intros c c' err H. unfold scan_pages in H. apply scan_loop_args in H.
  rewrite H. reflexivity.
Qed.

Lemma PrintVal_total (T : GoText) (raw : bool) (v : TypedVal) : PrintVal T v raw <> NoFuel.
Proof.
  induction v as [t|t s|t n|t l IHl] using TypedVal_nested_ind; cbn [PrintVal];
    try (repeat match goal with |- context [if ?b then _ else _] => destruct b end;
         discriminate).
  destruct (Byte.eqb t TypeSimpleString); [discriminate|].
  destruct (Byte.eqb t TypeBulkString); [discriminate|].
  destruct (Byte.eqb t TypeError); [discriminate|].
  destruct (Byte.eqb t TypeInt); [discriminate|].
  destruct (Byte.eqb t TypeArray); [|discriminate].
  generalize 0 as i. induction IHl as [|x l Hx _ IHl']; intros i; [discriminate|].
  destruct (PrintVal T x raw); cbn [bind]; try discriminate; [|contradiction].
  specialize (IHl' (i + 1)).
  match goal with |- context [bind ?m _] => destruct m end; cbn [bind];
    try discriminate; contradiction.
Qed.

Lemma print_each_fuel (T : GoText) (items : list TypedVal) : forall c,
  print_each T items c <> NoFuel.
Proof.
  induction items as [|v items IH]; intros c; cbn [print_each]; [discriminate|].
  unfold Connection_PrintVal.
  pose proof (PrintVal_total T (if NoRaw (args c) then false else Raw (args c) || negb (istty c)) v)
    as Hv.
  destruct (PrintVal T v _); cbn [bind]; try discriminate; [apply IH|contradiction].
Qed.

(** The pagination loop returns or panics: a page that decodes takes at
    least one byte off the stream, so the fuel of [scan_pages] never runs
    out. *)
Lemma scan_pages_total (T : GoText) (c : Connection) : scan_pages T c <> NoFuel.
Proof.
  assert (H : forall fuel cursor c,
            (length (match bufReader c with Some s => s | None => [] end) < fuel)%nat ->
            scan_loop T fuel cursor c <> NoFuel).
  { induction fuel as [|fuel IH]; intros cursor c0 Hlen; [lia|].
    cbn [scan_loop].
    pose proof (Exec_total (scan_command cursor (args c0)) c0) as Ht.
    destruct (Exec _ c0) as [[[c1 tv] e1]| |] eqn:EX; cbn [bind]; try discriminate;
      [|contradiction].
    cbv beta iota zeta. destruct e1; [discriminate|].
    destruct tv as [tv|]; [|discriminate].
    apply Exec_reply_inv in EX. destruct EX as (s & s' & Hb & Hb1 & Hv & _).
    pose proof (ReadValue_prints _ _ _ Hv) as Hp.
    apply ReadValue_consumes in Hv. rewrite Hb in Hlen.
    destruct (Val tv) as [|?|?|top]; cbn [assert_slice bind]; try discriminate.
    unfold index at 1. destruct (nth_error top 1) as [second|]; cbn [bind];
      try discriminate.
    destruct (Val second) as [|?|?|keys]; cbn [assert_slice bind]; try discriminate.
    destruct (print_each T keys c1) as [c2| |] eqn:EP; cbn [bind]; try discriminate.
    - apply print_each_frame in EP. destruct EP as [_ EP].
      unfold index. destruct (nth_error top 0) as [first|]; cbn [bind];
        try discriminate.
      destruct (Val first) as [|cursor'|?|?]; cbn [assert_string bind]; try discriminate.
      destruct (bytes_eqb cursor' (lit "0")); [discriminate|].
      apply IH. rewrite EP, Hb1. lia.
    - exfalso. exact (print_each_fuel T keys c1 EP). }
  unfold scan_pages. apply H. lia.
Qed.

(** * More of the code *)

(** ** protocal.go: replies one after the other *)

(** X1: the round trip, reply after reply.  A sequence of trees of the data
    model (no null array, lines that fit the buffer, lengths for which the
    runtime makes the slice), encoded one after the
    other, is decoded by as many calls of [ReadValue], each returning its
    tree with a nil error and leaving the reader at the start of the next
    encoding; what follows the last encoding is left unread. *)
Theorem ReadValue_round_trip (vs : list TypedVal) (rest : bytes) :
  Forall well_shaped vs ->
  decodes (length vs) (flat_map encode vs ++ rest) vs rest.
Proof.
  induction 1 as [|v vs Hv _ IH]; [apply decodes_nil|].
  cbn [length flat_map]. rewrite <- app_assoc.
  eapply decodes_cons; [apply ReadValue_encode; exact Hv|exact IH].
Qed.

(** ** protocal.go: how a line ends *)

Lemma ReadSlice_room_eof (room : nat) (l : bytes) :
  ~ In LF l -> (length l < room)%nat ->
  ReadSlice_room room l = (l, Some SliceEOF, []).
Proof.
  revert l. induction room as [|room IH]; intros l Hl Hlen; [lia|].
  destruct l as [|c l]; simpl; [reflexivity|].
  rewrite byte_eqb_neq by (intros ->; apply Hl; left; reflexivity).
  rewrite IH; [reflexivity| |simpl in Hlen; lia].
  intros Hin. apply Hl. right. exact Hin.
Qed.

Lemma ReadSlice_room_full (room : nat) (l rest : bytes) :
  ~ In LF l -> length l = room ->
  ReadSlice_room room (l ++ rest) = (l, Some SliceBufferFull, rest).
Proof.
  revert l. induction room as [|room IH]; intros l Hl Hlen.
  - destruct l; [reflexivity|discriminate Hlen].
  - destruct l as [|c l]; [discriminate Hlen|]. simpl.
    rewrite byte_eqb_neq by (intros ->; apply Hl; left; reflexivity).
    rewrite IH; [reflexivity| |simpl in Hlen; lia].
    intros Hin. apply Hl. right. exact Hin.
Qed.

Lemma ends_with_not_in (b : byte) (l : bytes) : ~ In b l -> ends_with b l = false.
Proof.
  intros H. unfold ends_with. destruct (rev l) as [|c r] eqn:E; [reflexivity|].
  apply byte_eqb_neq. intros ->. apply H. apply in_rev. rewrite E. left. reflexivity.
Qed.

(** A line that ends in a bare LF. *)
Lemma ReadLine_lf (l rest : bytes) :
  ~ In LF l -> ends_with CR l = false -> (length l + 1 <= defaultBufSize)%nat ->
  ReadLine (l ++ LF :: rest) = (l, false, None, rest).
Proof.
  intros Hl Hcr Hlen. unfold ReadLine, ReadSlice.
  rewrite ReadSlice_room_line by (auto; lia).
  destruct (l ++ [LF]) eqn:E; [destruct l; discriminate E|]. rewrite <- E.
  rewrite ends_with_snoc, byte_eqb_refl, drop_last_1, Hcr. reflexivity.
Qed.

(** A line that the end of the stream cuts off. *)
Lemma ReadLine_eof (l : bytes) :
  ~ In LF l -> l <> [] -> (length l < defaultBufSize)%nat ->
  ReadLine l = (l, false, None, []).
Proof.
  intros Hl Hne Hlen. unfold ReadLine, ReadSlice.
  rewrite ReadSlice_room_eof by assumption.
  destruct l as [|c l]; [contradiction|].
  rewrite (ends_with_not_in LF (c :: l) Hl). reflexivity.
Qed.

(** A buffer full of bytes without a newline. *)
Lemma ReadLine_full (l rest : bytes) :
  ~ In LF l -> length l = defaultBufSize -> ends_with CR l = false ->
  ReadLine (l ++ rest) = (l, true, None, rest).
Proof.
  intros Hl Hlen Hcr. unfold ReadLine, ReadSlice.
  rewrite ReadSlice_room_full by assumption. rewrite Hcr. reflexivity.
Qed.

Lemma ReadLine_full_cr (l rest : bytes) :
  ~ In LF l -> S (length l) = defaultBufSize ->
  ReadLine (l ++ CR :: rest) = (l, true, None, CR :: rest).
Proof.
  intros Hl Hlen. unfold ReadLine, ReadSlice.
  change (l ++ CR :: rest) with (l ++ [CR] ++ rest). rewrite app_assoc.
  rewrite ReadSlice_room_full.
  - rewrite ends_with_snoc, byte_eqb_refl, drop_last_1. reflexivity.
  - intros Hin. apply in_app_or in Hin. destruct Hin as [Hin|[Hin|[]]];
      [exact (Hl Hin)|discriminate Hin].
  - rewrite length_app. simpl. lia.
Qed.

Lemma ReadValue_line (t : RType) (s : stream) :
  t = TypeSimpleString \/ t = TypeError ->
  ReadValue (t :: s) =
  let '(result, _, err, s2) := ReadLine s in
  Ret (Some (mkTypedVal t (VString result)), err, s2).
Proof.
  intros Ht. rewrite ReadValue_unfold. unfold ReadValue_body. cbn [ReadByte]. cbv iota beta.
  destruct Ht as [-> | ->]; reflexivity.
Qed.

(** X2: how a simple-string or error reply may end.  A bare LF ends the
    line as CR LF does; a line that the end of the stream cuts off is
    returned as a complete reply with a nil error, when it is not empty;
    [io.EOF] comes back only when nothing follows the type byte, or when
    there is no type byte. *)
Theorem ReadValue_line_endings (t : RType) (l rest : bytes) :
  t = TypeSimpleString \/ t = TypeError ->
  ~ In LF l -> (length l + 2 <= defaultBufSize)%nat ->
  (ends_with CR l = false ->
   ReadValue (t :: l ++ LF :: rest) = Ret (Some (mkTypedVal t (VString l)), None, rest)) /\
  ReadValue (t :: l ++ CRLF ++ rest) = Ret (Some (mkTypedVal t (VString l)), None, rest) /\
  (l <> [] -> ReadValue (t :: l) = Ret (Some (mkTypedVal t (VString l)), None, [])) /\
  ReadValue [t] = Ret (Some (mkTypedVal t (VString [])), Some EOF, []) /\
  ReadValue [] = Ret (Some zeroTypedVal, Some EOF, []).
Proof.
  intros Ht Hl Hlen. split; [|split; [|split; [|split]]].
  - intros Hcr. rewrite (ReadValue_line t _ Ht), ReadLine_lf by (auto; lia). reflexivity.
  - rewrite (ReadValue_line t _ Ht), ReadLine_crlf by assumption. reflexivity.
  - intros Hne. rewrite (ReadValue_line t _ Ht), ReadLine_eof by (auto; lia). reflexivity.
  - rewrite (ReadValue_line t _ Ht). reflexivity.
  - reflexivity.
Qed.

(** X3: a line longer than the buffer.  The flag [isPrefix] of [ReadLine]
    is dropped, so when the 4096 bytes after the type byte hold no newline,
    the reply is those 4096 bytes, with a nil error, and the reader stands
    in the middle of the line; when the last of them is a CR, the reply is
    the 4095 bytes before it and the reader stands at that CR. *)
Theorem ReadValue_line_cut_at_buffer (t : RType) (l rest : bytes) :
  t = TypeSimpleString \/ t = TypeError ->
  ~ In LF l ->
  (length l = defaultBufSize -> ends_with CR l = false ->
   ReadValue (t :: l ++ rest) = Ret (Some (mkTypedVal t (VString l)), None, rest)) /\
  (S (length l) = defaultBufSize ->
   ReadValue (t :: l ++ CR :: rest) = Ret (Some (mkTypedVal t (VString l)), None, CR :: rest)).
Proof.
  intros Ht Hl. split.
  - intros Hlen Hcr. rewrite (ReadValue_line t _ Ht), ReadLine_full by assumption. reflexivity.
  - intros Hlen. rewrite (ReadValue_line t _ Ht), ReadLine_full_cr by assumption. reflexivity.
Qed.

Lemma repeat_not_in (a b : byte) (n : nat) : a <> b -> ~ In b (repeat a n).
Proof. intros H Hin. apply repeat_spec in Hin. congruence. Qed.

(** ** protocal.go: what the reader is left with *)

Lemma ends_with_split (b : byte) (l : bytes) :
  ends_with b l = true -> exists l', l = l' ++ [b].
Proof.
  unfold ends_with. destruct (rev l) as [|c r] eqn:E; [discriminate|].
  intros H. apply Byte.byte_dec_bl in H. subst c.
  exists (rev r). rewrite <- (rev_involutive l), E. reflexivity.
Qed.

Lemma ReadLine_tail (s : stream) line pre err rest :
  ReadLine s = (line, pre, err, rest) -> exists consumed, s = consumed ++ rest.
Proof.
  unfold ReadLine, ReadSlice. destruct (ReadSlice_room defaultBufSize s) as [[l e] r] eqn:E.
  apply ReadSlice_room_split in E. subst s.
  destruct e as [[|]|].
  - destruct l; [|repeat destruct (ends_with _ _)]; intros H; injection H as _ _ _ <-;
      eexists; reflexivity.
  - destruct (ends_with CR l) eqn:Ew; intros H; injection H as _ _ _ <-;
      [|eexists; reflexivity].
    apply ends_with_split in Ew. destruct Ew as [l' ->].
    exists l'. rewrite <- app_assoc. reflexivity.
  - destruct l; [|repeat destruct (ends_with _ _)]; intros H; injection H as _ _ _ <-;
      eexists; reflexivity.
Qed.

Lemma ReadAtLeast_tail (s : stream) (n : Z) buf err rest :
  ReadAtLeast s n = (buf, err, rest) -> exists consumed, s = consumed ++ rest.
Proof.
  unfold ReadAtLeast. destruct (n <=? Z.of_nat (length s)).
  - intros H. injection H as _ _ <-. exists (firstn (Z.to_nat n) s).
    symmetry. apply firstn_skipn.
  - destruct s; intros H; injection H as _ _ <-; eexists; rewrite app_nil_r; reflexivity.
Qed.

Lemma tail_trans (a b c : bytes) :
  (exists x, a = x ++ b) -> (exists y, b = y ++ c) -> exists z, a = z ++ c.
Proof. intros [x ->] [y ->]. exists (x ++ y). rewrite app_assoc. reflexivity. Qed.

Lemma read_elems_tail (rd : stream -> outcome readResult) :
  leaves_tail rd -> forall n acc s r s',
  read_elems rd n acc s = Ret (r, s') -> exists consumed, s = consumed ++ s'.
Proof.
  intros Hrd. induction n as [|n IH]; intros acc s r s' H; simpl in H.
  - injection H as _ <-. exists []. reflexivity.
  - destruct (rd s) as [[[v err] s1]| |] eqn:E; try discriminate H. simpl in H.
    apply Hrd in E.
    destruct err as [e|]; [injection H as _ <-; exact E|].
    destruct v as [v|]; [|discriminate H].
    apply IH in H. exact (tail_trans _ _ _ E H).
Qed.

Lemma cons_tail (c : byte) (s s' : bytes) :
  (exists x, s = x ++ s') -> exists y, c :: s = y ++ s'.
Proof. intros [x ->]. exists (c :: x). reflexivity. Qed.

Lemma ReadValue_body_tail (rd : stream -> outcome readResult) :
  leaves_tail rd -> leaves_tail (ReadValue_body rd).
Proof.
  intros Hrd s v err s'. unfold ReadValue_body.
  destruct s as [|typ s1]; cbn [ReadByte]; cbv iota beta.
  { intros H. injection H as _ _ <-. exists []. reflexivity. }
  intros H. apply cons_tail. revert H.
  destruct (Byte.eqb typ TypeSimpleString || Byte.eqb typ TypeError).
  { destruct (ReadLine s1) as [[[result pre] e1] s2] eqn:EL. apply ReadLine_tail in EL.
    intros H. injection H as _ _ <-. exact EL. }
  destruct (Byte.eqb typ TypeInt).
  { destruct (ReadLine s1) as [[[result pre] e1] s2] eqn:EL. apply ReadLine_tail in EL.
    intros H. injection H as _ _ <-. exact EL. }
  destruct (Byte.eqb typ TypeBulkString).
  { destruct (ReadLine s1) as [[[result pre] e1] s2] eqn:EL. apply ReadLine_tail in EL.
    cbv zeta.
    destruct (fst (Atoi result) =? -1); [intros H; injection H as _ _ <-; exact EL|].
    destruct (fst (Atoi result) =? 0).
    { destruct (ReadLine s2) as [[[r2 p2] e2] s3] eqn:EL2. apply ReadLine_tail in EL2.
      intros H. injection H as _ _ <-. exact (tail_trans _ _ _ EL EL2). }
    destruct (make _ (fst (Atoi result))) as [[]| |]; cbn [bind]; try discriminate.
    destruct (ReadAtLeast s2 (fst (Atoi result))) as [[buf e2] s3] eqn:EA.
    apply ReadAtLeast_tail in EA. pose proof (tail_trans _ _ _ EL EA) as E3.
    destruct e2; [intros H; injection H as _ _ <-; exact E3|].
    destruct (ReadLine s3) as [[[r4 p4] e4] s4] eqn:EL4. apply ReadLine_tail in EL4.
    intros H. injection H as _ _ <-. exact (tail_trans _ _ _ E3 EL4). }
  destruct (Byte.eqb typ TypeArray).
  { destruct (ReadLine s1) as [[[result pre] e1] s2] eqn:EL. apply ReadLine_tail in EL.
    cbv zeta.
    destruct (make _ (fst (Atoi result))) as [[]| |]; cbn [bind]; try discriminate.
    destruct (read_elems rd (Z.to_nat (fst (Atoi result))) [] s2) as [[r s3]| |] eqn:ER;
      try discriminate.
    apply (read_elems_tail rd Hrd) in ER. cbn [bind]. cbv beta iota zeta.
    destruct r; intros H; injection H as _ _ <-; exact (tail_trans _ _ _ EL ER). }
  intros H. injection H as _ _ <-. exists []. reflexivity.
Qed.

Lemma ReadValue_leaves_tail : leaves_tail ReadValue.
Proof.
  assert (H : forall fuel, leaves_tail (ReadValue_fuel fuel)).
  { induction fuel as [|fuel IH]; [intros s v err s' H; discriminate H|].
    exact (ReadValue_body_tail _ IH). }
  intros s. apply H.
Qed.

(** X4: what a call of [ReadValue] does to the reader and what it returns.
    The reader is left at a tail of the stream it was given, at least one
    byte further on unless the stream was empty; and a nil result never
    comes with a nil error. *)
Theorem ReadValue_reader_invariants (s s' : stream) (v : option TypedVal) (err : option error) :
  ReadValue s = Ret (v, err, s') ->
  (exists consumed, s = consumed ++ s' /\ (s <> [] -> consumed <> [])) /\
  (v = None -> err <> None).
Proof.
  intros H. split.
  - destruct (ReadValue_leaves_tail _ _ _ _ H) as [consumed E].
    exists consumed. split; [exact E|]. intros Hne ->.
    apply ReadValue_shrinks in H. simpl in E. subst s'.
    destruct s; [contradiction|]. simpl in H. lia.
  - intros ->. exact (ReadValue_res_or_err _ _ _ H).
Qed.

(** ** protocal.go: the values that the decoder builds *)

Lemma wrap64_range (z : Z) : minInt <= wrap64 z <= maxInt.
Proof.
  unfold wrap64, minInt, maxInt.
  pose proof (Z.mod_pos_bound (z + 9223372036854775808) 18446744073709551616 ltac:(lia)).
  lia.
Qed.

(** What [Atoi] returns is an [int]. *)
Lemma Atoi_range (s : bytes) : minInt <= fst (Atoi s) <= maxInt.
Proof.
  unfold Atoi, ParseInt. destruct s as [|c s]; [unfold minInt, maxInt; simpl; lia|].
  destruct (ParseUint _) as [un [[|]|]]; cbv zeta;
    repeat match goal with |- context [if ?b then _ else _] => destruct b end;
    cbn [fst]; try apply wrap64_range; unfold minInt, maxInt; lia.
Qed.

Lemma ReadValue_body_fits (rd : stream -> outcome readResult) (s : stream) v s' :
  (forall s v s', rd s = Ret (Some v, None, s') -> kind_fits v) ->
  ReadValue_body rd s = Ret (Some v, None, s') -> kind_fits v.
Proof.
  intros Hrd. unfold ReadValue_body.
  destruct (ReadByte s) as [[typ e0] s1]. destruct e0; [discriminate|].
  destruct (Byte.eqb typ TypeSimpleString || Byte.eqb typ TypeError) eqn:E1.
  { destruct (ReadLine s1) as [[[result pre] e1] s2]. intros H. injection H as <- _ _.
    apply fits_line. apply orb_true_iff in E1.
    destruct E1 as [E|E]; apply Byte.byte_dec_bl in E; auto. }
  destruct (Byte.eqb typ TypeInt) eqn:E2.
  { destruct (ReadLine s1) as [[[result pre] e1] s2]. intros H. injection H as <- _ _.
    apply Byte.byte_dec_bl in E2; subst typ. apply fits_int. apply Atoi_range. }
  destruct (Byte.eqb typ TypeBulkString) eqn:E3.
  { apply Byte.byte_dec_bl in E3; subst typ.
    destruct (ReadLine s1) as [[[result pre] e1] s2]. cbv zeta.
    repeat match goal with
           | |- context [ReadLine ?x] => destruct (ReadLine x) as [[[? ?] ?] ?]
           | |- context [ReadAtLeast ?x ?n] => destruct (ReadAtLeast x n) as [[? [?|]] ?]
           | |- context [if ?b then _ else _] => destruct b
           | |- context [make ?e ?n] => destruct (make e n) as [[]| |]; cbn [bind]
           end; try discriminate;
      intros H; injection H as <- _ _; first [apply fits_bulk_nil|apply fits_bulk]. }
  destruct (Byte.eqb typ TypeArray) eqn:E4; [|discriminate].
  apply Byte.byte_dec_bl in E4; subst typ.
  destruct (ReadLine s1) as [[[result pre] e1] s2]. cbv zeta.
  destruct (make _ (fst (Atoi result))) as [[]| |]; cbn [bind]; try discriminate.
  destruct (read_elems rd _ [] s2) as [[[res0|e] s3]| |] eqn:ER; cbn [bind];
    try discriminate.
  intros H. injection H as <- _ _.
  pose proof (read_elems_all kind_fits rd Hrd _ _ _ _ _ (Forall_nil _) ER) as Hall.
  apply fits_array. rewrite Forall_forall in Hall. exact Hall.
Qed.

(** X5: the payload fits the kind.  Whatever [ReadValue] returns with a nil
    error is a simple string or an error with a text, an integer within the
    range of [int], a bulk string with a text or nil, or an array with a
    slice whose elements are such values in turn; a nil array, and a payload
    of another type than the kind's, are never returned. *)
Theorem ReadValue_kind_fits (s s' : stream) (v : TypedVal) :
  ReadValue s = Ret (Some v, None, s') -> kind_fits v.
Proof.
  assert (H : forall fuel s v s', ReadValue_fuel fuel s = Ret (Some v, None, s') -> kind_fits v).
  { induction fuel as [|fuel IH]; intros s0 v0 s0' H; [discriminate H|].
    exact (ReadValue_body_fits _ _ _ _ IH H). }
  apply H.
Qed.

(** X6: decoding, then printing.  [PrintVal] has a type assertion that
    panics on an array kind with a payload that is not a slice; it never
    fails on a value that [ReadValue] returned with a nil error, in either
    mode and at any depth of nesting. *)
Theorem ReadValue_then_PrintVal (T : GoText) (raw : bool) (s s' : stream) (v : TypedVal)
    (text : bytes) (n : Z) :
  (ReadValue s = Ret (Some v, None, s') -> exists out, PrintVal T v raw = Ret out) /\
  PrintVal T (mkTypedVal TypeArray (VString text)) raw = Panic PanicTypeAssertion /\
  PrintVal T (Array [mkTypedVal TypeArray (VInt n)]) raw = Panic PanicTypeAssertion.
Proof.
  split; [|split; reflexivity].
  intros H. exact (ReadValue_prints s v s' H T raw).
Qed.

(** ** protocal.go: header lines and integers out of the ordinary *)

Lemma ReadValue_bulk_line (hdr body : bytes) :
  ~ In LF hdr -> (length hdr + 2 <= defaultBufSize)%nat ->
  ReadValue (TypeBulkString :: hdr ++ CRLF ++ body) =
  let length := fst (Atoi hdr) in
  if length =? -1 then Ret (Some (mkTypedVal TypeBulkString VNil), None, body)
  else if length =? 0 then
    let '(_, _, err, s3) := ReadLine body in
    Ret (Some (mkTypedVal TypeBulkString (VString [])), err, s3)
  else
    _ <- make 1 length ;;
    let '(result, err, s3) := ReadAtLeast body length in
    match err with
    | Some _ => Ret (Some (mkTypedVal TypeBulkString VNil), err, s3)
    | None =>
        let '(_, _, err, s4) := ReadLine s3 in
        Ret (Some (mkTypedVal TypeBulkString (VString result)), err, s4)
    end.
Proof.
  intros Hl Hlen. rewrite ReadValue_unfold. unfold ReadValue_body.
  cbn [ReadByte]. cbv iota beta.
  change (Byte.eqb TypeBulkString TypeSimpleString || Byte.eqb TypeBulkString TypeError)
    with false.
  change (Byte.eqb TypeBulkString TypeInt) with false.
  change (Byte.eqb TypeBulkString TypeBulkString) with true. cbv iota.
  rewrite ReadLine_crlf by assumption. reflexivity.
Qed.

Lemma Atoi_syntax_zero (line : bytes) : snd (Atoi line) = Some ErrSyntax -> fst (Atoi line) = 0.
Proof.
  unfold Atoi, ParseInt. destruct line as [|c0 l]; [reflexivity|].
  destruct (ParseUint _) as [un [[|]|]]; cbv zeta;
    repeat match goal with |- context [if ?b then _ else _] => destruct b end;
    simpl; intros H; try discriminate H; reflexivity.
Qed.

(** X7: the length line of a bulk string, out of the ordinary.  A declared
    length below -1 is not taken for the null marker: [make([]byte, length)]
    panics.  A length line that is no number counts as the length 0: the
    reply is the empty string, and the line after the header is consumed as
    its terminator whatever it holds. *)
Theorem ReadValue_bulk_odd_length (n : Z) (hdr junk body rest : bytes) :
  (minInt <= n < -1 ->
   ReadValue (lit "$" ++ Itoa n ++ CRLF ++ body) = Panic PanicMakeSlice) /\
  (snd (Atoi hdr) = Some ErrSyntax ->
   ~ In LF hdr -> (length hdr + 2 <= defaultBufSize)%nat ->
   ~ In LF junk -> (length junk + 2 <= defaultBufSize)%nat ->
   ReadValue (lit "$" ++ hdr ++ CRLF ++ junk ++ CRLF ++ rest)
     = Ret (Some (mkTypedVal TypeBulkString (VString [])), None, rest)).
Proof.
  split.
  - intros Hn.
    change (lit "$" ++ Itoa n ++ CRLF ++ body) with (TypeBulkString :: Itoa n ++ CRLF ++ body).
    rewrite ReadValue_bulk_header by (unfold minInt, maxInt in *; lia).
    destruct (Z.eqb_spec n (-1)); [lia|]. destruct (Z.eqb_spec n 0); [lia|].
    rewrite make_negative by lia. reflexivity.
  - intros Hs Hl Hlen Hj Hjlen.
    change (lit "$" ++ hdr ++ CRLF ++ junk ++ CRLF ++ rest)
      with (TypeBulkString :: hdr ++ CRLF ++ (junk ++ CRLF ++ rest)).
    rewrite ReadValue_bulk_line by assumption. cbv zeta.
    rewrite (Atoi_syntax_zero hdr Hs). cbn [Z.eqb]. cbv iota.
    rewrite ReadLine_crlf by assumption. reflexivity.
Qed.

Lemma ParseUint_loop_overflow (ds : bytes) :
  all_digits ds -> forall a, 0 <= a <= maxUint64 -> maxUint64 < digits_val ds a ->
  ParseUint_loop ds a = (maxUint64, Some ErrRange).
Proof.
  induction 1 as [|c ds Hc Hds IH]; intros a Ha Hv.
  - simpl in Hv. lia.
  - cbn [ParseUint_loop]. rewrite Hc. cbn [negb].
    change (digits_val (c :: ds) a) with (digits_val ds (a * 10 + digit_val c)) in Hv.
    pose proof (is_digit_range c Hc) as Hr.
    destruct (Z.leb_spec (maxUint64 / 10 + 1) a); [reflexivity|].
    destruct (Z.ltb_spec maxUint64 (a * 10 + digit_val c)); [reflexivity|].
    apply IH; [lia|exact Hv].
Qed.

(** The digits of a number beyond the range of [int]: [Atoi] answers with
    the end of the range. *)
Lemma Atoi_clamps (ds : bytes) :
  all_digits ds -> ds <> [] ->
  (maxInt < digits_val ds 0 -> Atoi ds = (maxInt, Some ErrRange)) /\
  (maxInt + 1 < digits_val ds 0 -> Atoi ("-"%byte :: ds) = (minInt, Some ErrRange)).
Proof.
  intros Hd Hne.
  assert (HU : maxInt < digits_val ds 0 ->
               exists un, ParseUint ds = (un, if maxUint64 <? digits_val ds 0
                                              then Some ErrRange else None) /\
                          un = Z.min (digits_val ds 0) maxUint64).
  { intros Hv. unfold ParseUint. destruct ds as [|c ds']; [contradiction|].
    destruct (Z.ltb_spec maxUint64 (digits_val (c :: ds') 0)).
    - rewrite ParseUint_loop_overflow by (auto; unfold maxUint64; lia).
      eexists; split; [reflexivity|lia].
    - rewrite ParseUint_loop_digits by (auto; lia).
      eexists; split; [reflexivity|lia]. }
  unfold maxInt, minInt in *. split; intros Hv.
  - destruct (HU Hv) as (un & E & Hun). unfold Atoi, ParseInt.
    destruct ds as [|c ds']; [contradiction|].
    assert (Hc : is_digit c = true) by (inversion Hd; assumption).
    rewrite (byte_eqb_neq c "+") by (apply is_digit_not; [exact Hc|reflexivity]).
    rewrite (byte_eqb_neq c "-") by (apply is_digit_not; [exact Hc|reflexivity]).
    cbn [orb]. cbv iota zeta. rewrite E.
    unfold maxUint64 in Hun.
    destruct (maxUint64 <? digits_val (c :: ds') 0); cbn [negb andb];
      (destruct (Z.leb_spec 9223372036854775808 un); [reflexivity|lia]).
  - destruct (HU ltac:(lia)) as (un & E & Hun). unfold Atoi, ParseInt.
    rewrite byte_eqb_refl. replace (Byte.eqb "-" "+" || true) with true by reflexivity.
    cbv iota zeta. rewrite E. unfold maxUint64 in Hun.
    destruct (maxUint64 <? digits_val ds 0); cbn [negb andb];
      (destruct (Z.ltb_spec 9223372036854775808 un); [reflexivity|lia]).
Qed.

Lemma ReadValue_int_line (line rest : bytes) :
  ~ In LF line -> (length line + 2 <= defaultBufSize)%nat ->
  ReadValue (TypeInt :: line ++ CRLF ++ rest)
    = Ret (Some (mkTypedVal TypeInt (VInt (fst (Atoi line)))), None, rest).
Proof.
  intros Hl Hlen.
  rewrite ReadValue_unfold. unfold ReadValue_body. cbn [ReadByte]. cbv iota beta.
  change (Byte.eqb TypeInt TypeSimpleString || Byte.eqb TypeInt TypeError) with false.
  change (Byte.eqb TypeInt TypeInt) with true. cbv iota.
  rewrite ReadLine_crlf by assumption. reflexivity.
Qed.

(** X8: an integer reply beyond the range of [int].  The range error of
    [Atoi] is dropped with the other errors, and the value that comes with
    it is kept: a reply whose digits spell a number above the largest [int]
    decodes to the largest [int], one below the smallest to the smallest,
    both with a nil error. *)
Theorem ReadValue_integer_clamped (ds rest : bytes) :
  all_digits ds -> ds <> [] -> (length ds + 3 <= defaultBufSize)%nat ->
  (maxInt < digits_val ds 0 ->
   ReadValue (lit ":" ++ ds ++ CRLF ++ rest) = Ret (Some (Integer maxInt), None, rest)) /\
  (maxInt + 1 < digits_val ds 0 ->
   ReadValue (lit ":-" ++ ds ++ CRLF ++ rest) = Ret (Some (Integer minInt), None, rest)).
Proof.
  intros Hd Hne Hlen. destruct (Atoi_clamps ds Hd Hne) as [Hhi Hlo].
  pose proof (all_digits_no_LF ds Hd) as Hlf.
  split; intros Hv.
  - change (lit ":" ++ ds ++ CRLF ++ rest) with (TypeInt :: ds ++ CRLF ++ rest).
    rewrite ReadValue_int_line by (auto; lia). rewrite (Hhi Hv). reflexivity.
  - change (lit ":-" ++ ds ++ CRLF ++ rest) with (TypeInt :: ("-"%byte :: ds) ++ CRLF ++ rest).
    rewrite ReadValue_int_line.
    + rewrite (Hlo Hv). reflexivity.
    + intros [H|H]; [discriminate H|exact (Hlf H)].
    + simpl. lia.
Qed.

(** ** protocal.go: a bulk string in structured mode *)

Lemma Quote_loop_ascii (T : GoText) (s : bytes) :
  isASCII s = true -> Quote_loop T 0 s = flat_map quoteASCII s.
Proof.
  induction s as [|c s IH]; intros H; [reflexivity|].
  cbn [isASCII forallb] in H. apply andb_true_iff in H. destruct H as [Hc Hs].
  cbn [Quote_loop flat_map]. rewrite Hc, IH by exact Hs. reflexivity.
Qed.

Lemma quoteASCII_no_LF (c : byte) : ~ In LF (quoteASCII c).
Proof.
  destruct c; vm_compute; intros H;
    repeat (destruct H as [H|H]; [discriminate H|]); exact H.
Qed.

Lemma quoteASCII_plain (c : byte) : plain c = true -> quoteASCII c = [c].
Proof.
  unfold plain, quoteASCII. intros H.
  repeat (apply andb_true_iff in H; destruct H as [H ?]).
  destruct (Byte.eqb c DQUOTE); [discriminate|].
  destruct (Byte.eqb c "\"%byte); [discriminate|].
  cbn [orb]. rewrite H. cbn [andb].
  match goal with E : (code c <? 127) = true |- _ => rewrite E end. reflexivity.
Qed.

(** X9: a bulk string in structured mode.  For an ASCII payload the
    rendering does not depend on the Unicode tables: it is the payload
    between double quotes, each byte escaped by the rule for its code, and
    one newline.  No newline stands between the quotes, so the rendering is
    one line whatever the payload holds, and the empty payload prints as two
    quotes; a payload of printable bytes without quote or backslash stands
    between the quotes as it is. *)
Theorem PrintVal_bulk_structured (T : GoText) (s : bytes) :
  isASCII s = true ->
  PrintVal T (BulkString s) false = Ret (DQUOTE :: flat_map quoteASCII s ++ [DQUOTE; LF]) /\
  ~ In LF (flat_map quoteASCII s) /\
  (forallb plain s = true -> flat_map quoteASCII s = s).
Proof.
  intros H. split; [|split].
  - unfold BulkString. cbn [PrintVal].
    change (Byte.eqb TypeBulkString TypeSimpleString) with false.
    change (Byte.eqb TypeBulkString TypeBulkString) with true. cbv iota.
    cbn [fmt_q]. unfold Quote. rewrite Quote_loop_ascii by exact H.
    rewrite <- app_comm_cons, <- app_assoc. reflexivity.
  - intros Hin. apply in_flat_map in Hin. destruct Hin as (c & _ & Hc).
    exact (quoteASCII_no_LF c Hc).
  - clear H. induction s as [|c s IH]; intros Hp; [reflexivity|].
    cbn [forallb] in Hp. apply andb_true_iff in Hp. destruct Hp as [Hc Hs].
    cbn [flat_map]. rewrite (quoteASCII_plain c Hc), IH by exact Hs. reflexivity.
Qed.

Lemma PrintVal_bulk_structured_witness :
  PrintVal asciiText (BulkString (lit "a" ++ [LF] ++ lit "b" ++ [DQUOTE])) false
    = Ret ([DQUOTE] ++ lit "a\nb\" ++ [DQUOTE] ++ [DQUOTE; LF]) /\
  PrintVal asciiText (BulkString []) false = Ret [DQUOTE; DQUOTE; LF].
Proof.
  split.
  - exact (proj1 (PrintVal_bulk_structured asciiText (lit "a" ++ [LF] ++ lit "b" ++ [DQUOTE])
                    eq_refl)).
  - exact (proj1 (PrintVal_bulk_structured asciiText [] eq_refl)).
Defined.

(** ** connector.go: ExecPrint, reply by reply *)

(** [ExecPrint] once the command is written and its reply decoded. *)
Lemma ExecPrint_after_reply (T : GoText) (input : bytes) (c : Connection) (k : Conn)
    (s rest : stream) (tv : TypedVal) :
  conn c = Some k -> next_write c = None -> bufReader c = Some s ->
  ReadValue s = Ret (Some tv, None, rest) ->
  (Type_ tv = TypeError -> exists t, Val tv = VString t) ->
  ExecPrint T input c =
  let c1 := set_bufReader (Some rest) (written input c) in
  info <- isCmd T input (lit "info") ;;
  c2 <- (if (info : bool)
         then str <- assert_string (Val tv) ;; Ret (PrintRawString str c1)
         else Connection_PrintVal T tv c1) ;;
  sel <- isCmd T input (lit "select") ;;
  if (sel : bool) then
    str <- assert_string (Val tv) ;;
    if bytes_eqb str (lit "OK") then
      match Fields T input with
      | _ :: arg :: _ => Ret (set_args (set_Db (args c2) (fst (Atoi arg))) c2, None)
      | _ => Panic PanicIndex
      end
    else Ret (c2, None)
  else Ret (c2, None).
Proof.
  intros Hk Hw Hs Hv Hty. unfold ExecPrint.
  rewrite (Exec_reply input c k s rest tv Hk Hw Hs Hv Hty). reflexivity.
Qed.

Lemma print_mode_after_write (input : bytes) (rest : stream) (c : Connection) :
  print_mode (set_bufReader (Some rest) (written input c)) = print_mode c.
Proof.
  unfold print_mode. cbn [args istty set_bufReader].
  rewrite args_written, istty_written. reflexivity.
Qed.

Lemma Connection_PrintVal_out (T : GoText) (tv : TypedVal) (c : Connection) (out : bytes) :
  PrintVal T tv (print_mode c) = Ret out ->
  Connection_PrintVal T tv c = Ret (emit (EvOut out) c).
Proof. intros H. unfold Connection_PrintVal. fold (print_mode c). rewrite H. reflexivity. Qed.

(** X10: the INFO command.  When the first word of the command is INFO in
    any letter case, the text of the reply is written to the output as it
    is: no quotes, no prefix, no newline after it, whatever the output mode;
    this holds for a bulk string and for an error reply alike.  A reply
    without a text (a nil bulk string, an integer, an array) makes the type
    assertion panic. *)
Theorem ExecPrint_info (T : GoText) (input cmd : bytes) (more : list bytes)
    (c : Connection) (k : Conn) (s rest : stream) (tv : TypedVal) :
  Fields T input = cmd :: more ->
  EqualFold T cmd (lit "info") = true ->
  EqualFold T cmd (lit "select") = false ->
  conn c = Some k -> next_write c = None -> bufReader c = Some s ->
  ReadValue s = Ret (Some tv, None, rest) ->
  (forall text, Val tv = VString text ->
   ExecPrint T input c
     = Ret (emit (EvOut text) (set_bufReader (Some rest) (written input c)), None)) /\
  ((forall text, Val tv <> VString text) ->
   ExecPrint T input c = Panic PanicTypeAssertion).
Proof.
  intros Hf Hi Hsel Hk Hw Hs Hv. split.
  - intros text Ht.
    rewrite (ExecPrint_after_reply T input c k s rest tv Hk Hw Hs Hv)
      by (intros _; eexists; exact Ht).
    cbv zeta. unfold isCmd. rewrite Hf, Hi, Hsel, Ht. reflexivity.
  - intros Hn. unfold ExecPrint, Exec.
    rewrite (Send_written input c k Hk), Hw. cbn [bind]. cbv beta iota zeta.
    unfold ReceiveValue. rewrite bufReader_written, Hs, Hv. cbn [bind]. cbv beta iota zeta.
    destruct (Byte.eqb (Type_ tv) TypeError).
    + destruct (Val tv) as [|text| |]; try reflexivity. exfalso. exact (Hn text eq_refl).
    + cbn [bind]. cbv beta iota zeta. unfold isCmd. rewrite Hf, Hi. cbn [bind].
      destruct (Val tv) as [|text| |]; try reflexivity. exfalso. exact (Hn text eq_refl).
Qed.

(** X11: an error reply is not an error of the command.  When the server
    answers with an error reply (of a text other than OK), [ExecPrint]
    returns a nil error: the reply is printed, with the prefix [(error)] in
    structured mode and bare in raw mode (or as it is for INFO), and the
    arguments, the tracked database among them, stay as they were. *)
Theorem ExecPrint_error_reply (T : GoText) (input cmd text : bytes) (more : list bytes)
    (c : Connection) (k : Conn) (s rest : stream) :
  Fields T input = cmd :: more ->
  conn c = Some k -> next_write c = None -> bufReader c = Some s ->
  ReadValue s = Ret (Some (mkTypedVal TypeError (VString text)), None, rest) ->
  text <> lit "OK" ->
  ExecPrint T input c =
  Ret (emit (EvOut (if EqualFold T cmd (lit "info") then text
                    else if print_mode c then text ++ [LF]
                         else lit "(error) " ++ text ++ [LF]))
            (set_bufReader (Some rest) (written input c)), None).
Proof.
  intros Hf Hk Hw Hs Hv Hne.
  rewrite (ExecPrint_after_reply T input c k s rest _ Hk Hw Hs Hv)
    by (intros _; eexists; reflexivity).
  cbv zeta. unfold isCmd. rewrite Hf. cbn [bind Val assert_string].
  assert (Eq : bytes_eqb text (lit "OK") = false).
  { destruct (bytes_eqb text (lit "OK")) eqn:E; [|reflexivity].
    apply bytes_eqb_eq in E. contradiction. }
  destruct (EqualFold T cmd (lit "info")).
  - cbn [bind]. destruct (EqualFold T cmd (lit "select")); [rewrite Eq|]; reflexivity.
  - rewrite (Connection_PrintVal_out T _ _
               (if print_mode c then text ++ [LF] else lit "(error) " ++ text ++ [LF])).
    + cbn [bind]. destruct (EqualFold T cmd (lit "select")); [rewrite Eq|]; reflexivity.
    + rewrite print_mode_after_write. destruct (print_mode c); reflexivity.
Qed.

(** X12: a failed write, a failed decoding.  [ExecPrint] returns the error
    of the write, or of the decoder, after the text of that error has been
    written to the output once, with no newline; nothing else is printed,
    the arguments stay as they were, and the words of the command are not
    looked at, so that even a blank command returns the error. *)
Theorem ExecPrint_transport_error (T : GoText) (input : bytes) (c : Connection) (k : Conn)
    (e : error) :
  conn c = Some k ->
  (next_write c = Some e ->
   ExecPrint T input c = Ret (emit (EvOut (Error_ e)) (written input c), Some e)) /\
  (forall s v s',
     next_write c = None -> bufReader c = Some s -> ReadValue s = Ret (v, Some e, s') ->
     ExecPrint T input c
       = Ret (emit (EvOut (Error_ e)) (set_bufReader (Some s') (written input c)), Some e)).
Proof.
  intros Hk. split.
  - intros Hw. unfold ExecPrint. rewrite (Exec_write_error input c k e Hk Hw). reflexivity.
  - intros s v s' Hw Hs Hv. unfold ExecPrint.
    rewrite (Exec_decode_error input c k s s' v e Hk Hw Hs Hv). reflexivity.
Qed.

(** ** connector.go: the handshake, step by step *)

Lemma ReadValue_error_text (s s' : stream) (v : TypedVal) :
  ReadValue s = Ret (Some v, None, s') -> Type_ v = TypeError -> exists t, Val v = VString t.
Proof.
  assert (H : forall fuel s v s', ReadValue_fuel fuel s = Ret (Some v, None, s') -> kind_fits v).
  { induction fuel as [|fuel IH]; intros s0 v0 s0' H; [discriminate H|].
    exact (ReadValue_body_fits _ _ _ _ IH H). }
  intros Hv Ht. apply H in Hv.
  destruct Hv; cbn [Type_ Val] in *; try discriminate Ht; eexists; reflexivity.
Qed.

(** A command whose write succeeds and whose reply decodes. *)
Lemma Exec_answered (input : bytes) (c : Connection) (k : Conn) (s rest : stream) (v : TypedVal) :
  conn c = Some k -> next_write c = None -> bufReader c = Some s ->
  ReadValue s = Ret (Some v, None, rest) ->
  Exec input c = Ret (answered input rest c, Some v, None).
Proof.
  intros Hk Hw Hs Hv.
  exact (Exec_reply input c k s rest v Hk Hw Hs Hv (ReadValue_error_text s rest v Hv)).
Qed.

Lemma defaults_given (E : Env) (a : Args) :
  defaults [Pass a; Password a; REDISCLI_AUTH E] = given_password E a.
Proof.
  unfold given_password. cbn [defaults].
  destruct (Pass a); [|reflexivity]. destruct (Password a); [|reflexivity].
  destruct (REDISCLI_AUTH E); reflexivity.
Qed.

(** [auth] with the password [pass] in hand, on a reply that decodes. *)
Lemma auth_answered (T : GoText) (E : Env) (c : Connection) (k : Conn) (s rest : stream)
    (v : TypedVal) :
  Askpass (args c) = false -> given_password E (args c) <> [] ->
  conn c = Some k -> next_write c = None -> bufReader c = Some s ->
  ReadValue s = Ret (Some v, None, rest) ->
  auth T E c =
  Ret (let c1 := answered (lit "AUTH " ++ User (args c) ++ lit " " ++ given_password E (args c))
                   rest c in
       if is_error v then emit (EvOut (lit "AUTH failed: " ++ fmt_s T (Val v) ++ [LF])) c1
       else c1, None).
Proof.
  intros Ha Hp Hk Hw Hs Hv. unfold auth. rewrite Ha. cbn [bind]. cbv beta iota zeta.
  rewrite defaults_given. destruct (given_password E (args c)) as [|p pw] eqn:Eg;
    [contradiction|].
  rewrite (Exec_answered _ c k s rest v Hk Hw Hs Hv). cbn [bind]. cbv beta iota zeta.
  unfold is_error. destruct (Byte.eqb (Type_ v) TypeError); reflexivity.
Qed.

(** X13: where the password comes from, and what goes on the wire.  Without
    [--askpass] the password is the first of [--pass], [-a] and the
    variable [REDISCLI_AUTH] that is not empty.  With none, [auth] sends
    nothing.  Otherwise it sends the one line [AUTH user password] (with an
    empty user name the two blanks stay); an error reply is reported as
    [AUTH failed: text] and is not an error of [auth]; any other reply is
    taken in silence. *)
Theorem auth_password_source (T : GoText) (E : Env) (c : Connection) (k : Conn)
    (s rest : stream) (v : TypedVal) :
  Askpass (args c) = false ->
  (given_password E (args c) = [] -> auth T E c = Ret (c, None)) /\
  (given_password E (args c) <> [] ->
   conn c = Some k -> next_write c = None -> bufReader c = Some s ->
   ReadValue s = Ret (Some v, None, rest) ->
   let c1 := answered (lit "AUTH " ++ User (args c) ++ lit " " ++ given_password E (args c))
               rest c in
   (forall text, v = mkTypedVal TypeError (VString text) ->
      auth T E c = Ret (emit (EvOut (lit "AUTH failed: " ++ text ++ [LF])) c1, None)) /\
   (Type_ v <> TypeError -> auth T E c = Ret (c1, None))).
Proof.
  intros Ha. split.
  - intros Hp. unfold auth. rewrite Ha. cbn [bind]. cbv beta iota zeta.
    rewrite defaults_given, Hp. reflexivity.
  - intros Hp Hk Hw Hs Hv c1.
    rewrite (auth_answered T E c k s rest v Ha Hp Hk Hw Hs Hv). cbv zeta. fold c1. split.
    + intros text ->. reflexivity.
    + intros Hne. unfold is_error. rewrite (byte_eqb_neq _ _ Hne). reflexivity.
Qed.

(** X14: the password from the terminal.  With [--askpass] the prompt is
    printed and the password read from the terminal; [--pass], [-a] and
    [REDISCLI_AUTH] are not consulted, also when the password typed is
    empty: nothing is sent then.  A failure to read the password stops the
    process with a panic. *)
Theorem auth_askpass (T : GoText) (E : Env) (c : Connection) :
  Askpass (args c) = true ->
  let prompted := emit (EvOut (lit "Please input password: ")) c in
  (forall e, readPassword E = inl e -> auth T E c = Panic PanicExplicit) /\
  (readPassword E = inr [] -> auth T E c = Ret (emit (EvOut [LF]) prompted, None)) /\
  (forall pw k s rest v,
     readPassword E = inr pw -> pw <> [] ->
     conn c = Some k -> next_write c = None -> bufReader c = Some s ->
     ReadValue s = Ret (Some v, None, rest) -> Type_ v <> TypeError ->
     auth T E c
     = Ret (answered (lit "AUTH " ++ User (args c) ++ lit " " ++ pw) rest
              (emit (EvOut [LF]) prompted), None)).
Proof.
  intros Ha prompted. unfold auth. rewrite Ha. split; [|split].
  - intros e ->. reflexivity.
  - intros ->. reflexivity.
  - intros pw k s rest v -> Hp Hk Hw Hs Hv Hne. cbn [bind]. cbv beta iota zeta.
    destruct pw as [|p pw]; [contradiction|].
    fold prompted. cbn [args emit].
    rewrite (Exec_answered _ (emit (EvOut [LF]) prompted) k s rest v Hk Hw Hs Hv).
    cbn [bind]. cbv beta iota zeta. rewrite (byte_eqb_neq _ _ Hne). reflexivity.
Qed.

(** [selectDb] on a reply that decodes. *)
Lemma selectDb_answered (T : GoText) (c : Connection) (k : Conn) (s rest : stream)
    (v : TypedVal) :
  Db (args c) <> 0 ->
  conn c = Some k -> next_write c = None -> bufReader c = Some s ->
  ReadValue s = Ret (Some v, None, rest) ->
  selectDb T c =
  Ret (let c1 := answered (lit "SELECT " ++ Itoa (Db (args c))) rest c in
       if is_error v
       then set_args (set_Db (args c) 0)
              (emit (EvOut (lit "SELECT " ++ Itoa (Db (args c)) ++ lit " failed: "
                            ++ fmt_s T (Val v) ++ [LF])) c1)
       else c1, None).
Proof.
  intros Hd Hk Hw Hs Hv. unfold selectDb.
  destruct (Db (args c) =? 0) eqn:E0; [apply Z.eqb_eq in E0; contradiction|].
  rewrite (Exec_answered _ c k s rest v Hk Hw Hs Hv). cbn [bind]. cbv beta iota zeta.
  unfold is_error. destruct (Byte.eqb (Type_ v) TypeError); [|reflexivity].
  unfold answered. cbn [args emit set_bufReader]. rewrite args_written. reflexivity.
Qed.

(** X15: the database of the command line.  With the index 0 [selectDb]
    sends nothing.  Otherwise it sends [SELECT n]; when the server answers
    with an error, the message [SELECT n failed: text] is printed, the index
    in the arguments goes back to 0, so that the prompt shows no index, and
    the result is nil all the same; on any other reply the arguments stay as
    they are and nothing is printed. *)
Theorem selectDb_cases (T : GoText) (c : Connection) (k : Conn) (s rest : stream)
    (v : TypedVal) :
  (Db (args c) = 0 -> selectDb T c = Ret (c, None)) /\
  (Db (args c) <> 0 ->
   conn c = Some k -> next_write c = None -> bufReader c = Some s ->
   ReadValue s = Ret (Some v, None, rest) ->
   exists c',
     selectDb T c = Ret (c', None) /\
     bufReader c' = Some rest /\
     (forall text, v = mkTypedVal TypeError (VString text) ->
        trace c' = EvOut (lit "SELECT " ++ Itoa (Db (args c)) ++ lit " failed: " ++ text ++ [LF])
                   :: EvWrite (lit "SELECT " ++ Itoa (Db (args c)) ++ CRLF) :: trace c /\
        args c' = set_Db (args c) 0 /\
        (connected c = true -> CliPrefix c' = addr c)) /\
     (Type_ v <> TypeError ->
        trace c' = EvWrite (lit "SELECT " ++ Itoa (Db (args c)) ++ CRLF) :: trace c /\
        args c' = args c)).
Proof.
  split.
  - intros H0. unfold selectDb. rewrite H0. reflexivity.
  - intros Hd Hk Hw Hs Hv. rewrite (selectDb_answered T c k s rest v Hd Hk Hw Hs Hv).
    cbv zeta. eexists. split; [reflexivity|]. split; [|split].
    + unfold is_error, answered. destruct (Byte.eqb (Type_ v) TypeError); reflexivity.
    + intros text ->. unfold is_error, answered. cbn [Type_ Val fmt_s].
      change (Byte.eqb TypeError TypeError) with true. cbv iota.
      cbn [trace args set_args emit set_bufReader]. rewrite trace_written.
      split; [reflexivity|]. split; [reflexivity|].
      intros Hc. unfold CliPrefix, addr. cbn [connected args set_args emit set_bufReader Db set_Db
        Hostname Port].
      assert (Hcw : connected (written (lit "SELECT " ++ Itoa (Db (args c))) c) = connected c).
      { unfold written. destruct (conn c) as [k0|]; [destruct (writeResults k0)|]; reflexivity. }
      rewrite Hcw, Hc. reflexivity.
    + intros Hne. unfold is_error, answered. rewrite (byte_eqb_neq _ _ Hne).
      cbn [trace args set_bufReader]. rewrite trace_written, args_written.
      split; reflexivity.
Qed.

Lemma args_Close (c : Connection) : args (Close c) = args c.
Proof. unfold Close. destruct (conn c); reflexivity. Qed.

Lemma connected_written (input : bytes) (c : Connection) :
  connected (written input c) = connected c.
Proof. unfold written. destruct (conn c) as [k|]; [destruct (writeResults k)|]; reflexivity. Qed.

Lemma history_emit (ev : event) (c : Connection) : history (emit ev c) = history c ++ [ev].
Proof. reflexivity. Qed.

Lemma history_answered (input : bytes) (rest : stream) (c : Connection) :
  history (answered input rest c) = history c ++ [EvWrite (input ++ CRLF)].
Proof. unfold history, answered. cbn [trace set_bufReader]. rewrite trace_written. reflexivity. Qed.

(** X16: the handshake goes on after a rejected password.  When the dial
    gives a socket, a password is at hand and a database is asked for,
    [Connect] sends AUTH, reads one reply, sends SELECT, reads one more
    reply, and returns nil with the session marked connected: an error reply
    to AUTH is reported and the SELECT is sent all the same; an error reply
    to SELECT is reported and puts the index back to 0. *)
Theorem Connect_handshake (T : GoText) (E : Env) (c : Connection) (k : Conn)
    (s1 s2 : stream) (v1 v2 : TypedVal) :
  dial E = inr k -> writeResults k = [] ->
  (Tls (args c) = true -> tlsConfig E = None) -> Askpass (args c) = false ->
  given_password E (args c) <> [] -> Db (args c) <> 0 ->
  ReadValue (incoming k) = Ret (Some v1, None, s1) ->
  ReadValue s1 = Ret (Some v2, None, s2) ->
  exists c',
    Connect T E c = Ret (c', None) /\
    history c' =
      history (Close c)
      ++ [EvWrite (lit "AUTH " ++ User (args c) ++ lit " " ++ given_password E (args c) ++ CRLF)]
      ++ (if is_error v1 then [EvOut (lit "AUTH failed: " ++ fmt_s T (Val v1) ++ [LF])] else [])
      ++ [EvWrite (lit "SELECT " ++ Itoa (Db (args c)) ++ CRLF)]
      ++ (if is_error v2
          then [EvOut (lit "SELECT " ++ Itoa (Db (args c)) ++ lit " failed: "
                       ++ fmt_s T (Val v2) ++ [LF])]
          else []) /\
    bufReader c' = Some s2 /\
    connected c' = true /\
    Db (args c') = (if is_error v2 then 0 else Db (args c)).
Proof.
  intros Hd Hw Htls Ha Hp Hdb Hv1 Hv2.
  rewrite (Connect_dialed T E c k Hd Htls).
  set (d := dialed k c).
  assert (Had : args d = args c) by (unfold d, dialed; cbn [args set_bufReader set_conn
    set_connected]; apply args_Close).
  assert (Hkd : conn d = Some k) by reflexivity.
  assert (Hsd : bufReader d = Some (incoming k)) by reflexivity.
  assert (Hnd : next_write d = None) by (unfold next_write; rewrite Hkd, Hw; reflexivity).
  assert (Hcd : connected d = true) by reflexivity.
  assert (Hhd : history d = history (Close c)) by reflexivity.
  rewrite (auth_answered T E d k (incoming k) s1 v1) by (rewrite ?Had; assumption).
  cbn [bind]. cbv beta iota zeta. rewrite Had.
  set (a1 := answered _ s1 d).
  assert (Ha1 : args a1 = args c) by (unfold a1, answered; cbn [args set_bufReader];
    rewrite args_written; exact Had).
  assert (Hk1 : conn a1 = Some k)
    by (unfold a1, answered; cbn [conn set_bufReader]; exact (conn_written _ d k Hkd Hw)).
  assert (Hc1 : connected a1 = true)
    by (unfold a1, answered; cbn [connected set_bufReader]; rewrite connected_written;
        exact Hcd).
  assert (Hh1 : history a1 = history (Close c) ++
    [EvWrite (lit "AUTH " ++ User (args c) ++ lit " " ++ given_password E (args c) ++ CRLF)]).
  { unfold a1. rewrite history_answered, Hhd, <- !app_assoc. reflexivity. }
  set (c2 := if is_error v1 then emit _ a1 else a1).
  assert (Ha2 : args c2 = args c) by (unfold c2; destruct (is_error v1); exact Ha1).
  assert (Hk2 : conn c2 = Some k) by (unfold c2; destruct (is_error v1); exact Hk1).
  assert (Hs2 : bufReader c2 = Some s1) by (unfold c2; destruct (is_error v1); reflexivity).
  assert (Hn2 : next_write c2 = None) by (unfold next_write; rewrite Hk2, Hw; reflexivity).
  assert (Hc2 : connected c2 = true) by (unfold c2; destruct (is_error v1); exact Hc1).
  assert (Hh2 : history c2 = history a1 ++
    (if is_error v1 then [EvOut (lit "AUTH failed: " ++ fmt_s T (Val v1) ++ [LF])] else [])).
  { unfold c2. destruct (is_error v1); [reflexivity|]. rewrite app_nil_r. reflexivity. }
  rewrite (selectDb_answered T c2 k s1 s2 v2) by (rewrite ?Ha2; assumption).
  cbn [bind]. cbv beta iota zeta. rewrite Ha2.
  set (a2 := answered _ s2 c2).
  assert (Hh3 : history a2 = history c2 ++ [EvWrite (lit "SELECT " ++ Itoa (Db (args c)) ++ CRLF)]).
  { unfold a2. rewrite history_answered, <- !app_assoc. reflexivity. }
  assert (Ha3 : args a2 = args c) by (unfold a2, answered; cbn [args set_bufReader];
    rewrite args_written; exact Ha2).
  assert (Hc3 : connected a2 = true)
    by (unfold a2, answered; cbn [connected set_bufReader]; rewrite connected_written;
        exact Hc2).
  eexists. split; [reflexivity|].
  destruct (is_error v2).
  - split; [|split; [reflexivity|split; [exact Hc3|reflexivity]]].
    unfold history at 1. cbn [trace set_args emit]. cbn [rev].
    fold (history a2). rewrite Hh3, Hh2, Hh1, <- !app_assoc. reflexivity.
  - split; [|split; [reflexivity|split; [exact Hc3|rewrite Ha3; reflexivity]]].
    rewrite Hh3, Hh2, Hh1, app_nil_r, <- !app_assoc. reflexivity.
Qed.

(** ** main.go: the runner when the dial fails *)

(** X17: no connection, no command.  When the dial fails, [singleCmd]
    returns the error of the dial after the one line [Could not connect to
    Redis at host:port: error]; the command is not run, whatever it is and
    whatever the repeat count, and nothing is sent or closed. *)
Theorem singleCmd_dial_failure (T : GoText) (E : Env) (a : Args) (tr : list event)
    (exe : exeFunc) (e : error) :
  dial E = inl e -> (Tls a = true -> tlsConfig E = None) ->
  singleCmd T E a tr exe =
  Ret (mkConnection a None None false (stdoutIsTerminal E)
         (EvOut (lit "Could not connect to Redis at " ++ (Hostname a ++ lit ":" ++ Itoa (Port a))
                 ++ lit ": " ++ Error_ e ++ [LF]) :: tr),
       Some e).
Proof.
  intros Hd Htls. unfold singleCmd, Connect, NewConnection, Close. cbn [conn args].
  cbn [set_bufReader set_connected args conn bufReader connected istty trace].
  rewrite Hd. destruct (Tls a); [rewrite (Htls eq_refl)|]; cbn [bind]; reflexivity.
Qed.

(** ** main.go: a scan that does not reach its end *)

Lemma last_default (A : Type) (l : list A) : forall a d : A, last (a :: l) d = last l a.
Proof.
  induction l as [|b l IH]; intros a d; [reflexivity|].
  change (last (a :: b :: l) d) with (last (b :: l) d).
  rewrite (IH b d), (IH b a). reflexivity.
Qed.

Lemma scan_loop_open (T : GoText) (raw : bool) (s : stream)
    (pages : list (bytes * list bytes)) (s1 : stream) :
  paged_open T raw s pages s1 ->
  forall fuel cursor c k v e s2,
  raw = print_mode c -> conn c = Some k -> writeResults k = [] -> bufReader c = Some s ->
  (length s < fuel)%nat ->
  ReadValue s1 = Ret (v, Some e, s2) ->
  exists c',
    scan_loop T fuel cursor c = Ret (c', Some e) /\
    trace c' = EvOut (Error_ e)
               :: EvWrite (scan_command (cursor_after cursor pages) (args c) ++ CRLF)
               :: rev (scan_events (args c) cursor pages) ++ trace c /\
    bufReader c' = Some s2.
Proof.
  induction 1 as [s|s s1 s' first second more keys cur outs pages Hv Hf Hne Hs Hk _ IH];
    intros fuel cursor c k v e s2 Hraw Hc Hw Hb Hlen He;
    (destruct fuel as [|fuel]; [lia|]); cbn [scan_loop];
    assert (Hnw : next_write c = None) by (unfold next_write; rewrite Hc, Hw; reflexivity).
  - rewrite (Exec_decode_error _ c k s s2 v e Hc Hnw Hb He). cbn [bind]. cbv beta iota zeta.
    eexists. split; [reflexivity|]. split; [|reflexivity].
    unfold PrintRawString. cbn [trace emit set_bufReader]. rewrite trace_written. reflexivity.
  - rewrite (Exec_reply _ c k s _ _ Hc Hnw Hb Hv) by (intros Ht; discriminate Ht).
    cbn [bind]. cbv beta iota zeta. cbn [Val assert_slice bind index nth_error].
    rewrite Hs. cbn [assert_slice bind].
    set (c1 := set_bufReader _ (written _ c)).
    assert (Ha1 : args c1 = args c) by apply args_written.
    assert (Hm1 : print_mode c1 = print_mode c)
      by (unfold print_mode; rewrite Ha1; unfold c1; cbn [istty set_bufReader];
          rewrite istty_written; reflexivity).
    rewrite (print_each_outs T keys outs c1) by (rewrite Hm1, <- Hraw; exact Hk).
    cbn [bind]. rewrite Hf. cbn [assert_string bind].
    destruct (emit_all_frame outs c1) as (E1 & E2 & E3 & E4 & E5).
    destruct (bytes_eqb cur (lit "0")) eqn:Eq; [apply bytes_eqb_eq in Eq; contradiction|].
    destruct (IH fuel cur (emit_all outs c1) k v e s2) as (c' & R1 & R2 & R3).
    + unfold print_mode. rewrite E1, E4. fold (print_mode c1). congruence.
    + rewrite E2. unfold c1. cbn [conn set_bufReader]. exact (conn_written _ c k Hc Hw).
    + exact Hw.
    + rewrite E3. reflexivity.
    + apply ReadValue_consumes in Hv. lia.
    + exact He.
    + exists c'. split; [exact R1|]. split; [|exact R3].
      rewrite R2, E1, E5, Ha1. unfold c1. cbn [trace set_bufReader]. rewrite trace_written.
      unfold cursor_after. cbn [map fst]. rewrite last_default.
      cbn [scan_events]. cbn [rev]. rewrite rev_app_distr.
      rewrite <- !app_assoc. reflexivity.
Qed.

(** X18: a scan cut short.  When the peer has delivered some pages, none
    with the cursor ["0"], and the reply to the next request fails to decode
    (the stream ends, say), the scan stops there: the keys of the pages
    before are on the output, the request for the next page has gone out
    with the cursor of the last page, the text of the error is printed, and
    the error is returned. *)
Theorem scan_pages_cut_short (T : GoText) (c : Connection) (k : Conn) (s s1 s2 : stream)
    (pages : list (bytes * list bytes)) (v : option TypedVal) (e : error) :
  conn c = Some k -> writeResults k = [] -> bufReader c = Some s ->
  paged_open T (print_mode c) s pages s1 ->
  ReadValue s1 = Ret (v, Some e, s2) ->
  exists c',
    scan_pages T c = Ret (c', Some e) /\
    history c' = history c ++ scan_events (args c) (lit "0") pages
                 ++ [EvWrite (scan_command (cursor_after (lit "0") pages) (args c) ++ CRLF);
                     EvOut (Error_ e)] /\
    bufReader c' = Some s2.
Proof.
  intros Hc Hw Hb Hp He. unfold scan_pages. rewrite Hb.
  destruct (scan_loop_open T _ s pages s1 Hp (S (length s)) (lit "0") c k v e s2
              eq_refl Hc Hw Hb ltac:(lia) He) as (c' & R1 & R2 & R3).
  exists c'. split; [exact R1|]. split; [|exact R3].
  unfold history. rewrite R2. cbn [rev]. rewrite rev_app_distr, rev_involutive.
  rewrite <- !app_assoc. reflexivity.
Qed.

Lemma decoded_not_array (v : TypedVal) :
  decoded v -> Type_ v <> TypeArray -> assert_slice (Val v) = Panic PanicTypeAssertion.
Proof.
  intros Hd Ht. inversion Hd as [t a _ Ha|l _]; subst; cbn [Type_ Val] in *.
  - destruct a as [| | |l]; try reflexivity. exfalso. exact (Ha l eq_refl).
  - exfalso. apply Ht. reflexivity.
Qed.

Lemma decoded_slice (v : TypedVal) (l : list TypedVal) :
  decoded v -> Val v = VSlice l -> v = mkTypedVal TypeArray (VSlice l) /\ Forall decoded l.
Proof.
  intros Hd Hv. destruct v as [t a]. cbn [Val] in Hv. subst a.
  inversion Hd as [t0 a _ Ha|l0 Hl]; subst.
  - exfalso. exact (Ha l eq_refl).
  - split; [reflexivity|]. rewrite Forall_forall. exact Hl.
Qed.

(** X19: a reply that is not a page.  The loop of [scan] takes the reply
    apart without a check, so a reply that decodes but is not an array of a
    text cursor and an array of keys stops the process with a panic instead
    of an error: an error reply (a NOAUTH, say), an array of fewer than two
    elements, a second element that is not an array, and, after the keys
    have been printed, a cursor that is not a text. *)
Theorem scan_pages_not_a_page (T : GoText) (c : Connection) (k : Conn) (s rest : stream)
    (v : TypedVal) :
  conn c = Some k -> next_write c = None -> bufReader c = Some s ->
  ReadValue s = Ret (Some v, None, rest) ->
  (Type_ v <> TypeArray -> scan_pages T c = Panic PanicTypeAssertion) /\
  (forall l, Val v = VSlice l -> (length l < 2)%nat -> scan_pages T c = Panic PanicIndex) /\
  (forall first second more,
     Val v = VSlice (first :: second :: more) -> Type_ second <> TypeArray ->
     scan_pages T c = Panic PanicTypeAssertion) /\
  (forall first second more keys,
     Val v = VSlice (first :: second :: more) -> Val second = VSlice keys ->
     (forall text, Val first <> VString text) ->
     scan_pages T c = Panic PanicTypeAssertion).
Proof.
  intros Hk Hw Hs Hv. pose proof (ReadValue_decoded s v rest Hv) as Hd.
  assert (Hx : scan_pages T c =
    (top <- assert_slice (Val v) ;;
     second <- index top 1 ;;
     keys <- assert_slice (Val second) ;;
     c2 <- print_each T keys (answered (scan_command (lit "0") (args c)) rest c) ;;
     first <- index top 0 ;;
     cursor' <- assert_string (Val first) ;;
     if bytes_eqb cursor' (lit "0") then Ret (c2, None)
     else scan_loop T (length s) cursor' c2)).
  { unfold scan_pages. rewrite Hs. cbn [scan_loop].
    rewrite (Exec_answered _ c k s rest v Hk Hw Hs Hv). reflexivity. }
  rewrite Hx. split; [|split; [|split]].
  - intros Ht. rewrite (decoded_not_array v Hd Ht). reflexivity.
  - intros l -> Hl. destruct l as [|x [|y l]]; [reflexivity|reflexivity|simpl in Hl; lia].
  - intros first second more Hl Ht. rewrite Hl.
    destruct (decoded_slice v _ Hd Hl) as [_ Hall].
    assert (Hd2 : decoded second).
    { rewrite Forall_forall in Hall. apply Hall. right. left. reflexivity. }
    cbn [assert_slice bind index nth_error]. rewrite (decoded_not_array second Hd2 Ht).
    reflexivity.
  - intros first second more keys Hl Hk2 Hf. rewrite Hl.
    destruct (decoded_slice v _ Hd Hl) as [-> _].
    destruct (decoded_keys_print T
                (print_mode (answered (scan_command (lit "0") (args c)) rest c))
                s rest first second more keys Hv Hk2) as [outs Houts].
    cbn [assert_slice bind index nth_error]. rewrite Hk2. cbn [assert_slice bind].
    rewrite (print_each_outs T keys outs _ Houts). cbn [bind].
    destruct (Val first) as [|text| |]; try reflexivity.
    exfalso. exact (Hf text eq_refl).
Qed.

(** ** connector.go: commands that ExecPrint cannot take apart *)

Lemma fieldsASCII_blank (s : bytes) : blank s = true -> fieldsASCII [] s = [].
Proof.
  induction s as [|c s IH]; [reflexivity|]. cbn [blank forallb fieldsASCII].
  intros H. apply andb_true_iff in H. destruct H as [Hc Hs]. rewrite Hc. exact (IH Hs).
Qed.

Lemma asciiSpace_ascii (c : byte) : asciiSpace c = true -> (code c <? 128) = true.
Proof. destruct c; intros H; try reflexivity; discriminate H. Qed.

Lemma blank_isASCII (s : bytes) : blank s = true -> isASCII s = true.
Proof.
  induction s as [|c s IH]; [reflexivity|]. cbn [blank isASCII forallb].
  intros H. apply andb_true_iff in H. destruct H as [Hc Hs].
  rewrite (asciiSpace_ascii c Hc). exact (IH Hs).
Qed.

Lemma Fields_blank (T : GoText) (s : bytes) : blank s = true -> Fields T s = [].
Proof.
  intros H. unfold Fields. rewrite (blank_isASCII s H). exact (fieldsASCII_blank s H).
Qed.

(** X20: commands without the word that is looked for.  Once a reply has
    been decoded, [ExecPrint] takes the first word of the command without a
    check: on a command of blanks only (the empty command among them) the
    process stops with an index panic, whatever the reply.  The same holds
    for the second word of a SELECT: a command of the one word SELECT whose
    reply is the text OK stops the process after the reply has been
    printed. *)
Theorem ExecPrint_missing_word (T : GoText) (input : bytes) (c : Connection) (k : Conn)
    (s rest : stream) (v : TypedVal) :
  conn c = Some k -> next_write c = None -> bufReader c = Some s ->
  ReadValue s = Ret (Some v, None, rest) ->
  (blank input = true -> ExecPrint T input c = Panic PanicIndex) /\
  (forall cmd,
     Fields T input = [cmd] -> EqualFold T cmd (lit "select") = true ->
     Val v = VString (lit "OK") ->
     ExecPrint T input c = Panic PanicIndex).
Proof.
  intros Hk Hw Hs Hv.
  rewrite (ExecPrint_after_reply T input c k s rest v Hk Hw Hs Hv
             (ReadValue_error_text s rest v Hv)).
  cbv zeta. unfold isCmd. split.
  - intros Hb. rewrite (Fields_blank T input Hb). reflexivity.
  - intros cmd Hf He Ht. rewrite Hf, He, Ht. cbn [bind assert_string].
    destruct (EqualFold T cmd (lit "info")); [reflexivity|].
    destruct (ReadValue_prints s v rest Hv T
                (print_mode (set_bufReader (Some rest) (written input c)))) as [out Hout].
    rewrite (Connection_PrintVal_out T v _ out Hout). reflexivity.
Qed.

(** ** connector.go: the prompt *)

(** X21: the prompt follows the database.  In a connected session, after a
    SELECT with the index [n] in decimal that the server answers with the
    text OK, the prefix of the prompt is [host:port\[n\]] when [n] is not 0
    and [host:port] when it is 0; after [Close] it is [not connected]. *)
Theorem CliPrefix_after_select (T : GoText) (input cmd : bytes) (n : Z) (more : list bytes)
    (c : Connection) (k : Conn) (s rest : stream) (t : RType) :
  connected c = true -> minInt <= n <= maxInt ->
  Fields T input = cmd :: Itoa n :: more ->
  EqualFold T cmd (lit "select") = true ->
  conn c = Some k -> next_write c = None -> bufReader c = Some s ->
  ReadValue s = Ret (Some (mkTypedVal t (VString (lit "OK"))), None, rest) ->
  exists c',
    ExecPrint T input c = Ret (c', None) /\
    CliPrefix c' = (if n =? 0 then addr c else addr c ++ lit "[" ++ Itoa n ++ lit "]") /\
    CliPrefix (Close c') = lit "not connected".
Proof.
  intros Hc Hn Hf He Hk Hw Hs Hv.
  rewrite (ExecPrint_after_reply T input c k s rest _ Hk Hw Hs Hv)
    by (intros _; eexists; reflexivity).
  cbv zeta. unfold isCmd. rewrite Hf, He. cbn [bind Val assert_string].
  set (c1 := set_bufReader (Some rest) (written input c)).
  assert (Ha1 : args c1 = args c) by apply args_written.
  assert (Hc1 : connected c1 = true)
    by (unfold c1; cbn [connected set_bufReader]; rewrite connected_written; exact Hc).
  assert (H2 : exists c2,
    (if EqualFold T cmd (lit "info")
     then Ret (PrintRawString (lit "OK") c1)
     else Connection_PrintVal T (mkTypedVal t (VString (lit "OK"))) c1)
    = Ret c2 /\ args c2 = args c /\ connected c2 = true).
  { destruct (EqualFold T cmd (lit "info")); [eexists; split; [reflexivity|split; assumption]|].
    destruct (ReadValue_prints s _ rest Hv T (print_mode c1)) as [out Hout].
    rewrite (Connection_PrintVal_out T _ _ out Hout).
    eexists; split; [reflexivity|split; assumption]. }
  destruct H2 as (c2 & -> & Ha2 & Hc2). cbn [bind].
  change (bytes_eqb (lit "OK") (lit "OK")) with true. cbv iota.
  eexists. split; [reflexivity|]. split.
  - unfold CliPrefix, addr. cbn [connected args set_args Db set_Db Hostname Port].
    rewrite Hc2, Ha2, (Atoi_Itoa n Hn). cbn [fst negb].
    destruct (n =? 0); reflexivity.
  - unfold CliPrefix, Close. destruct (conn _); reflexivity.
Qed.

(** ** main.go: the executor of the interactive mode *)

Lemma blank_app (a b : bytes) : blank (a ++ b) = blank a && blank b.
Proof. apply forallb_app. Qed.

Lemma isASCII_app (a b : bytes) : isASCII (a ++ b) = isASCII a && isASCII b.
Proof. apply forallb_app. Qed.

Lemma isASCII_rev (s : bytes) : isASCII (rev s) = isASCII s.
Proof.
  induction s as [|c s IH]; [reflexivity|]. cbn [rev]. rewrite isASCII_app, IH.
  cbn [isASCII forallb]. rewrite andb_true_r. apply andb_comm.
Qed.

Lemma ascii_code (c : byte) : (code c <? 128) = true -> (128 <=? code c) = false.
Proof. intros H. apply Z.ltb_lt in H. apply Z.leb_gt. exact H. Qed.

(** [TrimSpace] on a text below 0x80 takes blanks off, and nothing else. *)
Lemma trim_stop_split (X : GoTrim) (r : bytes) :
  isASCII r = true ->
  exists post, blank post = true /\ rev r = trim_stop X r ++ post.
Proof.
  induction r as [|c r IH]; intros Ha; [exists []; split; reflexivity|].
  cbn [isASCII forallb] in Ha. apply andb_true_iff in Ha. destruct Ha as [Hc Hr].
  cbn [trim_stop]. rewrite (ascii_code c Hc).
  destruct (asciiSpace c) eqn:Es.
  - destruct (IH Hr) as (post & Hb & Hp). exists (post ++ [c]). split.
    + rewrite blank_app, Hb. cbn [blank forallb]. rewrite Es. reflexivity.
    + cbn [rev]. rewrite Hp, app_assoc. reflexivity.
  - exists []. split; [reflexivity|]. rewrite app_nil_r. reflexivity.
Qed.

Lemma TrimSpace_split (X : GoTrim) (s : bytes) :
  isASCII s = true ->
  exists pre post, blank pre = true /\ blank post = true /\ s = pre ++ TrimSpace X s ++ post.
Proof.
  induction s as [|c s IH]; intros Ha; [exists [], []; repeat split|].
  pose proof Ha as Hall.
  cbn [isASCII forallb] in Ha. apply andb_true_iff in Ha. destruct Ha as [Hc Hs].
  cbn [TrimSpace]. rewrite (ascii_code c Hc).
  destruct (asciiSpace c) eqn:Es.
  - destruct (IH Hs) as (pre & post & Hb1 & Hb2 & Hp). exists (c :: pre), post.
    split; [cbn [blank forallb]; rewrite Es; exact Hb1|]. split; [exact Hb2|].
    cbn [app]. rewrite <- Hp. reflexivity.
  - destruct (trim_stop_split X (rev (c :: s))) as (post & Hb & Hp).
    + rewrite isASCII_rev. exact Hall.
    + rewrite rev_involutive in Hp. exists [], post. split; [reflexivity|].
      split; [exact Hb|exact Hp].
Qed.

Lemma TrimSpace_blank (X : GoTrim) (s : bytes) : blank s = true -> TrimSpace X s = [].
Proof.
  induction s as [|c s IH]; [reflexivity|]. cbn [blank forallb]. intros H.
  apply andb_true_iff in H. destruct H as [Hc Hs]. cbn [TrimSpace].
  rewrite (ascii_code c (asciiSpace_ascii c Hc)), Hc. exact (IH Hs).
Qed.

Lemma fieldsASCII_cur (s : bytes) : forall cur, cur <> [] -> fieldsASCII cur s <> [].
Proof.
  induction s as [|c s IH]; intros cur Hc; cbn [fieldsASCII].
  - destruct cur; [contradiction|discriminate].
  - destruct (asciiSpace c); [destruct cur; [contradiction|discriminate]|].
    apply IH. discriminate.
Qed.

Lemma fieldsASCII_nonblank (s : bytes) : blank s = false -> fieldsASCII [] s <> [].
Proof.
  induction s as [|c s IH]; [discriminate|]. cbn [blank forallb fieldsASCII].
  destruct (asciiSpace c); [exact IH|]. intros _. apply fieldsASCII_cur. discriminate.
Qed.

Lemma fieldsASCII_pre (pre s : bytes) :
  blank pre = true -> fieldsASCII [] (pre ++ s) = fieldsASCII [] s.
Proof.
  induction pre as [|c pre IH]; [reflexivity|]. cbn [blank forallb]. intros H.
  apply andb_true_iff in H. destruct H as [Hc Hp]. cbn [app fieldsASCII]. rewrite Hc.
  exact (IH Hp).
Qed.

Lemma fieldsASCII_post (post s : bytes) :
  blank post = true -> forall cur, fieldsASCII cur (s ++ post) = fieldsASCII cur s.
Proof.
  intros Hb. induction s as [|c s IH]; intros cur.
  - cbn [app]. destruct post as [|p post]; [reflexivity|].
    cbn [blank forallb] in Hb. apply andb_true_iff in Hb. destruct Hb as [Hp Hb].
    cbn [fieldsASCII]. rewrite Hp, (fieldsASCII_blank post Hb). reflexivity.
  - cbn [app fieldsASCII]. rewrite !IH. reflexivity.
Qed.

(** The words of the trimmed command are the words of the command. *)
Lemma Fields_TrimSpace (T : GoText) (X : GoTrim) (s : bytes) :
  isASCII s = true -> Fields T (TrimSpace X s) = Fields T s.
Proof.
  intros Ha. destruct (TrimSpace_split X s Ha) as (pre & post & Hb1 & Hb2 & Hp).
  assert (Ht : isASCII (TrimSpace X s) = true).
  { rewrite Hp in Ha. rewrite !isASCII_app in Ha.
    apply andb_true_iff in Ha. destruct Ha as [_ Ha].
    apply andb_true_iff in Ha. destruct Ha as [Ha _]. exact Ha. }
  unfold Fields. rewrite Ha, Ht. rewrite Hp at 2.
  rewrite (fieldsASCII_pre pre _ Hb1), (fieldsASCII_post post _ Hb2). reflexivity.
Qed.

Lemma Fields_nonblank (T : GoText) (s : bytes) :
  isASCII s = true -> blank s = false -> exists cmd more, Fields T s = cmd :: more.
Proof.
  intros Ha Hb. unfold Fields. rewrite Ha. pose proof (fieldsASCII_nonblank s Hb) as H.
  destruct (fieldsASCII [] s) as [|cmd more]; [contradiction|]. exists cmd, more. reflexivity.
Qed.

Lemma TrimSpace_nonblank (T : GoText) (X : GoTrim) (s : bytes) :
  isASCII s = true -> blank s = false -> TrimSpace X s <> [].
Proof.
  intros Ha Hb Ht. destruct (Fields_nonblank T s Ha Hb) as (cmd & more & Hf).
  rewrite <- (Fields_TrimSpace T X s Ha), Ht in Hf. discriminate Hf.
Qed.

(** X22: the first word of a line.  In a connected session, on a line of
    bytes below 0x80: a line of blanks only is dropped, nothing is sent.
    Any other line has a first word, so that the test for the commands
    never fails for want of one; when that word is EXIT or QUIT, in any
    letter case and whatever follows it, the process ends with status 0 and
    nothing is sent to the server; otherwise the line goes to [ExecPrint]
    without the blanks around it, and an error that comes back is printed
    on a line of its own. *)
Theorem executor_first_word (T : GoText) (X : GoTrim) (E : Env) (input : bytes)
    (c : Connection) :
  connected c = true -> isASCII input = true ->
  (blank input = true -> executor T X E input c = Ret (c, Returned)) /\
  (blank input = false ->
   exists cmd more,
     Fields T input = cmd :: more /\
     executor T X E input c =
     (if EqualFold T cmd (lit "exit") || EqualFold T cmd (lit "quit")
      then Ret (c, Exited 0)
      else '(c2, err) <- ExecPrint T (TrimSpace X input) c ;;
           Ret (match err with
                | Some e => emit (EvOut (Error_ e ++ [LF])) c2
                | None => c2
                end, Returned))).
Proof.
  intros Hc Ha. unfold executor. rewrite Hc. cbn [negb bind]. cbv beta iota zeta. split.
  - intros Hb. rewrite (TrimSpace_blank X input Hb). reflexivity.
  - intros Hb. destruct (Fields_nonblank T input Ha Hb) as (cmd & more & Hf).
    exists cmd, more. split; [exact Hf|].
    pose proof (TrimSpace_nonblank T X input Ha Hb) as Hne.
    pose proof (Fields_TrimSpace T X input Ha) as Hft. rewrite Hf in Hft.
    destruct (TrimSpace X input) as [|t ts] eqn:Et; [contradiction|].
    unfold isCmd. rewrite Hft. cbn [bind].
    destruct (EqualFold T cmd (lit "exit")); cbn [bind orb]; [reflexivity|].
    destruct (EqualFold T cmd (lit "quit")); [reflexivity|].
    destruct (ExecPrint T (t :: ts) c) as [[c2 [e|]]| |]; reflexivity.
Qed.

Lemma ExecPrint_connected (T : GoText) (input : bytes) (c c' : Connection) err :
  ExecPrint T input c = Ret (c', err) -> connected c' = connected c.
Proof.
  intros H. unfold ExecPrint in H.
  destruct (Exec input c) as [[[c1 tv] e1]| |] eqn:EX; cbn [bind] in H; try discriminate H.
  apply Exec_connected in EX. cbv beta iota zeta in H.
  destruct e1; [injection H as <- _; exact EX|].
  destruct tv as [tv|]; [|discriminate H].
  destruct (isCmd T input (lit "info")) as [info| |]; cbn [bind] in H; try discriminate H.
  assert (H2 : forall c2,
    (if info then str <- assert_string (Val tv) ;; Ret (PrintRawString str c1)
     else Connection_PrintVal T tv c1) = Ret c2 -> connected c2 = connected c).
  { intros c2 H2. destruct info.
    - destruct (assert_string (Val tv)); cbn [bind] in H2; try discriminate H2.
      injection H2 as <-. exact EX.
    - unfold Connection_PrintVal in H2.
      destruct (PrintVal T tv _); cbn [bind] in H2; try discriminate H2.
      injection H2 as <-. exact EX. }
  destruct (if info then _ else _) as [c2| |]; cbn [bind] in H; try discriminate H.
  specialize (H2 c2 eq_refl).
  destruct (isCmd T input (lit "select")) as [sel| |]; cbn [bind] in H; try discriminate H.
  destruct sel; [|injection H as <- _; exact H2].
  destruct (assert_string (Val tv)) as [str| |]; cbn [bind] in H; try discriminate H.
  destruct (bytes_eqb str (lit "OK")); [|injection H as <- _; exact H2].
  destruct (Fields T input) as [|f0 [|arg more]]; try discriminate H.
  injection H as <- _. exact H2.
Qed.

(** X23: a session whose peer is gone.  In a connected session the
    executor does not dial, and whatever a command does, the session is
    still marked connected after it: a failure of the write or of the
    decoding is only reported, its text twice, once by [Exec] as it is and
    once more by the executor with a newline. *)
Theorem executor_keeps_session (T : GoText) (X : GoTrim) (E : Env) (input : bytes)
    (c : Connection) :
  connected c = true ->
  (forall E', executor T X E' input c = executor T X E input c) /\
  (forall c' f, executor T X E input c = Ret (c', f) -> connected c' = true) /\
  (forall cmd more k e,
     isASCII input = true -> Fields T input = cmd :: more ->
     EqualFold T cmd (lit "exit") = false -> EqualFold T cmd (lit "quit") = false ->
     conn c = Some k ->
     (next_write c = Some e ->
      executor T X E input c
      = Ret (emit (EvOut (Error_ e ++ [LF]))
               (emit (EvOut (Error_ e)) (written (TrimSpace X input) c)), Returned)) /\
     (forall s v s',
        next_write c = None -> bufReader c = Some s -> ReadValue s = Ret (v, Some e, s') ->
        executor T X E input c
        = Ret (emit (EvOut (Error_ e ++ [LF]))
                 (emit (EvOut (Error_ e)) (answered (TrimSpace X input) s' c)), Returned))).
Proof.
  intros Hc. split; [|split].
  - intros E'. unfold executor. rewrite Hc. reflexivity.
  - intros c' f. unfold executor. rewrite Hc. cbn [negb bind]. cbv beta iota zeta.
    destruct (TrimSpace X input) as [|t ts]; [intros H; injection H as <- _; exact Hc|].
    destruct (isCmd T (t :: ts) (lit "exit")) as [[|]| |]; cbn [bind]; try discriminate.
    { intros H. injection H as <- _. exact Hc. }
    destruct (isCmd T (t :: ts) (lit "quit")) as [[|]| |]; cbn [bind]; try discriminate.
    { intros H. injection H as <- _. exact Hc. }
    destruct (ExecPrint T (t :: ts) c) as [[c2 err]| |] eqn:EP; cbn [bind]; try discriminate.
    apply ExecPrint_connected in EP. cbv beta iota zeta.
    destruct err; intros H; injection H as <- _; cbn [connected emit]; congruence.
  - intros cmd more k e Ha Hf Hex Hq Hk.
    pose proof (Fields_TrimSpace T X input Ha) as Hft. rewrite Hf in Hft.
    assert (Hx : executor T X E input c =
      '(c2, err) <- ExecPrint T (TrimSpace X input) c ;;
      Ret (match err with
           | Some e => emit (EvOut (Error_ e ++ [LF])) c2
           | None => c2
           end, Returned)).
    { unfold executor. rewrite Hc. cbn [negb bind]. cbv beta iota zeta.
      destruct (TrimSpace X input) as [|t ts] eqn:Et.
      - unfold Fields in Hft. cbn in Hft. discriminate Hft.
      - unfold isCmd. rewrite Hft. cbn [bind]. rewrite Hex, Hq. cbn [bind].
        destruct (ExecPrint T (t :: ts) c) as [[c2 [e0|]]| |]; reflexivity. }
    rewrite Hx. split.
    + intros Hw. unfold ExecPrint. rewrite (Exec_write_error _ c k e Hk Hw). reflexivity.
    + intros s v s' Hw Hs Hv. unfold ExecPrint.
      rewrite (Exec_decode_error _ c k s s' v e Hk Hw Hs Hv). reflexivity.
Qed.

(** X24: no server, no way out by a command.  While the session is not
    connected the executor dials first; when the dial fails it reports the
    failure and returns, before it has looked at the line: a blank line
    gives the message as well, and EXIT and QUIT do not end the process. *)
Theorem executor_server_down (T : GoText) (X : GoTrim) (E : Env) (input : bytes)
    (c : Connection) (e : error) :
  connected c = false -> dial E = inl e -> (Tls (args c) = true -> tlsConfig E = None) ->
  executor T X E input c =
  Ret (emit (EvOut (lit "Could not connect to Redis at " ++ addr c ++ lit ": "
                    ++ Error_ e ++ [LF])) (Close c), Returned).
Proof.
  intros Hc Hd Htls. unfold executor, Connect. rewrite Hc, Hd, args_Close. cbn [negb].
  assert (Had : addr (Close c) = addr c) by (unfold addr; rewrite args_Close; reflexivity).
  rewrite Had.
  destruct (Tls (args c)); [rewrite (Htls eq_refl)|]; reflexivity.
Qed.

(** ** main.go: the command line *)

(** No two fields of [Args] carry the same flag: each has an entry of its
    own in [fieldsMap], under its flag, unset and with the zero value. *)
Lemma fieldsMap_entries :
  fieldsMap = map (fun fld => (flagTag fld, mkFv fld (zeroValue (FKind fld)) false)) Args_fields.
Proof. vm_compute. reflexivity. Qed.

Lemma list_ind2 (A : Type) (P : list A -> Prop) :
  P [] -> (forall a, P [a]) -> (forall a b l, P l -> P (b :: l) -> P (a :: b :: l)) ->
  forall l, P l.
Proof.
  intros H0 H1 H2 l.
  assert (H : P l /\ forall a, P (a :: l)).
  { induction l as [|b l [IH1 IH2]]; [split; [exact H0|exact H1]|].
    split; [apply IH2|]. intros a. apply H2; [exact IH1|apply IH2]. }
  exact (proj1 H).
Qed.

(** One round of the loop of [parseArgs]. *)
Lemma parse_options_step (usage : bytes) (m : FieldsMap) (a : bytes) (more : list bytes) :
  parse_options usage m (a :: more) =
  if HasPrefix a (lit "-") then
    match lookup (TrimLeft a "-"%byte) m with
    | Some x =>
        match FKind (fv_f x) with
        | KBool => parse_options usage (store (TrimLeft a "-"%byte) (SetValue x []) m) more
        | _ =>
            match more with
            | value :: more' =>
                parse_options usage (store (TrimLeft a "-"%byte) (SetValue x value) m) more'
            | [] => Stopped (usage ++ [LF]) 0
            end
        end
    | None => Stopped (unrecognized a) 0
    end
  else Parsed m (a :: more).
Proof. reflexivity. Qed.

(** Options that are taken whole are taken the same way with a command
    after them. *)
Lemma parse_options_app (usage : bytes) (cmd : bytes) (words : list bytes) :
  HasPrefix cmd (lit "-") = false ->
  forall opts m m1,
  parse_options usage m opts = Parsed m1 [] ->
  parse_options usage m (opts ++ cmd :: words) = Parsed m1 (cmd :: words).
Proof.
  intros Hc opts. induction opts as [|a|a b l IH1 IH2] using list_ind2; intros m m1 H.
  - injection H as <-. cbn [app]. rewrite parse_options_step, Hc. reflexivity.
  - rewrite parse_options_step in H. cbn [app]. rewrite parse_options_step.
    destruct (HasPrefix a (lit "-")); [|discriminate H].
    destruct (lookup _ m) as [x|]; [|discriminate H].
    destruct (FKind (fv_f x)); try discriminate H.
    injection H as <-. rewrite parse_options_step, Hc. reflexivity.
  - rewrite parse_options_step in H. cbn [app]. rewrite parse_options_step.
    destruct (HasPrefix a (lit "-")); [|discriminate H].
    destruct (lookup _ m) as [x|]; [|discriminate H].
    destruct (FKind (fv_f x)); first [exact (IH1 _ _ H)|exact (IH2 _ _ H)].
Qed.

(** What [parseArgs] returns as the rest is the end of the arguments, from
    the first one that the loop does not take as an option or as the value
    of one. *)
Lemma parse_options_suffix (usage : bytes) :
  forall argv m m1 rest,
  parse_options usage m argv = Parsed m1 rest ->
  exists opts,
    argv = opts ++ rest /\ parse_options usage m opts = Parsed m1 [] /\
    (rest = [] \/ exists cmd words, rest = cmd :: words /\ HasPrefix cmd (lit "-") = false).
Proof.
  intros argv. induction argv as [|a|a b l IH1 IH2] using list_ind2; intros m m1 rest H.
  - injection H as <- <-. exists []. split; [reflexivity|]. split; [reflexivity|left; reflexivity].
  - rewrite parse_options_step in H.
    destruct (HasPrefix a (lit "-")) eqn:Ea.
    + destruct (lookup _ m) as [x|] eqn:El; [|discriminate H].
      destruct (FKind (fv_f x)) eqn:Ek; try discriminate H.
      injection H as <- <-. exists [a]. split; [reflexivity|]. split; [|left; reflexivity].
      rewrite parse_options_step, Ea, El, Ek. reflexivity.
    + injection H as <- <-. exists []. split; [reflexivity|]. split; [reflexivity|].
      right. exists a, []. split; [reflexivity|exact Ea].
  - rewrite parse_options_step in H.
    destruct (HasPrefix a (lit "-")) eqn:Ea.
    + destruct (lookup _ m) as [x|] eqn:El; [|discriminate H].
      destruct (FKind (fv_f x)) eqn:Ek.
      1-3: destruct (IH1 _ _ _ H) as (opts & -> & Ho & Hr); exists (a :: b :: opts);
        (split; [reflexivity|]); (split; [|exact Hr]);
        cbn [app]; rewrite parse_options_step, Ea, El, Ek; exact Ho.
      destruct (IH2 _ _ _ H) as (opts & Hl & Ho & Hr). exists (a :: opts).
      split; [cbn [app]; rewrite <- Hl; reflexivity|]. split; [|exact Hr].
      rewrite parse_options_step, Ea, El, Ek. exact Ho.
    + injection H as <- <-. exists []. split; [reflexivity|]. split; [reflexivity|].
      right. exists a, (b :: l). split; [reflexivity|exact Ea].
Qed.

(** X25: where the command begins.  The rest that [parseArgs] returns is
    the end of the command line, from the first argument that is neither an
    option nor the value of one, and that argument does not begin with a
    dash; the arguments before it give the fields by themselves.
    Conversely, when options are accepted alone, then with a command after
    them the fields are the same and the command is returned word for word,
    also the words that begin with a dash. *)
Theorem parseArgs_command (usage : bytes) (prog : bytes) (argv : list bytes) :
  (forall m rest,
     parseArgs usage (prog :: argv) = Parsed m rest ->
     exists opts,
       argv = opts ++ rest /\ parseArgs usage (prog :: opts) = Parsed m [] /\
       (rest = [] \/ exists cmd words, rest = cmd :: words /\ HasPrefix cmd (lit "-") = false)) /\
  (forall m cmd words,
     parseArgs usage (prog :: argv) = Parsed m [] -> HasPrefix cmd (lit "-") = false ->
     parseArgs usage (prog :: argv ++ cmd :: words) = Parsed m (cmd :: words)).
Proof.
  unfold parseArgs. cbn [tl]. split.
  - intros m rest H.
    destruct (parse_options usage fieldsMap argv) as [m1 rest1|] eqn:Ep; [|discriminate H].
    injection H as <- <-.
    destruct (parse_options_suffix usage argv _ _ _ Ep) as (opts & Ha & Ho & Hr).
    exists opts. split; [exact Ha|]. split; [rewrite Ho; reflexivity|exact Hr].
  - intros m cmd words H Hc.
    destruct (parse_options usage fieldsMap argv) as [m1 rest1|] eqn:Ep; [|discriminate H].
    injection H as <- ->.
    rewrite (parse_options_app usage cmd words Hc argv _ _ Ep). reflexivity.
Qed.

Lemma parseArgs_command_witness :
  exists m,
    parseArgs [] [lit "redis-cli"; lit "-n"; lit "2"; lit "--raw"] = Parsed m [] /\
    parseArgs [] [lit "redis-cli"; lit "-n"; lit "2"; lit "--raw"; lit "get"; lit "-h"]
    = Parsed m [lit "get"; lit "-h"] /\
    int_field (lit "Db") m = 2 /\ string_field (lit "Hostname") m = lit "127.0.0.1".
Proof.
  eexists. split; [reflexivity|]. split.
  - apply (proj2 (parseArgs_command [] (lit "redis-cli") [lit "-n"; lit "2"; lit "--raw"])
             _ (lit "get") [lit "-h"]); reflexivity.
  - split; reflexivity.
Defined.

Lemma bytes_eqb_refl (a : bytes) : bytes_eqb a a = true.
Proof. apply bytes_eqb_eq. reflexivity. Qed.

Lemma bytes_eqb_neq (a b : bytes) : a <> b -> bytes_eqb a b = false.
Proof.
  intros H. destruct (bytes_eqb a b) eqn:E; [|reflexivity].
  apply bytes_eqb_eq in E. contradiction.
Qed.

Lemma lookup_store_other (key key' : bytes) (y : fv) (m : FieldsMap) :
  key' <> key -> lookup key (store key' y m) = lookup key m.
Proof.
  intros Hne. induction m as [|[k0 x0] m IH]; cbn [store lookup].
  - rewrite (bytes_eqb_neq _ _ Hne). reflexivity.
  - destruct (bytes_eqb k0 key') eqn:E0; cbn [lookup]; [|rewrite IH; reflexivity].
    apply bytes_eqb_eq in E0. subst k0. rewrite (bytes_eqb_neq _ _ Hne). reflexivity.
Qed.

Lemma lookup_store_same (key : bytes) (x y : fv) (m : FieldsMap) :
  lookup key m = Some x -> lookup key (store key y m) = Some y.
Proof.
  induction m as [|[k0 x0] m IH]; cbn [store lookup]; [discriminate|].
  destruct (bytes_eqb k0 key) eqn:E0; cbn [lookup]; rewrite E0; [reflexivity|exact IH].
Qed.

Lemma store_shape (key : bytes) (x y : fv) (m : FieldsMap) :
  lookup key m = Some x -> fv_f y = fv_f x -> shape (store key y m) = shape m.
Proof.
  intros Hl Hf. induction m as [|[k0 x0] m IH]; cbn [store lookup] in *; [discriminate Hl|].
  destruct (bytes_eqb k0 key) eqn:E0.
  - injection Hl as ->. unfold shape. cbn [map fst snd]. rewrite Hf. reflexivity.
  - unfold shape in *. cbn [map fst snd]. rewrite (IH Hl). reflexivity.
Qed.

Lemma absent_tail (key a : bytes) (argv : list bytes) : absent key (a :: argv) -> absent key argv.
Proof. intros H b Hb. apply H. right. exact Hb. Qed.

(** The loop keeps the fields where they are, and leaves alone the entry
    of a flag that is not among the arguments. *)
Lemma parse_options_frame (usage : bytes) (key : bytes) :
  forall argv m m1 rest,
  parse_options usage m argv = Parsed m1 rest ->
  shape m1 = shape m /\ (absent key argv -> lookup key m1 = lookup key m).
Proof.
  assert (Hstep : forall a x m value,
    lookup (TrimLeft a "-"%byte) m = Some x ->
    shape (store (TrimLeft a "-"%byte) (SetValue x value) m) = shape m)
    by (intros a x m value Hl; exact (store_shape _ x (SetValue x value) m Hl eq_refl)).
  intros argv. induction argv as [|a|a b l IH1 IH2] using list_ind2; intros m m1 rest H.
  - injection H as <- _. split; [reflexivity|]. intros _. reflexivity.
  - rewrite parse_options_step in H.
    destruct (HasPrefix a (lit "-")) eqn:Ea;
      [|injection H as <- _; split; [reflexivity|intros _; reflexivity]].
    destruct (lookup _ m) as [x|] eqn:El; [|discriminate H].
    destruct (FKind (fv_f x)); try discriminate H.
    injection H as <- _. split; [exact (Hstep a x m [] El)|].
    intros Hab. apply lookup_store_other. apply Hab; [left; reflexivity|exact Ea].
  - rewrite parse_options_step in H.
    destruct (HasPrefix a (lit "-")) eqn:Ea;
      [|injection H as <- _; split; [reflexivity|intros _; reflexivity]].
    destruct (lookup _ m) as [x|] eqn:El; [|discriminate H].
    destruct (FKind (fv_f x)).
    1-3: destruct (IH1 _ _ _ H) as [Hs Hu]; (split; [rewrite Hs; exact (Hstep a x m b El)|]);
      intros Hab; rewrite Hu by exact (absent_tail _ _ _ (absent_tail _ _ _ Hab));
      apply lookup_store_other; apply Hab; [left; reflexivity|exact Ea].
    destruct (IH2 _ _ _ H) as [Hs Hu]. split; [rewrite Hs; exact (Hstep a x m [] El)|].
    intros Hab. rewrite Hu by exact (absent_tail _ _ _ Hab).
    apply lookup_store_other. apply Hab; [left; reflexivity|exact Ea].
Qed.

Lemma set_defaults_lookup (key : bytes) (m : FieldsMap) :
  lookup key (set_defaults m) = option_map defaulted (lookup key m).
Proof.
  induction m as [|[k0 x0] m IH]; [reflexivity|].
  cbn [set_defaults map lookup]. destruct (bytes_eqb k0 key); [reflexivity|exact IH].
Qed.

Lemma defaulted_f (x : fv) : fv_f (defaulted x) = fv_f x.
Proof.
  unfold defaulted. destruct (fv_set x); [reflexivity|].
  destruct (defaultTag (fv_f x)); reflexivity.
Qed.

Lemma set_defaults_shape (m : FieldsMap) : shape (set_defaults m) = shape m.
Proof.
  induction m as [|[k0 x0] m IH]; [reflexivity|].
  unfold shape in *. cbn [set_defaults map fst snd]. fold (defaulted x0).
  rewrite defaulted_f. f_equal. exact IH.
Qed.

(** Reading a field by its name gives the entry of its flag. *)
Lemma field_lookup (name key : bytes) (x : fv) (m : FieldsMap) :
  forallb (fun kf => implb (bytes_eqb (Name (snd kf)) name) (bytes_eqb (fst kf) key)) (shape m)
  = true ->
  lookup key m = Some x -> Name (fv_f x) = name -> field name m = Some (fv_v x).
Proof.
  intros Hs Hl Hn. induction m as [|[k0 y] m IH]; [discriminate Hl|].
  unfold shape in Hs. cbn [map forallb fst snd] in Hs.
  apply andb_true_iff in Hs. destruct Hs as [H0 Hs].
  cbn [field lookup fv_f] in *.
  destruct (bytes_eqb (Name (fv_f y)) name) eqn:En.
  - cbn [implb] in H0. rewrite H0 in Hl. injection Hl as ->. reflexivity.
  - destruct (bytes_eqb k0 key).
    + injection Hl as ->. rewrite Hn, bytes_eqb_refl in En. discriminate En.
    + exact (IH Hs Hl).
Qed.

Lemma linked_inv (name key : bytes) :
  linked name key = true ->
  exists x0, lookup key fieldsMap = Some x0 /\ Name (fv_f x0) = name /\
    forallb (fun kf => implb (bytes_eqb (Name (snd kf)) name) (bytes_eqb (fst kf) key))
            (shape fieldsMap) = true.
Proof.
  unfold linked. intros H. apply andb_true_iff in H. destruct H as [H1 H2].
  destruct (lookup key fieldsMap) as [x0|]; [|discriminate H1].
  exists x0. split; [reflexivity|]. split; [apply bytes_eqb_eq; exact H1|exact H2].
Qed.

(** A flag that is not among the arguments leaves its field as it is
    without any argument. *)
Lemma parseArgs_field_default (usage : bytes) (osArgs : list bytes) (m : FieldsMap)
    (rest : list bytes) (name key : bytes) :
  linked name key = true ->
  parseArgs usage osArgs = Parsed m rest -> absent key (tl osArgs) ->
  field name m = field name (set_defaults fieldsMap).
Proof.
  intros Hlk H Hab. destruct (linked_inv name key Hlk) as (x0 & Hl0 & Hn & Hs).
  unfold parseArgs in H.
  destruct (parse_options usage fieldsMap (tl osArgs)) as [m1 rest1|] eqn:Ep; [|discriminate H].
  injection H as <- _.
  destruct (parse_options_frame usage key _ _ _ _ Ep) as [Hsh Hu].
  specialize (Hu Hab).
  rewrite (field_lookup name key (defaulted x0) (set_defaults m1)).
  - rewrite (field_lookup name key (defaulted x0) (set_defaults fieldsMap)).
    + reflexivity.
    + rewrite set_defaults_shape. exact Hs.
    + rewrite set_defaults_lookup, Hl0. reflexivity.
    + rewrite defaulted_f. exact Hn.
  - rewrite set_defaults_shape, Hsh. exact Hs.
  - rewrite set_defaults_lookup, Hu, Hl0. reflexivity.
  - rewrite defaulted_f. exact Hn.
Qed.

(** X26: the defaults.  Whatever the other arguments are, a flag that is
    not among them leaves its field of [Args] at the default of the tag, or
    at the zero value when the tag has none: the host 127.0.0.1, the port
    6379, one execution, no interval, database 0, the pattern [*], the count
    10, no password, no user, and every switch off. *)
Theorem parseArgs_defaults (usage : bytes) (osArgs : list bytes) (m : FieldsMap)
    (rest : list bytes) (duration : float64 -> Z) :
  parseArgs usage osArgs = Parsed m rest ->
  let a := Args_of duration m in
  let argv := tl osArgs in
  (absent (lit "h") argv -> Hostname a = lit "127.0.0.1") /\
  (absent (lit "p") argv -> Port a = 6379) /\
  (absent (lit "a") argv -> Password a = []) /\
  (absent (lit "user") argv -> User a = []) /\
  (absent (lit "pass") argv -> Pass a = []) /\
  (absent (lit "askpass") argv -> Askpass a = false) /\
  (absent (lit "r") argv -> Repeat a = 1) /\
  (absent (lit "i") argv -> IntervalNs a = duration (ParseFloat (lit "0"))) /\
  (absent (lit "n") argv -> Db a = 0) /\
  (absent (lit "tls") argv -> Tls a = false) /\
  (absent (lit "raw") argv -> Raw a = false) /\
  (absent (lit "no-raw") argv -> NoRaw a = false) /\
  (absent (lit "pattern") argv -> Pattern a = lit "*") /\
  (absent (lit "count") argv -> Count a = 10) /\
  (absent (lit "help") argv -> bool_field (lit "Help") m = false) /\
  (absent (lit "scan") argv -> bool_field (lit "Scan") m = false) /\
  (absent (lit "e") argv -> bool_field (lit "ExitError") m = false).
Proof.
  intros H a argv. unfold a, argv, Args_of.
  cbn [Hostname Port Password User Pass Askpass Repeat IntervalNs Db Tls Raw NoRaw Pattern Count].
  unfold string_field, int_field, bool_field, float_field.
  repeat match goal with
         | |- _ /\ _ => split
         | |- absent ?key _ -> _ =>
             let Hab := fresh in
             intros Hab;
             match goal with
             | |- context [field ?name m] =>
                 rewrite (parseArgs_field_default usage osArgs m rest name key eq_refl H Hab)
             end;
             reflexivity
         end.
Qed.

Lemma parseArgs_defaults_witness :
  exists m,
    parseArgs [] [lit "redis-cli"; lit "-h"; lit "db.example"; lit "ping"]
    = Parsed m [lit "ping"] /\
    Hostname (Args_of (fun _ => 0) m) = lit "db.example" /\
    Port (Args_of (fun _ => 0) m) = 6379 /\
    Repeat (Args_of (fun _ => 0) m) = 1.
Proof.
  eexists. split; [reflexivity|]. split; [reflexivity|].
  destruct (parseArgs_defaults [] [lit "redis-cli"; lit "-h"; lit "db.example"; lit "ping"]
              _ _ (fun _ => 0) eq_refl) as (_ & Hp & _ & _ & _ & _ & Hr & _).
  split.
  - apply Hp. intros a [<-|[<-|[<-|[]]]]; intros; discriminate.
  - apply Hr. intros a [<-|[<-|[<-|[]]]]; intros; discriminate.
Defined.

Lemma parse_options_app_any (usage : bytes) (l : list bytes) :
  forall opts m m1,
  parse_options usage m opts = Parsed m1 [] ->
  parse_options usage m (opts ++ l) = parse_options usage m1 l.
Proof.
  intros opts. induction opts as [|a|a b opts IH1 IH2] using list_ind2; intros m m1 H.
  - injection H as <-. reflexivity.
  - rewrite parse_options_step in H. cbn [app]. rewrite parse_options_step.
    destruct (HasPrefix a (lit "-")); [|discriminate H].
    destruct (lookup _ m) as [x|]; [|discriminate H].
    destruct (FKind (fv_f x)); try discriminate H.
    injection H as <-. reflexivity.
  - rewrite parse_options_step in H. cbn [app]. rewrite parse_options_step.
    destruct (HasPrefix a (lit "-")); [|discriminate H].
    destruct (lookup _ m) as [x|]; [|discriminate H].
    destruct (FKind (fv_f x)); first [exact (IH1 _ _ H)|exact (IH2 _ _ H)].
Qed.

Lemma lookup_shape (key : bytes) :
  forall m0 m, shape m = shape m0 ->
  match lookup key m0 with
  | Some x0 => exists x, lookup key m = Some x /\ fv_f x = fv_f x0
  | None => lookup key m = None
  end.
Proof.
  induction m0 as [|[k0 x0] m0 IH]; intros [|[k x] m] Hs; try discriminate Hs; [reflexivity|].
  unfold shape in Hs. cbn [map fst snd] in Hs. injection Hs as -> Hf Hs.
  cbn [lookup]. destruct (bytes_eqb k0 key).
  - exists x. split; [reflexivity|exact Hf].
  - exact (IH m Hs).
Qed.

Lemma parseArgs_options (usage : bytes) (prog : bytes) (pre : list bytes) (m0 : FieldsMap) :
  parseArgs usage (prog :: pre) = Parsed m0 [] ->
  exists m1, parse_options usage fieldsMap pre = Parsed m1 [] /\ shape m1 = shape fieldsMap.
Proof.
  unfold parseArgs. cbn [tl]. intros H.
  destruct (parse_options usage fieldsMap pre) as [m1 rest1|] eqn:Ep; [|discriminate H].
  injection H as _ ->. exists m1. split; [reflexivity|].
  exact (proj1 (parse_options_frame usage [] _ _ _ _ Ep)).
Qed.

(** X27: a flag that is given.  After options that are accepted, a flag
    of the table, behind any number of dashes, sets its field: a switch to
    true, any other flag to what [SetValue] makes of the next argument,
    whatever that argument is: the text as it is, the integer that [Atoi]
    returns (0 for a text that is no number), or the float.  When the flag
    does not come again after it, that is the value of the field: the last
    occurrence counts, and the default of the tag is not applied, also when
    the value is the empty text or 0. *)
Theorem parseArgs_explicit (usage : bytes) (prog dashed value name key : bytes)
    (pre post rest : list bytes) (m0 m : FieldsMap) (x0 : fv) :
  linked name key = true -> lookup key fieldsMap = Some x0 ->
  parseArgs usage (prog :: pre) = Parsed m0 [] ->
  HasPrefix dashed (lit "-") = true -> TrimLeft dashed "-"%byte = key ->
  absent key post ->
  (FKind (fv_f x0) <> KBool ->
   parseArgs usage (prog :: pre ++ dashed :: value :: post) = Parsed m rest ->
   field name m = Some (converted (FKind (fv_f x0)) value)) /\
  (FKind (fv_f x0) = KBool ->
   parseArgs usage (prog :: pre ++ dashed :: post) = Parsed m rest ->
   field name m = Some (BoolOf true)).
Proof.
  intros Hlk Hl0 Hpre Hd Hkey Hab.
  destruct (linked_inv name key Hlk) as (x0' & Hl0' & Hn & Hs).
  rewrite Hl0 in Hl0'. injection Hl0' as <-.
  destruct (parseArgs_options usage prog pre m0 Hpre) as (m1 & Hp1 & Hsh1).
  pose proof (lookup_shape key fieldsMap m1 Hsh1) as Hx. rewrite Hl0 in Hx.
  destruct Hx as (x & Hlx & Hfx).
  assert (Hend : forall str m2,
    parse_options usage (store key (SetValue x str) m1) post = Parsed m2 rest ->
    field name (set_defaults m2) = Some (fv_v (SetValue x str))).
  { intros str m2 Hp2.
    destruct (parse_options_frame usage key _ _ _ _ Hp2) as [Hsh2 Hu2].
    specialize (Hu2 Hab). rewrite (lookup_store_same key x _ m1 Hlx) in Hu2.
    apply (field_lookup name key (SetValue x str) (set_defaults m2)).
    - rewrite set_defaults_shape, Hsh2, (store_shape key x (SetValue x str) m1 Hlx eq_refl), Hsh1.
      exact Hs.
    - rewrite set_defaults_lookup, Hu2. reflexivity.
    - cbn [fv_f SetValue]. rewrite Hfx. exact Hn. }
  split.
  - intros Hk H. unfold parseArgs in H. cbn [tl] in H.
    rewrite (parse_options_app_any usage _ pre _ _ Hp1), parse_options_step, Hd, Hkey, Hlx,
      Hfx in H.
    destruct (FKind (fv_f x0)) eqn:Ek; [| | |contradiction];
      (destruct (parse_options usage _ post) as [m2 rest2|] eqn:Ep2; [|discriminate H]);
      injection H as <- <-; rewrite (Hend value m2 Ep2); cbn [fv_v SetValue];
      rewrite Hfx, Ek; reflexivity.
  - intros Hk H. unfold parseArgs in H. cbn [tl] in H.
    rewrite (parse_options_app_any usage _ pre _ _ Hp1), parse_options_step, Hd, Hkey, Hlx,
      Hfx, Hk in H.
    destruct (parse_options usage _ post) as [m2 rest2|] eqn:Ep2; [|discriminate H].
    injection H as <- <-. rewrite (Hend [] m2 Ep2). cbn [fv_v SetValue].
    rewrite Hfx, Hk. reflexivity.
Qed.

Lemma parseArgs_explicit_witness :
  exists m,
    parseArgs [] [lit "redis-cli"; lit "-p"; lit "7000"; lit "--p"; lit "abc"; lit "ping"]
    = Parsed m [lit "ping"] /\
    field (lit "Port") m = Some (IntOf 0).
Proof.
  eexists. split; [reflexivity|].
  refine (proj1 (parseArgs_explicit [] (lit "redis-cli") (lit "--p") (lit "abc") (lit "Port")
                   (lit "p") [lit "-p"; lit "7000"] [lit "ping"] [lit "ping"] _ _ _
                   eq_refl eq_refl eq_refl eq_refl eq_refl _) _ eq_refl).
  - intros a [<-|[]]. discriminate.
  - discriminate.
Defined.

Lemma parse_options_stopped (usage : bytes) :
  forall argv m out status,
  parse_options usage m argv = Stopped out status ->
  status = 0 /\
  (out = usage ++ [LF] \/
   exists a, In a argv /\ HasPrefix a (lit "-") = true /\ out = unrecognized a).
Proof.
  intros argv. induction argv as [|a|a b l IH1 IH2] using list_ind2; intros m out status H.
  - discriminate H.
  - rewrite parse_options_step in H.
    destruct (HasPrefix a (lit "-")) eqn:Ea; [|discriminate H].
    destruct (lookup _ m) as [x|].
    + destruct (FKind (fv_f x)); try discriminate H;
        injection H as <- <-; (split; [reflexivity|left; reflexivity]).
    + injection H as <- <-. split; [reflexivity|]. right. exists a.
      split; [left; reflexivity|]. split; [exact Ea|reflexivity].
  - rewrite parse_options_step in H.
    destruct (HasPrefix a (lit "-")) eqn:Ea; [|discriminate H].
    destruct (lookup _ m) as [x|].
    + destruct (FKind (fv_f x)).
      1-3: destruct (IH1 _ _ _ H) as [Hs [Ho|(a' & Hi & Ho)]];
        (split; [exact Hs|]); [left; exact Ho|];
        right; exists a'; (split; [right; right; exact Hi|exact Ho]).
      destruct (IH2 _ _ _ H) as [Hs [Ho|(a' & Hi & Ho)]];
        (split; [exact Hs|]); [left; exact Ho|].
      right. exists a'. split; [right; exact Hi|exact Ho].
    + injection H as <- <-. split; [reflexivity|]. right. exists a.
      split; [left; reflexivity|]. split; [exact Ea|reflexivity].
Qed.

(** X28: a command line that is not accepted.  When [parseArgs] ends the
    process, the status is 0, whatever the flags, and the output is the
    usage or the line that names an argument with a dash in front; nothing
    is dialled.  After options that are accepted, an argument with a dash
    in front whose text behind the dashes is no flag of the table ends the
    process with that line (the arguments [-] and [--] among them: there
    is no end-of-options mark), and a flag that takes a value, as the last
    argument, ends it with the usage. *)
Theorem main_bad_option (T : GoText) (E : Env) (duration : float64 -> Z) (usage : bytes)
    (interactive : Args -> list event -> outcome (list event * finish))
    (prog a : bytes) (pre : list bytes) (m0 : FieldsMap) (tr : list event) :
  (forall osArgs out status,
     parseArgs usage osArgs = Stopped out status ->
     main T E duration usage interactive osArgs tr = Ret (EvOut out :: tr, Exited 0) /\
     (out = usage ++ [LF] \/
      exists a, In a (tl osArgs) /\ HasPrefix a (lit "-") = true /\ out = unrecognized a)) /\
  (parseArgs usage (prog :: pre) = Parsed m0 [] -> HasPrefix a (lit "-") = true ->
   (lookup (TrimLeft a "-"%byte) fieldsMap = None ->
    forall more,
      main T E duration usage interactive (prog :: pre ++ a :: more) tr
      = Ret (EvOut (unrecognized a) :: tr, Exited 0)) /\
   (forall x0,
      lookup (TrimLeft a "-"%byte) fieldsMap = Some x0 -> FKind (fv_f x0) <> KBool ->
      main T E duration usage interactive (prog :: pre ++ [a]) tr
      = Ret (EvOut (usage ++ [LF]) :: tr, Exited 0))).
Proof.
  split.
  - intros osArgs out status H. unfold main. rewrite H. unfold parseArgs in H.
    destruct (parse_options usage fieldsMap (tl osArgs)) as [m1 rest1|] eqn:Ep; [discriminate H|].
    injection H as <- <-.
    destruct (parse_options_stopped usage _ _ _ _ Ep) as [-> Ho].
    split; [reflexivity|exact Ho].
  - intros Hpre Ha.
    destruct (parseArgs_options usage prog pre m0 Hpre) as (m1 & Hp1 & Hsh1).
    pose proof (lookup_shape (TrimLeft a "-"%byte) fieldsMap m1 Hsh1) as Hx.
    split.
    + intros Hl more. rewrite Hl in Hx. unfold main, parseArgs. cbn [tl].
      rewrite (parse_options_app_any usage _ pre _ _ Hp1), parse_options_step, Ha, Hx.
      reflexivity.
    + intros x0 Hl Hk. rewrite Hl in Hx. destruct Hx as (x & Hlx & Hfx).
      unfold main, parseArgs. cbn [tl].
      rewrite (parse_options_app_any usage _ pre _ _ Hp1), parse_options_step, Ha, Hlx, Hfx.
      destruct (FKind (fv_f x0)); [reflexivity|reflexivity|reflexivity|contradiction].
Qed.

(** ** main.go: from the command line to the exit status *)

Lemma ExecPrint_error_text (T : GoText) (input cmd text : bytes) (more : list bytes)
    (c : Connection) (k : Conn) (s rest : stream) :
  Fields T input = cmd :: more ->
  conn c = Some k -> next_write c = None -> bufReader c = Some s ->
  ReadValue s = Ret (Some (mkTypedVal TypeError (VString text)), None, rest) ->
  text <> lit "OK" ->
  ExecPrint T input c =
  Ret (emit (EvOut (if EqualFold T cmd (lit "info") then text
                    else if print_mode c then text ++ [LF]
                         else lit "(error) " ++ text ++ [LF]))
            (answered input rest c), None).
Proof.
  intros Hf Hk Hw Hs Hv Hne.
  rewrite (ExecPrint_after_reply T input c k s rest _ Hk Hw Hs Hv)
    by (intros _; eexists; reflexivity).
  cbv zeta. unfold isCmd. rewrite Hf. cbn [bind Val assert_string].
  rewrite (bytes_eqb_neq _ _ Hne).
  destruct (EqualFold T cmd (lit "info")).
  - cbn [bind]. destruct (EqualFold T cmd (lit "select")); reflexivity.
  - rewrite (Connection_PrintVal_out T _ _
               (if print_mode c then text ++ [LF] else lit "(error) " ++ text ++ [LF])).
    + cbn [bind]. destruct (EqualFold T cmd (lit "select")); reflexivity.
    + rewrite print_mode_after_write. destruct (print_mode c); reflexivity.
Qed.

(** [Connect] without a password and on database 0: the dial, and no more. *)
Lemma Connect_plain (T : GoText) (E : Env) (c : Connection) (k : Conn) :
  dial E = inr k -> (Tls (args c) = true -> tlsConfig E = None) ->
  Askpass (args c) = false -> given_password E (args c) = [] -> Db (args c) = 0 ->
  Connect T E c = Ret (dialed k c, None).
Proof.
  intros Hd Htls Ha Hp Hdb. rewrite (Connect_dialed T E c k Hd Htls).
  assert (Had : args (dialed k c) = args c)
    by (unfold dialed; cbn [args set_bufReader set_conn set_connected]; apply args_Close).
  unfold auth. rewrite Had, Ha. cbn [bind]. cbv beta iota zeta.
  rewrite defaults_given, Hp. cbn [bind]. cbv beta iota zeta.
  unfold selectDb. rewrite Had, Hdb. reflexivity.
Qed.

(** X29: the exit status under [-e].  With a command on the command line
    and the switch [-e]: when the dial fails, the process ends with status
    1 after the line that reports it.  When the server answers the command
    with an error reply, the reply is printed, the socket is closed, and
    [main] returns, so that the status is 0: an error reply is no error of
    the command. *)
Theorem main_exit_status (T : GoText) (E : Env) (duration : float64 -> Z) (usage : bytes)
    (interactive : Args -> list event -> outcome (list event * finish))
    (osArgs restArgs : list bytes) (m : FieldsMap) (tr : list event) :
  parseArgs usage osArgs = Parsed m restArgs -> restArgs <> [] ->
  bool_field (lit "Help") m = false -> bool_field (lit "Scan") m = false ->
  bool_field (lit "ExitError") m = true ->
  let a := Args_of duration m in
  (Tls a = true -> tlsConfig E = None) ->
  (forall e,
     dial E = inl e ->
     main T E duration usage interactive osArgs tr
     = Ret (EvOut (lit "Could not connect to Redis at " ++ (Hostname a ++ lit ":" ++ Itoa (Port a))
                   ++ lit ": " ++ Error_ e ++ [LF]) :: tr, Exited 1)) /\
  (forall k text rest cmd more,
     dial E = inr k -> writeResults k = [] ->
     Askpass a = false -> given_password E a = [] -> Db a = 0 -> Repeat a = 1 ->
     ReadValue (incoming k) = Ret (Some (mkTypedVal TypeError (VString text)), None, rest) ->
     text <> lit "OK" ->
     Fields T (Join restArgs (lit " ")) = cmd :: more ->
     main T E duration usage interactive osArgs tr
     = Ret (EvClose
            :: EvOut (if EqualFold T cmd (lit "info") then text
                      else if (if NoRaw a then false else Raw a || negb (stdoutIsTerminal E))
                           then text ++ [LF]
                           else lit "(error) " ++ text ++ [LF])
            :: EvWrite (Join restArgs (lit " ") ++ CRLF) :: tr, Returned)).
Proof.
  intros Hp Hne Hh Hs He a Htls.
  assert (Hlen : (0 <? length restArgs)%nat = true)
    by (destruct restArgs; [contradiction|reflexivity]).
  assert (Hm : main T E duration usage interactive osArgs tr =
    '(c, err) <- singleCmd T E a tr (fun connection =>
                   ExecPrint T (Join restArgs (lit " ")) connection) ;;
    Ret (trace c, match err with Some _ => Exited 1 | None => Returned end)).
  { unfold main. rewrite Hp. cbv zeta. rewrite Hh, Hs, Hlen, He. reflexivity. }
  rewrite Hm. split.
  - intros e Hd. unfold singleCmd, Connect, NewConnection, Close. cbn [conn args].
    cbn [set_bufReader set_connected args conn bufReader connected istty trace].
    rewrite Hd. destruct (Tls a); [rewrite (Htls eq_refl)|]; cbn [bind]; reflexivity.
  - intros k text rest cmd more Hd Hw Ha Hg Hdb Hr Hv Hnok Hf.
    unfold singleCmd.
    rewrite (Connect_plain T E (NewConnection E a tr) k Hd Htls Ha Hg Hdb).
    cbn [bind]. cbv beta iota zeta.
    set (c1 := dialed k (NewConnection E a tr)).
    assert (Ha1 : args c1 = a) by reflexivity.
    rewrite Ha1, Hr. change (1 =? 0) with false. change (Z.to_nat 1) with 1%nat.
    cbn [repeat_loop]. rewrite Ha1, Hr. change (0 <? 1) with true. cbv iota.
    assert (Hn1 : next_write c1 = None) by (unfold next_write; cbn [conn c1 dialed set_bufReader
      set_conn]; rewrite Hw; reflexivity).
    rewrite (ExecPrint_error_text T _ cmd text more c1 k (incoming k) rest Hf eq_refl Hn1
               eq_refl Hv Hnok).
    cbn [bind]. cbv beta iota zeta.
    set (c2 := emit _ (answered _ rest c1)).
    assert (Ha2 : args c2 = a)
      by (unfold c2, answered; cbn [args emit set_bufReader]; rewrite args_written; exact Ha1).
    assert (Hk2 : conn c2 = Some k)
      by (unfold c2, answered; cbn [conn emit set_bufReader];
          exact (conn_written _ c1 k eq_refl Hw)).
    assert (Ht2 : trace c2 = EvOut (if EqualFold T cmd (lit "info") then text
                                    else if print_mode c1 then text ++ [LF]
                                         else lit "(error) " ++ text ++ [LF])
                             :: EvWrite (Join restArgs (lit " ") ++ CRLF) :: tr)
      by (unfold c2, answered; cbn [trace emit set_bufReader]; rewrite trace_written;
          reflexivity).
    cbn [bind]. cbv beta iota. rewrite Ha2, Hr. change (0 <? 1 - 1) with false. cbn [andb].
    rewrite Ha2, Hr. change (0 + 1 <? 1) with false. cbv iota. cbn [bind]. cbv beta iota.
    unfold Close. rewrite Hk2. cbn [trace emit set_connected set_bufReader]. rewrite Ht2.
    reflexivity.
Qed.

Lemma Join_words (sep a b : bytes) (l2 : list bytes) :
  forall l1, Join (l1 ++ (a ++ sep ++ b) :: l2) sep = Join (l1 ++ a :: b :: l2) sep.
Proof.
  induction l1 as [|x l1 IH].
  - cbn [app Join]. destruct l2; [reflexivity|]. rewrite <- !app_assoc. reflexivity.
  - cbn [app]. change (Join (x :: ?l) sep) with
      (match l with [] => x | _ => x ++ sep ++ Join l sep end).
    destruct l1; cbn [app] in *; rewrite IH; reflexivity.
Qed.

(** X30: the words of the command.  The arguments of the command are
    joined with blanks into one line, so the boundaries between them are
    lost: after options that are accepted, a command line with an argument
    [a b] of two words and the command line with the two arguments [a] and
    [b] in its place run the same way, to the same output, the same bytes
    on the wire and the same exit status. *)
Theorem main_joins_words (T : GoText) (E : Env) (duration : float64 -> Z) (usage : bytes)
    (interactive : Args -> list event -> outcome (list event * finish))
    (prog a b : bytes) (opts l1 l2 : list bytes) (m : FieldsMap) (tr : list event) :
  parseArgs usage (prog :: opts) = Parsed m [] ->
  HasPrefix (hd [] (l1 ++ [a ++ lit " " ++ b])) (lit "-") = false ->
  HasPrefix (hd [] (l1 ++ [a])) (lit "-") = false ->
  main T E duration usage interactive (prog :: opts ++ l1 ++ (a ++ lit " " ++ b) :: l2) tr
  = main T E duration usage interactive (prog :: opts ++ l1 ++ a :: b :: l2) tr.
Proof.
  intros Hp H1 H2.
  destruct (parseArgs_options usage prog opts m Hp) as (m1 & Hp1 & _).
  assert (Hm : m = set_defaults m1).
  { unfold parseArgs in Hp. cbn [tl] in Hp. rewrite Hp1 in Hp. injection Hp as <-. reflexivity. }
  assert (P1 : parseArgs usage (prog :: opts ++ l1 ++ (a ++ lit " " ++ b) :: l2)
               = Parsed m (l1 ++ (a ++ lit " " ++ b) :: l2)).
  { unfold parseArgs. cbn [tl]. destruct l1 as [|x l1]; cbn [app hd] in *.
    - rewrite (parse_options_app usage _ _ H1 opts _ _ Hp1), Hm. reflexivity.
    - rewrite (parse_options_app usage _ _ H1 opts _ _ Hp1), Hm. reflexivity. }
  assert (P2 : parseArgs usage (prog :: opts ++ l1 ++ a :: b :: l2)
               = Parsed m (l1 ++ a :: b :: l2)).
  { unfold parseArgs. cbn [tl]. destruct l1 as [|x l1]; cbn [app hd] in *.
    - rewrite (parse_options_app usage _ _ H2 opts _ _ Hp1), Hm. reflexivity.
    - rewrite (parse_options_app usage _ _ H2 opts _ _ Hp1), Hm. reflexivity. }
  unfold main. rewrite P1, P2. cbv zeta. rewrite Join_words.
  assert (L1 : (0 <? length (l1 ++ (a ++ lit " " ++ b) :: l2))%nat = true)
    by (destruct l1; reflexivity).
  assert (L2 : (0 <? length (l1 ++ a :: b :: l2))%nat = true) by (destruct l1; reflexivity).
  rewrite L1, L2. reflexivity.
Qed.

End Machine.

(** * Examples

    The theorems at concrete inputs, on the machine [roomy]. *)

#[global] Existing Instance roomy.

Lemma ReadValue_bulk_string_witness :
  ReadValue (lit "$5" ++ CRLF ++ lit "hello" ++ CRLF ++ lit "+OK")
    = Ret (Some (mkTypedVal TypeBulkString (VString (lit "hello"))), None, lit "+OK") /\
  exists e, ReadValue (lit "$5" ++ CRLF ++ lit "hel")
    = Ret (Some (mkTypedVal TypeBulkString VNil), Some e, []) /\
    (e = EOF \/ e = ErrUnexpectedEOF).
Proof.
  destruct (ReadValue_bulk_string 5 (lit "hello") (lit "hel") (lit "+OK"))
    as (_ & _ & _ & H3 & _).
  - unfold maxInt. lia.
  - reflexivity.
  - simpl. lia.
  - apply H3; [unfold maxAlloc; lia|reflexivity].
Defined.

(** C2 as it is stated fails: fewer bytes follow than the header declares,
    and the call does not fail with an error.  The length is above the
    ceiling of the runtime: [make] panics before a byte of the payload is
    read. *)
Lemma bulk_string_above_ceiling_panics :
  Z.of_nat (length (lit "abc")) < 9223372036854775807 /\
  ReadValue (lit "$9223372036854775807" ++ CRLF ++ lit "abc") = Panic PanicMakeSlice.
Proof. split; [simpl; lia|vm_compute; reflexivity]. Qed.

Lemma ReadValue_array_count_witness :
  ReadValue (lit "*3" ++ CRLF ++ lit ":1" ++ CRLF ++ lit ":2" ++ CRLF)
    = Ret (None, Some EOF, []).
Proof.
  destruct (ReadValue_array_count 3 (lit ":1" ++ CRLF ++ lit ":2" ++ CRLF)) as (_ & _ & H & _).
  - unfold maxInt. lia.
  - destruct (H eq_refl) as [_ H2].
    apply (H2 2%nat [mkTypedVal TypeInt (VInt 1); mkTypedVal TypeInt (VInt 2)] []
              (Some zeroTypedVal) EOF []).
    + apply (decodes_cons 1 _ (lit ":2" ++ CRLF)); [reflexivity|].
      apply (decodes_cons 0 _ []); [reflexivity|]. apply decodes_nil.
    + lia.
    + reflexivity.
Defined.

(** C3 as it is stated fails: the stream ends before the count is
    satisfied, and the call does not fail with an error.  The size of the
    slice that the header declares is above the ceiling of the runtime:
    [make] panics before an element is read. *)
Lemma array_count_above_ceiling_panics :
  ReadValue (lit "*9223372036854775807" ++ CRLF) = Panic PanicMakeSlice.
Proof. vm_compute. reflexivity. Qed.

Lemma ReadValue_unknown_type_witness :
  ReadValue (lit "?x") = Ret (Some (mkTypedVal "?"%byte VNil), Some (ErrUnknownType "?"%byte), lit "x") /\
  (exists v, ReadValue (lit "*2" ++ CRLF ++ lit ":1" ++ CRLF ++ lit "*1" ++ CRLF ++ lit "?x")
             = Ret (v, Some (ErrUnknownType "?"%byte), lit "x")) /\
  ReadValue (lit ":abc" ++ CRLF) = Ret (Some (mkTypedVal TypeInt (VInt 0)), None, []).
Proof.
  split; [|split].
  - apply (proj1 (ReadValue_unknown_type "?"%byte (lit "x"))). reflexivity.
  - destruct (ReadValue_unknown_type TypeArray
                (lit "2" ++ CRLF ++ lit ":1" ++ CRLF ++ lit "*1" ++ CRLF ++ lit "?x"))
      as (_ & _ & H & _).
    apply (H "?"%byte (lit "x")).
    apply (unknown_nested _ (lit ":1" ++ CRLF ++ lit "*1" ++ CRLF ++ lit "?x")
             (lit "*1" ++ CRLF ++ lit "?x") (lit "x") (lit "2") false None
             1 [mkTypedVal TypeInt (VInt 1)] "?"%byte);
      [reflexivity|reflexivity| |reflexivity|].
    + apply (decodes_cons 0 _ (lit "*1" ++ CRLF ++ lit "?x")); [reflexivity|].
      apply decodes_nil.
    + apply (unknown_nested _ (lit "?x") (lit "?x") (lit "x") (lit "1") false None
               0 [] "?"%byte); [reflexivity|reflexivity|apply decodes_nil|reflexivity|].
      apply unknown_here. reflexivity.
  - destruct (ReadValue_unknown_type "?"%byte []) as (_ & _ & _ & H & _).
    apply (H (lit "abc") []).
    + simpl. intros [H0|[H0|[H0|[]]]]; discriminate H0.
    + unfold defaultBufSize. simpl. lia.
Defined.

(** C6 as it is stated fails: this array begins with a type byte that has
    a case, and its decoding fails with the unknown-type error of the
    element nested in it. *)
Lemma unknown_type_inside_array :
  ~ (forall c s,
       (exists v t s', ReadValue (c :: s) = Ret (v, Some (ErrUnknownType t), s'))
       <-> known_type c = false).
Proof.
  intros H. specialize (H TypeArray (lit "1" ++ CRLF ++ lit "?")).
  destruct H as [H _].
  assert (E : known_type TypeArray = false).
  { apply H. exists None, "?"%byte, []. reflexivity. }
  discriminate E.
Qed.

Lemma ExecPrint_select_witness :
  (exists c', ExecPrint asciiText (lit "SELECT 3") (example_connection 5 (lit "+OK" ++ CRLF))
              = Ret (c', None) /\ Db (args c') = 3) /\
  (exists c', ExecPrint asciiText (lit "select 3")
                (example_connection 5 (lit "-ERR DB index is out of range" ++ CRLF))
              = Ret (c', None) /\ Db (args c') = 5).
Proof.
  split.
  - destruct (proj1 (ExecPrint_select asciiText (lit "SELECT 3") (lit "SELECT") (lit "3") [] []
             (example_connection 5 (lit "+OK" ++ CRLF)) (mkConn (lit "+OK" ++ CRLF) [])
             (lit "+OK" ++ CRLF) []
             eq_refl eq_refl eq_refl eq_refl eq_refl)) as (c' & H1 & H2 & _);
      [reflexivity|]. exists c'. split; [exact H1|exact H2].
  - apply (proj2 (ExecPrint_select asciiText (lit "select 3") (lit "select") (lit "3")
             (lit "ERR DB index is out of range") []
             (example_connection 5 (lit "-ERR DB index is out of range" ++ CRLF))
             (mkConn (lit "-ERR DB index is out of range" ++ CRLF) [])
             (lit "-ERR DB index is out of range" ++ CRLF) []
             eq_refl eq_refl eq_refl eq_refl eq_refl)).
    + reflexivity.
    + discriminate.
Defined.

(** C7 as it is stated fails: with the session on database 5, SELECT 3
    answered by an error leaves the tracked index at 5; it is not reset
    to 0. *)
Lemma ExecPrint_select_error_keeps_Db :
  exists c', ExecPrint asciiText (lit "SELECT 3")
               (example_connection 5 (lit "-ERR DB index is out of range" ++ CRLF))
             = Ret (c', None) /\ Db (args c') = 5 /\ Db (args c') <> 0.
Proof. eexists. split; [reflexivity|]. split; [reflexivity|discriminate]. Qed.

Lemma Connect_error_is_dial_error_witness :
  (exists c',
     Connect asciiText (example_env [])
       (NewConnection (example_env []) (example_args_with (lit "secret") 1 0) [])
     = Ret (c', None) /\
     connected c' = true /\
     stdout c' = lit "EOFEOF") /\
  (exists c',
     Connect asciiText (example_env_broken (lit "broken pipe"))
       (NewConnection (example_env_broken (lit "broken pipe"))
          (example_args_with (lit "secret") 1 0) [])
     = Ret (c', None) /\
     connected c' = true /\
     stdout c' = lit "broken pipebroken pipe").
Proof.
  split.
  - destruct (Connect_error_is_dial_error asciiText (example_env [])
                (NewConnection (example_env []) (example_args_with (lit "secret") 1 0) [])
                (mkConn [] []) eq_refl (fun _ => eq_refl)) as (H & _ & _).
    eexists.
    edestruct H as (H1 & H2 & _); [vm_compute; reflexivity|].
    split; [exact H1|]. split; [exact H2|]. reflexivity.
  - destruct (Connect_error_is_dial_error asciiText (example_env_broken (lit "broken pipe"))
                (NewConnection (example_env_broken (lit "broken pipe"))
                   (example_args_with (lit "secret") 1 0) [])
                (mkConn [] [Some (ErrNet (lit "broken pipe"))]) eq_refl (fun _ => eq_refl))
      as (H & _ & _).
    eexists.
    edestruct H as (H1 & H2 & _); [vm_compute; reflexivity|].
    split; [exact H1|]. split; [exact H2|]. reflexivity.
Defined.

Lemma singleCmd_repeat_witness :
  exists c',
    singleCmd asciiText (example_env (lit "+PONG" ++ CRLF ++ lit "+PONG" ++ CRLF))
      (example_args_with [] 2 1000) [] (ExecPrint asciiText (lit "PING"))
    = Ret (c', None) /\
    history c' =
      [EvWrite (lit "PING" ++ CRLF); EvOut (lit "PONG" ++ [LF]); EvSleep 1000;
       EvWrite (lit "PING" ++ CRLF); EvOut (lit "PONG" ++ [LF]); EvClose].
Proof.
  destruct (singleCmd_repeat asciiText (example_env (lit "+PONG" ++ CRLF ++ lit "+PONG" ++ CRLF))
              (example_args_with [] 2 1000) [] (ExecPrint asciiText (lit "PING"))
              (dialed (mkConn (lit "+PONG" ++ CRLF ++ lit "+PONG" ++ CRLF) [])
                 (NewConnection (example_env []) (example_args_with [] 2 1000) []))
              2 (ExecPrint_keeps_Repeat asciiText (lit "PING")) eq_refl eq_refl)
    as (H & _).
  rewrite (H ltac:(lia)).
  eexists. split; reflexivity.
Defined.

(** C8 as it is stated fails: with the repeat count 0 the command is
    executed once, not zero times. *)
Lemma singleCmd_repeat_zero_runs_once :
  exists c',
    singleCmd asciiText (example_env (lit "+PONG" ++ CRLF))
      (example_args_with [] 0 0) [] (ExecPrint asciiText (lit "PING"))
    = Ret (c', None) /\
    writes c' = [lit "PING" ++ CRLF] /\
    Z.of_nat (length (writes c')) <> Repeat (example_args_with [] 0 0).
Proof. eexists. split; [reflexivity|]. split; [reflexivity|discriminate]. Qed.


(** C4, on the code: the round trip breaks on a tree that holds a null
    array.  Its encoding per the wire grammar carries the header [*-1], at
    which the decoder panics instead of returning the tree. *)
Theorem ReadValue_encode_null_array_panics :
  encode (Array [BulkString (lit "a"); mkTypedVal TypeArray VNil])
    = lit "*2" ++ CRLF ++ lit "$1" ++ CRLF ++ lit "a" ++ CRLF ++ lit "*-1" ++ CRLF /\
  ReadValue (encode (Array [BulkString (lit "a"); mkTypedVal TypeArray VNil]))
    = Panic PanicMakeSlice.
Proof. split; reflexivity. Qed.

(** The flag [isPrefix] of [ReadLine] is dropped: a simple string that does
    not fit the buffer with its terminator comes back cut at the buffer, or
    whole with the reader left before the terminator. *)
Lemma ReadValue_long_line :
  ReadValue (encode (SimpleString (repeat "a"%byte 4095)))
    = Ret (Some (SimpleString (repeat "a"%byte 4095)), None, CRLF) /\
  ReadValue (encode (SimpleString (repeat "a"%byte 4097)))
    = Ret (Some (SimpleString (repeat "a"%byte 4096)), None, "a"%byte :: CRLF).
Proof. split; vm_compute; reflexivity. Qed.

Lemma ReadValue_round_trip_witness :
  decodes 2
    (lit "$5" ++ CRLF ++ lit "hello" ++ CRLF ++
     lit "*2" ++ CRLF ++ lit ":-7" ++ CRLF ++ lit "$-1" ++ CRLF ++ lit "+next")
    [BulkString (lit "hello"); Array [Integer (-7); mkTypedVal TypeBulkString VNil]]
    (lit "+next").
Proof.
  apply (ReadValue_round_trip
           [BulkString (lit "hello"); Array [Integer (-7); mkTypedVal TypeBulkString VNil]]
           (lit "+next")).
  repeat constructor; try (unfold minInt, maxInt; simpl; lia).
  intros v [<-|[<-|[]]]; constructor; unfold minInt, maxInt; lia.
Defined.

Lemma ReadValue_line_endings_witness :
  ReadValue (lit "+OK" ++ [LF] ++ lit ":1") = Ret (Some (SimpleString (lit "OK")), None, lit ":1") /\
  ReadValue (lit "-ERR wrong") = Ret (Some (mkTypedVal TypeError (VString (lit "ERR wrong"))), None, []).
Proof.
  destruct (ReadValue_line_endings TypeSimpleString (lit "OK") (lit ":1")) as (H1 & _).
  - left. reflexivity.
  - simpl. intros [H|[H|[]]]; discriminate H.
  - unfold defaultBufSize. simpl. lia.
  - destruct (ReadValue_line_endings TypeError (lit "ERR wrong") []) as (_ & _ & H3 & _).
    + right. reflexivity.
    + simpl. intros H. repeat (destruct H as [H|H]; [discriminate H|]). exact H.
    + unfold defaultBufSize. simpl. lia.
    + split; [apply H1; reflexivity|apply H3; discriminate].
Defined.

Lemma ReadValue_line_cut_at_buffer_witness :
  ReadValue ("+"%byte :: repeat "a"%byte 4096 ++ lit "tail" ++ CRLF)
    = Ret (Some (SimpleString (repeat "a"%byte 4096)), None, lit "tail" ++ CRLF) /\
  ReadValue ("+"%byte :: repeat "a"%byte 4095 ++ CR :: [LF])
    = Ret (Some (SimpleString (repeat "a"%byte 4095)), None, CRLF).
Proof.
  split.
  - apply (proj1 (ReadValue_line_cut_at_buffer TypeSimpleString (repeat "a"%byte 4096)
                    (lit "tail" ++ CRLF) (or_introl eq_refl)
                    (repeat_not_in "a"%byte LF 4096 ltac:(discriminate)))).
    + apply repeat_length.
    + apply ends_with_not_in. apply repeat_not_in. discriminate.
  - apply (proj2 (ReadValue_line_cut_at_buffer TypeSimpleString (repeat "a"%byte 4095)
                    [LF] (or_introl eq_refl)
                    (repeat_not_in "a"%byte LF 4095 ltac:(discriminate)))).
    rewrite repeat_length. reflexivity.
Defined.

Lemma ReadValue_reader_invariants_witness :
  exists consumed,
    lit "$3" ++ CRLF ++ lit "foo" ++ CRLF ++ lit ":1" = consumed ++ lit ":1" /\ consumed <> [].
Proof.
  destruct (ReadValue_reader_invariants (R := roomy)
              (lit "$3" ++ CRLF ++ lit "foo" ++ CRLF ++ lit ":1") (lit ":1")
              (Some (BulkString (lit "foo"))) None eq_refl) as [(consumed & E & Hne) _].
  exists consumed. split; [exact E|]. apply Hne. discriminate.
Defined.

Lemma ReadValue_kind_fits_witness :
  kind_fits (Array [Integer 0; mkTypedVal TypeBulkString VNil]).
Proof.
  exact (ReadValue_kind_fits (R := roomy) (lit "*2" ++ CRLF ++ lit ":x" ++ CRLF ++ lit "$-1" ++ CRLF) []
           (Array [Integer 0; mkTypedVal TypeBulkString VNil]) eq_refl).
Defined.

Lemma ReadValue_then_PrintVal_witness :
  exists out,
    PrintVal asciiText (Array [Array []; mkTypedVal TypeError (VString (lit "ERR x"))]) false
    = Ret out.
Proof.
  exact (proj1 (ReadValue_then_PrintVal (R := roomy) asciiText false
                  (lit "*2" ++ CRLF ++ lit "*0" ++ CRLF ++ lit "-ERR x" ++ CRLF) []
                  (Array [Array []; mkTypedVal TypeError (VString (lit "ERR x"))]) [] 0)
               eq_refl).
Defined.

Lemma ReadValue_bulk_odd_length_witness :
  ReadValue (lit "$-2" ++ CRLF ++ lit "ab" ++ CRLF) = Panic PanicMakeSlice /\
  ReadValue (lit "$five" ++ CRLF ++ lit "hello" ++ CRLF ++ lit "+OK" ++ CRLF)
    = Ret (Some (mkTypedVal TypeBulkString (VString [])), None, lit "+OK" ++ CRLF).
Proof.
  destruct (ReadValue_bulk_odd_length (-2) (lit "five") (lit "hello") (lit "ab" ++ CRLF)
              (lit "+OK" ++ CRLF)) as [H1 H2].
  split.
  - apply H1. unfold minInt. lia.
  - apply H2.
    + reflexivity.
    + simpl. intros H. repeat (destruct H as [H|H]; [discriminate H|]). exact H.
    + unfold defaultBufSize. simpl. lia.
    + simpl. intros H. repeat (destruct H as [H|H]; [discriminate H|]). exact H.
    + unfold defaultBufSize. simpl. lia.
Defined.

Lemma ReadValue_integer_clamped_witness :
  ReadValue (lit ":9223372036854775808" ++ CRLF) = Ret (Some (Integer maxInt), None, []) /\
  ReadValue (lit ":-99999999999999999999" ++ CRLF) = Ret (Some (Integer minInt), None, []).
Proof.
  split.
  - destruct (ReadValue_integer_clamped (lit "9223372036854775808") []) as [H _].
    + repeat constructor.
    + discriminate.
    + unfold defaultBufSize. simpl. lia.
    + apply H. reflexivity.
  - destruct (ReadValue_integer_clamped (lit "99999999999999999999") []) as [_ H].
    + repeat constructor.
    + discriminate.
    + unfold defaultBufSize. simpl. lia.
    + apply H. reflexivity.
Defined.

Lemma ExecPrint_info_witness :
  exists c',
    ExecPrint asciiText (lit "Info server")
      (example_connection 0 (lit "$11" ++ CRLF ++ lit "role:master" ++ CRLF))
    = Ret (c', None) /\
    stdout c' = lit "role:master".
Proof.
  destruct (ExecPrint_info (R := roomy) asciiText (lit "Info server") (lit "Info") [lit "server"]
              (example_connection 0 (lit "$11" ++ CRLF ++ lit "role:master" ++ CRLF))
              (mkConn (lit "$11" ++ CRLF ++ lit "role:master" ++ CRLF) [])
              (lit "$11" ++ CRLF ++ lit "role:master" ++ CRLF) []
              (BulkString (lit "role:master"))
              eq_refl eq_refl eq_refl eq_refl eq_refl eq_refl eq_refl) as [H _].
  eexists. split; [exact (H (lit "role:master") eq_refl)|reflexivity].
Defined.

Lemma ExecPrint_error_reply_witness :
  exists c',
    ExecPrint asciiText (lit "GET")
      (example_connection 2 (lit "-ERR wrong number of arguments" ++ CRLF))
    = Ret (c', None) /\
    stdout c' = lit "(error) ERR wrong number of arguments" ++ [LF] /\
    Db (args c') = 2.
Proof.
  eexists. split.
  - apply (ExecPrint_error_reply asciiText (lit "GET") (lit "GET")
             (lit "ERR wrong number of arguments") []
             (example_connection 2 (lit "-ERR wrong number of arguments" ++ CRLF))
             (mkConn (lit "-ERR wrong number of arguments" ++ CRLF) [])
             (lit "-ERR wrong number of arguments" ++ CRLF) []
             eq_refl eq_refl eq_refl eq_refl eq_refl).
    discriminate.
  - split; reflexivity.
Defined.

Lemma ExecPrint_transport_error_witness :
  exists c',
    ExecPrint asciiText [] (example_connection 0 (lit "$5" ++ CRLF ++ lit "hel"))
    = Ret (c', Some ErrUnexpectedEOF) /\
    history c' = [EvWrite CRLF; EvOut (lit "unexpected EOF")].
Proof.
  eexists. split.
  - apply (proj2 (ExecPrint_transport_error asciiText []
                    (example_connection 0 (lit "$5" ++ CRLF ++ lit "hel"))
                    (mkConn (lit "$5" ++ CRLF ++ lit "hel") []) ErrUnexpectedEOF eq_refl)
             (lit "$5" ++ CRLF ++ lit "hel") (Some (mkTypedVal TypeBulkString VNil)) []);
      reflexivity.
  - reflexivity.
Defined.

Lemma auth_password_source_witness :
  exists c',
    auth asciiText (mkEnv (inl EOF) None (lit "fromenv") (inr []) true)
      (mkConnection (mkArgs (lit "127.0.0.1") 6379 (lit "dash-a") [] [] false 1 0 0
                            false false false (lit "*") 10)
                    (Some (mkConn [] [])) (Some (lit "-WRONGPASS bad" ++ CRLF)) true true [])
    = Ret (c', None) /\
    history c' = [EvWrite (lit "AUTH  dash-a" ++ CRLF);
                  EvOut (lit "AUTH failed: WRONGPASS bad" ++ [LF])].
Proof.
  eexists. split.
  - refine (proj1 (proj2 (auth_password_source asciiText
                     (mkEnv (inl EOF) None (lit "fromenv") (inr []) true)
                     (mkConnection (mkArgs (lit "127.0.0.1") 6379 (lit "dash-a") [] [] false 1 0 0
                                           false false false (lit "*") 10)
                                   (Some (mkConn [] [])) (Some (lit "-WRONGPASS bad" ++ CRLF))
                                   true true [])
                     (mkConn [] []) (lit "-WRONGPASS bad" ++ CRLF) []
                     (mkTypedVal TypeError (VString (lit "WRONGPASS bad"))) eq_refl)
                   _ eq_refl eq_refl eq_refl eq_refl) (lit "WRONGPASS bad") eq_refl).
    discriminate.
  - reflexivity.
Defined.

Lemma auth_askpass_witness :
  exists c',
    auth asciiText (mkEnv (inl EOF) None (lit "fromenv") (inr []) true)
      (mkConnection (mkArgs (lit "127.0.0.1") 6379 (lit "dash-a") [] [] true 1 0 0
                            false false false (lit "*") 10)
                    (Some (mkConn [] [])) (Some []) true true [])
    = Ret (c', None) /\
    history c' = [EvOut (lit "Please input password: "); EvOut [LF]].
Proof.
  eexists. split.
  - exact (proj1 (proj2 (auth_askpass asciiText
                     (mkEnv (inl EOF) None (lit "fromenv") (inr []) true)
                     (mkConnection (mkArgs (lit "127.0.0.1") 6379 (lit "dash-a") [] [] true 1 0 0
                                           false false false (lit "*") 10)
                                   (Some (mkConn [] [])) (Some []) true true [])
                     eq_refl)) eq_refl).
  - reflexivity.
Defined.

Lemma selectDb_cases_witness :
  exists c',
    selectDb asciiText (example_connection 99 (lit "-ERR DB index is out of range" ++ CRLF))
    = Ret (c', None) /\
    history c' = [EvWrite (lit "SELECT 99" ++ CRLF);
                  EvOut (lit "SELECT 99 failed: ERR DB index is out of range" ++ [LF])] /\
    Db (args c') = 0 /\
    CliPrefix c' = lit "127.0.0.1:6379".
Proof.
  destruct (proj2 (selectDb_cases asciiText
                     (example_connection 99 (lit "-ERR DB index is out of range" ++ CRLF))
                     (mkConn (lit "-ERR DB index is out of range" ++ CRLF) [])
                     (lit "-ERR DB index is out of range" ++ CRLF) []
                     (mkTypedVal TypeError (VString (lit "ERR DB index is out of range"))))
             ltac:(discriminate) eq_refl eq_refl eq_refl eq_refl) as (c' & H & _ & He & _).
  destruct (He _ eq_refl) as (Ht & Ha & Hp).
  exists c'. split; [exact H|]. split; [|split].
  - unfold history. rewrite Ht. reflexivity.
  - rewrite Ha. reflexivity.
  - rewrite (Hp eq_refl). reflexivity.
Defined.

Lemma Connect_handshake_witness :
  exists c',
    Connect asciiText
      (example_env (lit "-WRONGPASS bad" ++ CRLF ++ lit "-NOAUTH Authentication required." ++ CRLF))
      (NewConnection
         (example_env (lit "-WRONGPASS bad" ++ CRLF ++ lit "-NOAUTH Authentication required." ++ CRLF))
         (mkArgs (lit "127.0.0.1") 6379 (lit "guess") [] [] false 1 0 3
                 false false false (lit "*") 10) [])
    = Ret (c', None) /\
    history c' =
      [EvWrite (lit "AUTH  guess" ++ CRLF);
       EvOut (lit "AUTH failed: WRONGPASS bad" ++ [LF]);
       EvWrite (lit "SELECT 3" ++ CRLF);
       EvOut (lit "SELECT 3 failed: NOAUTH Authentication required." ++ [LF])] /\
    Db (args c') = 0.
Proof.
  destruct (Connect_handshake asciiText
      (example_env (lit "-WRONGPASS bad" ++ CRLF ++ lit "-NOAUTH Authentication required." ++ CRLF))
      (NewConnection
         (example_env (lit "-WRONGPASS bad" ++ CRLF ++ lit "-NOAUTH Authentication required." ++ CRLF))
         (mkArgs (lit "127.0.0.1") 6379 (lit "guess") [] [] false 1 0 3
                 false false false (lit "*") 10) [])
      (mkConn (lit "-WRONGPASS bad" ++ CRLF ++ lit "-NOAUTH Authentication required." ++ CRLF) [])
      (lit "-NOAUTH Authentication required." ++ CRLF) []
      (mkTypedVal TypeError (VString (lit "WRONGPASS bad")))
      (mkTypedVal TypeError (VString (lit "NOAUTH Authentication required.")))
      eq_refl eq_refl ltac:(discriminate) eq_refl ltac:(discriminate) ltac:(discriminate)
      eq_refl eq_refl) as (c' & H1 & H2 & _ & _ & H5).
  exists c'. split; [exact H1|]. split; [rewrite H2; reflexivity|exact H5].
Defined.

Lemma singleCmd_dial_failure_witness :
  exists c',
    singleCmd asciiText (mkEnv (inl (ErrNet (lit "connection refused"))) None [] (inr []) true)
      (example_args_with [] 5 0) [] (fun _ => Panic PanicFatal)
    = Ret (c', Some (ErrNet (lit "connection refused"))) /\
    history c' = [EvOut (lit "Could not connect to Redis at 127.0.0.1:6379: connection refused"
                         ++ [LF])].
Proof.
  eexists. split.
  - apply (singleCmd_dial_failure asciiText
             (mkEnv (inl (ErrNet (lit "connection refused"))) None [] (inr []) true)
             (example_args_with [] 5 0) [] (fun _ => Panic PanicFatal)
             (ErrNet (lit "connection refused")) eq_refl).
    discriminate.
  - reflexivity.
Defined.

Lemma scan_pages_cut_short_witness :
  exists c',
    scan_pages asciiText
      (example_connection 0
         (lit "*2" ++ CRLF ++ lit "$2" ++ CRLF ++ lit "17" ++ CRLF ++
          lit "*1" ++ CRLF ++ lit "$1" ++ CRLF ++ lit "a" ++ CRLF))
    = Ret (c', Some EOF) /\
    history c' =
      [EvWrite (lit "SCAN 0 MATCH * COUNT 10" ++ CRLF);
       EvOut ([DQUOTE] ++ lit "a" ++ [DQUOTE; LF]);
       EvWrite (lit "SCAN 17 MATCH * COUNT 10" ++ CRLF);
       EvOut (lit "EOF")].
Proof.
  destruct (scan_pages_cut_short asciiText
              (example_connection 0
                 (lit "*2" ++ CRLF ++ lit "$2" ++ CRLF ++ lit "17" ++ CRLF ++
                  lit "*1" ++ CRLF ++ lit "$1" ++ CRLF ++ lit "a" ++ CRLF))
              (mkConn (lit "*2" ++ CRLF ++ lit "$2" ++ CRLF ++ lit "17" ++ CRLF ++
                       lit "*1" ++ CRLF ++ lit "$1" ++ CRLF ++ lit "a" ++ CRLF) [])
              (lit "*2" ++ CRLF ++ lit "$2" ++ CRLF ++ lit "17" ++ CRLF ++
               lit "*1" ++ CRLF ++ lit "$1" ++ CRLF ++ lit "a" ++ CRLF) [] []
              [(lit "17", [[DQUOTE] ++ lit "a" ++ [DQUOTE; LF]])]
              (Some zeroTypedVal) EOF
              eq_refl eq_refl eq_refl) as (c' & H1 & H2 & _).
  - eapply open_next.
    + vm_compute. reflexivity.
    + reflexivity.
    + discriminate.
    + reflexivity.
    + constructor; [reflexivity|]. constructor.
    + apply open_none.
  - reflexivity.
  - exists c'. split; [exact H1|]. rewrite H2. reflexivity.
Defined.

Lemma scan_pages_not_a_page_witness :
  scan_pages asciiText (example_connection 0 (lit "-NOAUTH Authentication required." ++ CRLF))
  = Panic PanicTypeAssertion.
Proof.
  apply (proj1 (scan_pages_not_a_page asciiText
                  (example_connection 0 (lit "-NOAUTH Authentication required." ++ CRLF))
                  (mkConn (lit "-NOAUTH Authentication required." ++ CRLF) [])
                  (lit "-NOAUTH Authentication required." ++ CRLF) []
                  (mkTypedVal TypeError (VString (lit "NOAUTH Authentication required.")))
                  eq_refl eq_refl eq_refl eq_refl)).
  discriminate.
Defined.

Lemma ExecPrint_missing_word_witness :
  ExecPrint asciiText (lit "  ") (example_connection 0 (lit "+PONG" ++ CRLF)) = Panic PanicIndex.
Proof.
  apply (proj1 (ExecPrint_missing_word asciiText (lit "  ")
                  (example_connection 0 (lit "+PONG" ++ CRLF))
                  (mkConn (lit "+PONG" ++ CRLF) []) (lit "+PONG" ++ CRLF) []
                  (SimpleString (lit "PONG")) eq_refl eq_refl eq_refl eq_refl)).
  reflexivity.
Defined.

Lemma CliPrefix_after_select_witness :
  exists c',
    ExecPrint asciiText (lit "select 7") (example_connection 0 (lit "+OK" ++ CRLF))
    = Ret (c', None) /\
    CliPrefix c' = lit "127.0.0.1:6379[7]".
Proof.
  destruct (CliPrefix_after_select asciiText (lit "select 7") (lit "select") 7 []
              (example_connection 0 (lit "+OK" ++ CRLF)) (mkConn (lit "+OK" ++ CRLF) [])
              (lit "+OK" ++ CRLF) [] TypeSimpleString
              eq_refl ltac:(unfold minInt, maxInt; lia) eq_refl eq_refl eq_refl eq_refl eq_refl
              eq_refl) as (c' & H1 & H2 & _).
  exists c'. split; [exact H1|]. rewrite H2. reflexivity.
Defined.

Lemma executor_first_word_witness :
  executor asciiText (mkGoTrim (fun s => s) (fun s => s)) (example_env [])
    (lit "  Quit now ") (example_connection 0 [])
  = Ret (example_connection 0 [], Exited 0).
Proof.
  destruct (proj2 (executor_first_word asciiText (mkGoTrim (fun s => s) (fun s => s))
                     (example_env []) (lit "  Quit now ") (example_connection 0 [])
                     eq_refl eq_refl) eq_refl) as (cmd & more & Hf & Hx).
  injection Hf as <- <-. exact Hx.
Defined.

Lemma executor_keeps_session_witness :
  exists c',
    executor asciiText (mkGoTrim (fun s => s) (fun s => s)) (example_env []) (lit " ping ")
      (example_connection 0 []) = Ret (c', Returned) /\
    history c' = [EvWrite (lit "ping" ++ CRLF); EvOut (lit "EOF"); EvOut (lit "EOF" ++ [LF])] /\
    connected c' = true.
Proof.
  destruct (executor_keeps_session asciiText (mkGoTrim (fun s => s) (fun s => s))
              (example_env []) (lit " ping ") (example_connection 0 []) eq_refl)
    as (_ & Hconn & Herr).
  destruct (Herr (lit "ping") [] (mkConn [] []) EOF eq_refl eq_refl eq_refl eq_refl eq_refl)
    as [_ Hd].
  specialize (Hd [] (Some zeroTypedVal) [] eq_refl eq_refl eq_refl).
  eexists. split; [exact Hd|]. split; [reflexivity|].
  exact (Hconn _ _ Hd).
Defined.

Lemma executor_server_down_witness :
  exists c',
    executor asciiText (mkGoTrim (fun s => s) (fun s => s))
      (mkEnv (inl (ErrNet (lit "connection refused"))) None [] (inr []) true)
      (lit "quit")
      (NewConnection (mkEnv (inl (ErrNet (lit "connection refused"))) None [] (inr []) true)
         (example_args 0) [])
    = Ret (c', Returned) /\
    stdout c' = lit "Could not connect to Redis at 127.0.0.1:6379: connection refused" ++ [LF].
Proof.
  eexists. split.
  - apply (executor_server_down asciiText (mkGoTrim (fun s => s) (fun s => s))
             (mkEnv (inl (ErrNet (lit "connection refused"))) None [] (inr []) true)
             (lit "quit")
             (NewConnection (mkEnv (inl (ErrNet (lit "connection refused"))) None [] (inr []) true)
                (example_args 0) [])
             (ErrNet (lit "connection refused")) eq_refl eq_refl).
    discriminate.
  - reflexivity.
Defined.

Lemma main_bad_option_witness :
  main asciiText (example_env []) (fun _ => 0) (lit "Usage") (fun _ tr => Ret (tr, Returned))
    [lit "redis-cli"; lit "-e"; lit "--"; lit "ping"] []
  = Ret ([EvOut (lit "Unrecognized option or bad number of args for: '--'" ++ [LF])], Exited 0).
Proof.
  refine (proj1 (proj2 (main_bad_option asciiText (example_env []) (fun _ => 0) (lit "Usage")
                          (fun _ tr => Ret (tr, Returned)) (lit "redis-cli") (lit "--")
                          [lit "-e"] _ []) eq_refl eq_refl) eq_refl [lit "ping"]).
Defined.

Lemma main_exit_status_witness :
  main asciiText (example_env (lit "-ERR wrong number of arguments" ++ CRLF)) (fun _ => 0)
    (lit "Usage") (fun _ tr => Ret (tr, Returned)) [lit "redis-cli"; lit "-e"; lit "GET"] []
  = Ret ([EvClose; EvOut (lit "(error) ERR wrong number of arguments" ++ [LF]);
          EvWrite (lit "GET" ++ CRLF)], Returned).
Proof.
  refine (proj2 (main_exit_status asciiText
                   (example_env (lit "-ERR wrong number of arguments" ++ CRLF)) (fun _ => 0)
                   (lit "Usage") (fun _ tr => Ret (tr, Returned))
                   [lit "redis-cli"; lit "-e"; lit "GET"] [lit "GET"] _ []
                   eq_refl _ eq_refl eq_refl eq_refl _)
            (mkConn (lit "-ERR wrong number of arguments" ++ CRLF) [])
            (lit "ERR wrong number of arguments") [] (lit "GET") []
            eq_refl eq_refl eq_refl eq_refl eq_refl eq_refl eq_refl _ eq_refl);
    discriminate.
Defined.

Lemma main_joins_words_witness :
  main asciiText (example_env (lit "-ERR syntax error" ++ CRLF)) (fun _ => 0) (lit "Usage")
    (fun _ tr => Ret (tr, Returned))
    [lit "redis-cli"; lit "set"; lit "k"; lit "hello world"] []
  = main asciiText (example_env (lit "-ERR syntax error" ++ CRLF)) (fun _ => 0) (lit "Usage")
      (fun _ tr => Ret (tr, Returned))
      [lit "redis-cli"; lit "set"; lit "k"; lit "hello"; lit "world"] [].
Proof.
  exact (main_joins_words asciiText (example_env (lit "-ERR syntax error" ++ CRLF)) (fun _ => 0)
           (lit "Usage") (fun _ tr => Ret (tr, Returned))
           (lit "redis-cli") (lit "hello") (lit "world") [] [lit "set"; lit "k"] [] _ []
           eq_refl eq_refl eq_refl).
Defined.
